(** * A caching forwarding proxy: the LRU cache and the two request handlers

    Shallow embedding of [internal/proxy/cache.go] (the LRU cache, the
    caching handler) and of the handler that decodes a target URL from the
    request path.

    - Go's [map[string]*list.Element] is a [gmap string Elem]; an element of
      [container/list] is a handle ([Elem], a number), the list is the
      sequence of handles from front to back, and the [*CacheItem] an
      element's [Value] points to lives in an explicit store indexed by the
      handle, so that the map and the list alias the same item.
    - [int] is [Z]; [[]byte] is [list byte]; [string] is [string].
    - A run-time panic of the cache (a nil dereference, a failed type
      assertion) is [None]; a handler is the trace of what it does to the
      outside, and the panic of [w.WriteHeader] on a status code it refuses
      ends the trace. *)

From Stdlib Require Import ZArith Lia Ascii String.
From Stdlib.Strings Require Import Byte.
From stdpp Require Import base option list gmap strings sorting.

Open Scope Z_scope.

(** ** The cache *)

Module LRU.

(** A handle on a [*list.Element]. *)
Definition Elem := nat.

(** [type CacheItem struct { key string; value []byte }] *)
Record CacheItem := mkItem {
  key : string;
  value : list byte
}.

(** [type LRUCache struct { capacity int; cache map[string]*list.Element;
    list *list.List; mu sync.Mutex }].  [list_] is the field [list], [items]
    the memory the elements' [Value] pointers refer to, [next] the
    allocator of fresh elements. The mutex is held for the whole of [Get]
    and [Put]; in a sequential run [Lock] and the deferred [Unlock] change
    nothing and are left out here (they are explicit in [Module Conc]). *)
Record LRUCache := mkLRU {
  capacity : Z;
  cache : gmap string Elem;
  list_ : list Elem;
  items : gmap Elem CacheItem;
  next : Elem
}.

(** *** The operations of [container/list] the cache uses *)

(** [l.Remove(e)]: unlinks [e] if it is an element of [l]. *)
Definition Remove (e : Elem) (l : list Elem) : list Elem :=
  filter (λ x, x ≠ e) l.

(** [l.MoveToFront(e)]: nothing if [e] is not an element of [l] or is
    already its front; otherwise [e] is unlinked and put first. *)
Definition MoveToFront (e : Elem) (l : list Elem) : list Elem :=
  if decide (e ∈ l) then
    if decide (head l = Some e) then l else e :: Remove e l
  else l.

(** [l.Back()]: the last element, or nil for the empty list. *)
Definition Back (l : list Elem) : option Elem := last l.

(** [l.PushFront(v)]: a fresh element in front. *)
Definition PushFront (e : Elem) (l : list Elem) : list Elem := e :: l.

(** [len(lru.cache)] *)
Definition len (m : gmap string Elem) : Z := Z.of_nat (size m).

(** *** [NewLRUCache] *)
Definition NewLRUCache (capacity : Z) : LRUCache :=
  {| capacity := capacity; cache := ∅; list_ := []; items := ∅; next := 0%nat |}.

(** *** [Get]

    The result is the returned pair and the cache afterwards. *)
Definition Get (k : string) (lru : LRUCache)
  : option ((list byte * bool) * LRUCache) :=
  match cache lru !! k with
  | Some elem =>
      let lru' := {| capacity := capacity lru; cache := cache lru;
                     list_ := MoveToFront elem (list_ lru);
                     items := items lru; next := next lru |} in
      (* the type assertion on elem.Value, then the field value *)
      it ← items lru' !! elem;
      Some ((value it, true), lru')
  | None => Some (([], false), lru)
  end.

(** The eviction block of [Put]: runs when [len(lru.cache) >= lru.capacity]. *)
Definition evict (lru : LRUCache) : option LRUCache :=
  match Back (list_ lru) with
  | Some lastElem =>
      it ← items lru !! lastElem;
      Some {| capacity := capacity lru;
              cache := delete (key it) (cache lru);
              list_ := Remove lastElem (list_ lru);
              items := items lru; next := next lru |}
  | None => Some lru
  end.

(** The last three statements of [Put]: a new item, pushed in front and
    registered in the map. *)
Definition insert_new (k : string) (v : list byte) (lru : LRUCache) : LRUCache :=
  let elem := next lru in
  {| capacity := capacity lru;
     cache := <[k := elem]> (cache lru);
     list_ := PushFront elem (list_ lru);
     items := <[elem := mkItem k v]> (items lru);
     next := S elem |}.

(** *** [Put] *)
Definition Put (k : string) (v : list byte) (lru : LRUCache) : option LRUCache :=
  match cache lru !! k with
  | Some elem =>
      it ← items lru !! elem;
      Some {| capacity := capacity lru; cache := cache lru;
              list_ := MoveToFront elem (list_ lru);
              items := <[elem := mkItem (key it) v]> (items lru);
              next := next lru |}
  | None =>
      lru1 ← (if bool_decide (len (cache lru) >= capacity lru)
              then evict lru else Some lru);
      Some (insert_new k v lru1)
  end.

(** *** Sequences of operations *)

Inductive Op :=
  | OpGet (k : string)
  | OpPut (k : string) (v : list byte).

Definition step (op : Op) (lru : LRUCache) : option LRUCache :=
  match op with
  | OpGet k => snd <$> Get k lru
  | OpPut k v => Put k v lru
  end.

(** The operations of [ops] one after the other, the first one first. *)
Fixpoint exec (ops : list Op) (lru : LRUCache) : option LRUCache :=
  match ops with
  | [] => Some lru
  | op :: ops' => lru' ← step op lru; exec ops' lru'
  end.

(** What [Get] would return, without the move to the front: a pure
    observation of the stored value. *)
Definition peek (k : string) (lru : LRUCache) : option (list byte) :=
  elem ← cache lru !! k; value <$> items lru !! elem.

(** *** Well-formed caches

    The map and the list describe the same entries: the list has no element
    twice, every key of the map points to an element of the list whose item
    carries that key, every element of the list is registered in the map
    under the key of its item, and both have the same size. *)
Record wf (lru : LRUCache) : Prop := mkWf {
  wf_nodup : NoDup (list_ lru);
  wf_index : ∀ k e, cache lru !! k = Some e →
               e ∈ list_ lru ∧ ∃ v, items lru !! e = Some (mkItem k v);
  wf_entry : ∀ e, e ∈ list_ lru →
               ∃ it, items lru !! e = Some it ∧ cache lru !! key it = Some e;
  wf_size : size (cache lru) = length (list_ lru);
  wf_fresh : ∀ e, e ∈ list_ lru → (e < next lru)%nat
}.

(** The invariant of the data model: well-formed and within the capacity. *)
Definition inv (lru : LRUCache) : Prop :=
  wf lru ∧ len (cache lru) <= capacity lru.

(** *** The history of a cache

    An operation touches a key when it is a [Put] of that key or a [Get]
    that finds it. [touch_log ops lru] lists, for the operations of [ops]
    run from [lru] in turn, the key each one touches, if any. *)
Definition touches (op : Op) (lru : LRUCache) : option string :=
  match op with
  | OpPut k _ => Some k
  | OpGet k => match cache lru !! k with Some _ => Some k | None => None end
  end.

Fixpoint touch_log (ops : list Op) (lru : LRUCache) : list (option string) :=
  match ops with
  | [] => []
  | op :: ops' =>
      touches op lru ::
      match step op lru with
      | Some lru' => touch_log ops' lru'
      | None => []
      end
  end.

(** The position in the log of the last touch of [k], counted from [i]. *)
Fixpoint last_touch_from (i : nat) (k : string) (log : list (option string))
  : option nat :=
  match log with
  | [] => None
  | t :: log' =>
      match last_touch_from (S i) k log' with
      | Some j => Some j
      | None => if decide (t = Some k) then Some i else None
      end
  end.

Definition last_touch (k : string) (log : list (option string)) : option nat :=
  last_touch_from 0 k log.

(** The last touch of the key an element carries. *)
Definition stamp (log : list (option string)) (its : gmap Elem CacheItem)
    (e : Elem) : option nat :=
  it ← its !! e; last_touch (key it) log.

(** [e1] was touched after [e2]. *)
Definition touched_after (log : list (option string))
    (its : gmap Elem CacheItem) (e1 e2 : Elem) : Prop :=
  ∃ t1 t2, stamp log its e1 = Some t1 ∧ stamp log its e2 = Some t2 ∧
           (t2 < t1)%nat.

(** The list is in the order of the touches, the latest in front. *)
Definition recency_sorted (log : list (option string)) (lru : LRUCache) : Prop :=
  StronglySorted (touched_after log (items lru)) (list_ lru) ∧
  ∀ e, e ∈ list_ lru →
    ∃ t, stamp log (items lru) e = Some t ∧ (t < length log)%nat.

(** The results of the [Get]s of a sequence of operations, in order. *)
Fixpoint observe (ops : list Op) (lru : LRUCache)
  : option (list (list byte * bool)) :=
  match ops with
  | [] => Some []
  | OpGet k :: ops' =>
      '(r, lru') ← Get k lru; rs ← observe ops' lru'; Some (r :: rs)
  | OpPut k v :: ops' =>
      lru' ← Put k v lru; observe ops' lru'
  end.

End LRU.

(** ** The outside world of the handlers *)

Module Net.

(** What the handlers use of an [*http.Response]: the status code, the
    headers (a key with its values, in the order the handler ranges over
    them) and the body, with [BodyErr] telling whether reading the body to
    its end fails. *)
Record Response := mkResponse {
  StatusCode : Z;
  Header : list (string * list string);
  Body : list byte;
  BodyErr : bool
}.

(** The result of [http.Get] and of [client.Get]: an error or a response. *)
Inductive FetchResult :=
  | FetchError
  | FetchOK (resp : Response).

(** What a handler does to the outside: the outbound GET it issues and its
    calls on the [http.ResponseWriter]. The lines printed on standard
    output are not part of it. [EvPanic] ends the trace of a handler that
    panics: what it did before stays done, nothing follows. *)
Inductive Event :=
  | EvGet (url : string)                   (* http.Get(url), client.Get(url) *)
  | EvError (msg : string) (code : Z)      (* http.Error(w, msg, code) *)
  | EvHeaderAdd (k v : string)             (* w.Header().Add(k, v) *)
  | EvWriteHeader (code : Z)               (* w.WriteHeader(code), returning *)
  | EvWrite (body : list byte)             (* w.Write(body), io.Copy(w, body) *)
  | EvPanic.                               (* the handler panics *)

Definition StatusBadRequest : Z := 400.
Definition StatusInternalServerError : Z := 500.
Definition StatusBadGateway : Z := 502.

(** [checkWriteHeaderCode] of [net/http]: [w.WriteHeader(code)] panics
    when [code < 100 || code > 999]; [validStatus] tells that it does
    not. A status line holds three digits, so [http.Get] can deliver a
    code from 0 to 99 (and hands no informational code but 101 to its
    caller). *)
Definition validStatus (code : Z) : bool :=
  negb ((code <? 100) || (code >? 999)).

(** [strings.HasPrefix(s, prefix)] *)
Definition HasPrefix (s prefix : string) : bool := String.prefix prefix s.

(** [strings.TrimPrefix(s, prefix)]: [s] without the leading [prefix], or
    [s] itself when it does not start with it. *)
Definition TrimPrefix (s prefix : string) : string :=
  if HasPrefix s prefix
  then String.substring (String.length prefix)
                        (String.length s - String.length prefix) s
  else s.

(** [ishex] and [unhex] of [net/url]. *)
Definition ishex (c : ascii) : bool :=
  let n := N_of_ascii c in
  ((48 <=? n) && (n <=? 57) || (97 <=? n) && (n <=? 102)
   || (65 <=? n) && (n <=? 70))%N.

Definition unhex (c : ascii) : N :=
  let n := N_of_ascii c in
  (if (48 <=? n) && (n <=? 57) then n - 48
   else if (97 <=? n) && (n <=? 102) then n - 97 + 10
   else if (65 <=? n) && (n <=? 70) then n - 65 + 10
   else 0)%N.

(** [url.QueryUnescape] of the Go library: [%XY] with two hexadecimal
    digits becomes the byte [XY], [+] becomes a space, a [%] that is not
    followed by two hexadecimal digits is an error ([None]). *)
Fixpoint QueryUnescape (s : string) : option string :=
  match s with
  | EmptyString => Some EmptyString
  | String "%" (String a (String b r)) =>
      if ishex a && ishex b
      then String (ascii_of_N (N.lor (N.shiftl (unhex a) 4) (unhex b)))
             <$> QueryUnescape r
      else None
  | String "%" _ => None
  | String "+" r => String " " <$> QueryUnescape r
  | String c r => String c <$> QueryUnescape r
  end.

End Net.

(** ** The handler that takes the target from the path *)

Module Embedded.
Import Net.

(** The two loops that copy the response headers. *)
Definition copyHeaders (h : list (string * list string)) : list Event :=
  '(k, values) ← h; EvHeaderAdd k <$> values.

(** [w.WriteHeader(resp.StatusCode)] followed by [io.Copy(w, resp.Body)]:
    a status code that [WriteHeader] refuses makes it panic, and the body
    is never copied. *)
Definition relay (resp : Response) : list Event :=
  if validStatus (StatusCode resp)
  then [EvWriteHeader (StatusCode resp); EvWrite (Body resp)]
  else [EvPanic].

(** [handleRequest]: [path] is [r.URL.Path], [httpGet] answers the outbound
    [http.Get]. *)
Definition handleRequest (httpGet : string → FetchResult) (path : string)
  : list Event :=
  let targetURL := TrimPrefix path "/" in
  match QueryUnescape targetURL with
  | None => [EvError "Invalid URL encoding" StatusBadRequest]
  | Some targetURL =>
      if negb (HasPrefix targetURL "http://")
         && negb (HasPrefix targetURL "https://")
      then [EvError "Invalid target URL" StatusBadRequest]
      else
        EvGet targetURL ::
        match httpGet targetURL with
        | FetchError => [EvError "Failed to reach target server" StatusBadGateway]
        | FetchOK resp => copyHeaders (Header resp) ++ relay resp
        end
  end.

End Embedded.

(** ** The handler that caches under the request's own URL *)

Module SelfURL.
Import Net.

(** [var cache = NewLRUCache(10)] *)
Definition cache : LRU.LRUCache := LRU.NewLRUCache 10.

(** [handleRequest]: [url] is [r.URL.String()], [clientGet] answers the
    outbound [client.Get], the cache is passed in and out. *)
Definition handleRequest (clientGet : string → FetchResult) (url : string)
    (c : LRU.LRUCache) : option (list Event * LRU.LRUCache) :=
  let cacheKey := url in
  '(cachedResp, found, c) ← LRU.Get cacheKey c;
  if found : bool then Some ([EvWrite cachedResp], c)
  else
    match clientGet url with
    | FetchError =>
        Some ([EvGet url; EvError "Failed to fetch from target" StatusBadGateway], c)
    | FetchOK resp =>
        if BodyErr resp
        then Some ([EvGet url;
                    EvError "Failed to read response" StatusInternalServerError], c)
        else
          let body := Body resp in
          c ← LRU.Put cacheKey body c;
          Some ([EvGet url; EvWrite body], c)
    end.

(** The requests of [urls] served one after the other. *)
Fixpoint serve (clientGet : string → FetchResult) (urls : list string)
    (c : LRU.LRUCache) : option (list (list Event) * LRU.LRUCache) :=
  match urls with
  | [] => Some ([], c)
  | url :: urls' =>
      '(tr, c) ← handleRequest clientGet url c;
      '(trs, c) ← serve clientGet urls' c;
      Some (tr :: trs, c)
  end.

End SelfURL.

(** ** Goroutines that share the cache

    Each goroutine runs its calls of [Get] and [Put] one statement at a
    time, and the statements of different goroutines interleave in any
    order. [lru.mu.Lock()] waits while the mutex is held; the deferred
    [lru.mu.Unlock()] is the last step of a call. The steps are those of the
    source, so that the states in the middle of a call, where the map and
    the list disagree, are states of this machine. Memory is sequentially
    consistent. *)

Module Conc.
Import LRU.

(** Where a goroutine stands: between two calls ([Idle]), or inside [Get]
    or [Put] before the statement named. *)
Inductive PC :=
  | Idle
  | GetLookup (k : string)
  | GetMove (k : string) (elem : Elem)
  | GetValue (k : string) (elem : Elem)
  | GetUnlock (r : list byte * bool)
  | PutLookup (k : string) (v : list byte)
  | PutMove (k : string) (v : list byte) (elem : Elem)
  | PutSet (k : string) (v : list byte) (elem : Elem)
  | PutLen (k : string) (v : list byte)
  | PutBack (k : string) (v : list byte)
  | PutDelete (k : string) (v : list byte) (lastElem : Elem)
  | PutRemove (k : string) (v : list byte) (lastElem : Elem)
  | PutPush (k : string) (v : list byte)
  | PutIndex (k : string) (v : list byte) (elem : Elem)
  | PutUnlock.

(** A goroutine: the calls it still has to make, where it stands, and what
    its calls of [Get] have returned. *)
Record Thread := mkThread {
  todo : list Op;
  pc : PC;
  rets : list (list byte * bool)
}.

(** What the goroutines share: the mutex and the cache. *)
Record Shared := mkShared {
  mu : bool;
  mem : LRUCache
}.

Inductive Outcome :=
  | Finished
  | Blocked
  | Panic
  | Next (s : Shared) (t : Thread).

Definition set_list (l : list Elem) (lru : LRUCache) : LRUCache :=
  {| capacity := capacity lru; cache := cache lru; list_ := l;
     items := items lru; next := next lru |}.

Definition set_cache (c : gmap string Elem) (lru : LRUCache) : LRUCache :=
  {| capacity := capacity lru; cache := c; list_ := list_ lru;
     items := items lru; next := next lru |}.

Definition set_items (its : gmap Elem CacheItem) (lru : LRUCache) : LRUCache :=
  {| capacity := capacity lru; cache := cache lru; list_ := list_ lru;
     items := its; next := next lru |}.

(** [lru.list.PushFront(newItem)] with its allocation. *)
Definition push_new (k : string) (v : list byte) (lru : LRUCache) : LRUCache :=
  {| capacity := capacity lru; cache := cache lru;
     list_ := PushFront (next lru) (list_ lru);
     items := <[next lru := mkItem k v]> (items lru);
     next := S (next lru) |}.

Definition goto (p : PC) (s : Shared) (t : Thread) : Outcome :=
  Next s (mkThread (todo t) p (rets t)).

Definition store (lru : LRUCache) (p : PC) (s : Shared) (t : Thread) : Outcome :=
  Next (mkShared (mu s) lru) (mkThread (todo t) p (rets t)).

Definition enter (op : Op) : PC :=
  match op with
  | OpGet k => GetLookup k
  | OpPut k v => PutLookup k v
  end.

(** One statement of goroutine [t]. *)
Definition tstep (s : Shared) (t : Thread) : Outcome :=
  let lru := mem s in
  match pc t with
  | Idle =>
      match todo t with
      | [] => Finished
      | op :: rest =>
          (* lru.mu.Lock() *)
          if mu s then Blocked
          else Next (mkShared true lru) (mkThread rest (enter op) (rets t))
      end
  | GetLookup k =>
      match cache lru !! k with
      | Some elem => goto (GetMove k elem) s t
      | None => goto (GetUnlock ([], false)) s t
      end
  | GetMove k elem =>
      store (set_list (MoveToFront elem (list_ lru)) lru) (GetValue k elem) s t
  | GetValue k elem =>
      match items lru !! elem with
      | Some it => goto (GetUnlock (value it, true)) s t
      | None => Panic
      end
  | GetUnlock r =>
      if mu s
      then Next (mkShared false lru) (mkThread (todo t) Idle (rets t ++ [r]))
      else Panic
  | PutLookup k v =>
      match cache lru !! k with
      | Some elem => goto (PutMove k v elem) s t
      | None => goto (PutLen k v) s t
      end
  | PutMove k v elem =>
      store (set_list (MoveToFront elem (list_ lru)) lru) (PutSet k v elem) s t
  | PutSet k v elem =>
      match items lru !! elem with
      | Some it =>
          store (set_items (<[elem := mkItem (key it) v]> (items lru)) lru)
                PutUnlock s t
      | None => Panic
      end
  | PutLen k v =>
      if bool_decide (len (cache lru) >= capacity lru)
      then goto (PutBack k v) s t else goto (PutPush k v) s t
  | PutBack k v =>
      match Back (list_ lru) with
      | Some lastElem => goto (PutDelete k v lastElem) s t
      | None => goto (PutPush k v) s t
      end
  | PutDelete k v lastElem =>
      match items lru !! lastElem with
      | Some it =>
          store (set_cache (delete (key it) (cache lru)) lru)
                (PutRemove k v lastElem) s t
      | None => Panic
      end
  | PutRemove k v lastElem =>
      store (set_list (Remove lastElem (list_ lru)) lru) (PutPush k v) s t
  | PutPush k v =>
      store (push_new k v lru) (PutIndex k v (next lru)) s t
  | PutIndex k v elem =>
      store (set_cache (<[k := elem]> (cache lru)) lru) PutUnlock s t
  | PutUnlock =>
      if mu s
      then Next (mkShared false lru) (mkThread (todo t) Idle (rets t))
      else Panic
  end.

Record Machine := mkMachine {
  shared : Shared;
  threads : list Thread
}.

(** One step of the machine: any goroutine that can move makes one step. *)
Inductive mstep : Machine → Machine → Prop :=
  | mstep_thread m i t s' t' :
      threads m !! i = Some t →
      tstep (shared m) t = Next s' t' →
      mstep m (mkMachine s' (<[i := t']> (threads m))).

(** The machine under a schedule: the goroutines named make one step each,
    in turn; one that cannot move is passed over. *)
Definition sched_step (i : nat) (m : Machine) : Machine :=
  match threads m !! i with
  | Some t =>
      match tstep (shared m) t with
      | Next s' t' => mkMachine s' (<[i := t']> (threads m))
      | _ => m
      end
  | None => m
  end.

Fixpoint run_sched (sched : list nat) (m : Machine) : Machine :=
  match sched with
  | [] => m
  | i :: sched' => run_sched sched' (sched_step i m)
  end.

Definition panics (m : Machine) : Prop :=
  ∃ i t, threads m !! i = Some t ∧ tstep (shared m) t = Panic.

(** A new cache, the mutex free, and one goroutine for each list of calls. *)
Definition init (cap : Z) (progs : list (list Op)) : Machine :=
  mkMachine (mkShared false (NewLRUCache cap))
            ((λ ops, mkThread ops Idle []) <$> progs).

(** How far a call has come: [lru0] is the cache when the goroutine took
    the mutex, [lru] the cache now. *)
Definition at_pc (p : PC) (lru0 lru : LRUCache) : Prop :=
  match p with
  | Idle => False
  | GetLookup k => lru = lru0
  | GetMove k e => lru = lru0 ∧ cache lru0 !! k = Some e
  | GetValue k e =>
      cache lru0 !! k = Some e ∧
      lru = set_list (MoveToFront e (list_ lru0)) lru0
  | GetUnlock r => ∃ k, Get k lru0 = Some (r, lru)
  | PutLookup k v => lru = lru0
  | PutMove k v e => lru = lru0 ∧ cache lru0 !! k = Some e
  | PutSet k v e =>
      cache lru0 !! k = Some e ∧
      lru = set_list (MoveToFront e (list_ lru0)) lru0
  | PutLen k v => lru = lru0 ∧ cache lru0 !! k = None
  | PutBack k v =>
      lru = lru0 ∧ cache lru0 !! k = None ∧
      len (cache lru0) >= capacity lru0
  | PutDelete k v e =>
      lru = lru0 ∧ cache lru0 !! k = None ∧
      len (cache lru0) >= capacity lru0 ∧ Back (list_ lru0) = Some e
  | PutRemove k v e =>
      cache lru0 !! k = None ∧ len (cache lru0) >= capacity lru0 ∧
      Back (list_ lru0) = Some e ∧
      ∃ it, items lru0 !! e = Some it ∧
            lru = set_cache (delete (key it) (cache lru0)) lru0
  | PutPush k v =>
      cache lru0 !! k = None ∧
      (if bool_decide (len (cache lru0) >= capacity lru0)
       then evict lru0 else Some lru0) = Some lru
  | PutIndex k v e =>
      cache lru0 !! k = None ∧
      ∃ lru1, (if bool_decide (len (cache lru0) >= capacity lru0)
               then evict lru0 else Some lru0) = Some lru1 ∧
              e = next lru1 ∧ lru = push_new k v lru1
  | PutUnlock => ∃ k v, Put k v lru0 = Some lru
  end.

(** The calls completed so far, taken one after the other in the order of
    their unlocks, lead from the new cache to [base]; with the mutex free
    the cache is [base] and every goroutine is between two calls; with the
    mutex held one goroutine is inside a call that started from [base], and
    the others are between two calls. *)
Definition serialized (cap : Z) (m : Machine) : Prop :=
  ∃ hist base,
    exec hist (NewLRUCache cap) = Some base ∧
    if mu (shared m) then
      ∃ i t, threads m !! i = Some t ∧
             at_pc (pc t) base (mem (shared m)) ∧
             ∀ j t', j ≠ i → threads m !! j = Some t' → pc t' = Idle
    else
      mem (shared m) = base ∧
      ∀ j t', threads m !! j = Some t' → pc t' = Idle.

End Conc.

(** ** The cache as a list of entries

    What a caller can tell about a cache: the keys with their values, the
    most recently used first. [AGet] and [APut] are [Get] and [Put] on such
    a list. *)

Module Entries.
Import LRU.

(** The entries of the list, front to back. *)
Definition entries (lru : LRUCache) : list (string * list byte) :=
  omap (λ e, (λ it, (key it, value it)) <$> items lru !! e) (list_ lru).

Fixpoint assoc (k : string) (l : list (string * list byte))
  : option (list byte) :=
  match l with
  | [] => None
  | (k', v) :: l' => if decide (k' = k) then Some v else assoc k l'
  end.

Definition without (k : string) (l : list (string * list byte))
  : list (string * list byte) :=
  filter (λ p, p.1 ≠ k) l.

Definition AGet (k : string) (l : list (string * list byte))
  : (list byte * bool) * list (string * list byte) :=
  match assoc k l with
  | Some v => ((v, true), (k, v) :: without k l)
  | None => (([], false), l)
  end.

Definition APut (capacity : Z) (k : string) (v : list byte)
    (l : list (string * list byte)) : list (string * list byte) :=
  match assoc k l with
  | Some _ => (k, v) :: without k l
  | None =>
      (k, v) :: (if bool_decide (Z.of_nat (length l) >= capacity)
                 then take (length l - 1) l else l)
  end.

(** The results of the [Get]s of a sequence of operations on a list of
    entries. *)
Fixpoint Aobserve (capacity : Z) (ops : list Op)
    (l : list (string * list byte)) : list (list byte * bool) :=
  match ops with
  | [] => []
  | OpGet k :: ops' =>
      (AGet k l).1 :: Aobserve capacity ops' (AGet k l).2
  | OpPut k v :: ops' => Aobserve capacity ops' (APut capacity k v l)
  end.

(** The value of the last [Put] of [k] among [ops]. *)
Fixpoint last_put (k : string) (ops : list Op) : option (list byte) :=
  match ops with
  | [] => None
  | op :: ops' =>
      match last_put k ops' with
      | Some v => Some v
      | None =>
          match op with
          | OpPut k' v => if decide (k' = k) then Some v else None
          | OpGet _ => None
          end
      end
  end.

(** The key of a call, and the keys of a sequence of calls. *)
Definition call_key (op : Op) : string :=
  match op with OpGet k => k | OpPut k _ => k end.

Definition keys_touched (ops : list Op) : gset string :=
  list_to_set (call_key <$> ops).

(** A [Put] for each pair, in order. *)
Definition puts (kvs : list (string * list byte)) : list Op :=
  (λ p, OpPut p.1 p.2) <$> kvs.

End Entries.

(** ** What a trace holds *)

Module Trace.
Import Net.

(** An outbound fetch. *)
Definition is_fetch (ev : Event) : bool :=
  match ev with EvGet _ => true | _ => false end.

(** A call that writes the body of the response: [w.Write], [io.Copy], or
    [http.Error], which writes its message. *)
Definition is_response (ev : Event) : bool :=
  match ev with EvError _ _ | EvWrite _ => true | _ => false end.

(** A call that fixes the status code: [http.Error] or [w.WriteHeader]. *)
Definition is_status (ev : Event) : bool :=
  match ev with EvError _ _ | EvWriteHeader _ => true | _ => false end.

Definition is_error (ev : Event) : bool :=
  match ev with EvError _ _ => true | _ => false end.

Definition count (f : Event → bool) (tr : list Event) : nat :=
  length (List.filter f tr).

(** Whether a string holds a [%]. *)
Fixpoint has_percent (s : string) : bool :=
  match s with
  | EmptyString => false
  | String c s' => if Ascii.eqb c "%" then true else has_percent s'
  end.

(** The string with every [+] turned into a space. *)
Fixpoint plus_to_space (s : string) : string :=
  match s with
  | EmptyString => EmptyString
  | String c s' =>
      String (if Ascii.eqb c "+" then " "%char else c) (plus_to_space s')
  end.


End Trace.

(** ** How much a goroutine has left to do *)

Module Work.
Import LRU Conc.

(** The statements a call has at most left before it has unlocked. *)
Definition pc_left (p : PC) : nat :=
  match p with
  | Idle => 0
  | GetLookup _ => 4
  | GetMove _ _ => 3
  | GetValue _ _ => 2
  | GetUnlock _ => 1
  | PutLookup _ _ => 8
  | PutMove _ _ _ => 3
  | PutSet _ _ _ => 2
  | PutLen _ _ => 7
  | PutBack _ _ => 6
  | PutDelete _ _ _ => 5
  | PutRemove _ _ _ => 4
  | PutPush _ _ => 3
  | PutIndex _ _ _ => 2
  | PutUnlock => 1
  end.

(** A call takes at most nine steps, the lock included. *)
Definition thread_left (t : Thread) : nat :=
  pc_left (pc t) + 9 * length (todo t).

Definition work (m : Machine) : nat :=
  sum_list (thread_left <$> threads m).

(** Every goroutine has made all its calls and the mutex is free. *)
Definition finished (m : Machine) : Prop :=
  mu (shared m) = false ∧
  ∀ i t, threads m !! i = Some t → pc t = Idle ∧ todo t = [].

End Work.

(** ** The calls of the goroutines in the order of their unlocks *)

Module Lin.
Import LRU Conc.

(** The calls of [hist], each with the goroutine that makes it, run one
    after the other: the results of the [Get]s, each with its goroutine,
    and the cache at the end. *)
Fixpoint replay (hist : list (nat * Op)) (lru : LRUCache)
  : option (list (nat * (list byte * bool)) * LRUCache) :=
  match hist with
  | [] => Some ([], lru)
  | (i, OpGet k) :: hist' =>
      '(r, lru') ← Get k lru;
      '(rs, lru'') ← replay hist' lru';
      Some ((i, r) :: rs, lru'')
  | (i, OpPut k v) :: hist' =>
      lru' ← Put k v lru; replay hist' lru'
  end.

(** The calls of goroutine [i] in [hist], and its results in [rs]. *)
Definition calls_of (i : nat) (hist : list (nat * Op)) : list Op :=
  snd <$> filter (λ c, c.1 = i) hist.

Definition rets_of (i : nat) (rs : list (nat * (list byte * bool)))
  : list (list byte * bool) :=
  snd <$> filter (λ c, c.1 = i) rs.

(** The call a goroutine at [p] is making. At the unlock the call has had
    its whole effect. *)
Definition pc_call (op : Op) (p : PC) (lru0 lru : LRUCache) : Prop :=
  match p with
  | Idle => False
  | GetLookup k | GetMove k _ | GetValue k _ => op = OpGet k
  | GetUnlock r => ∃ k, op = OpGet k ∧ Get k lru0 = Some (r, lru)
  | PutLookup k v | PutMove k v _ | PutSet k v _ | PutLen k v | PutBack k v
  | PutDelete k v _ | PutRemove k v _ | PutPush k v | PutIndex k v _ =>
      op = OpPut k v
  | PutUnlock => ∃ k v, op = OpPut k v ∧ Put k v lru0 = Some lru
  end.

Definition at_call (op : Op) (p : PC) (lru0 lru : LRUCache) : Prop :=
  at_pc p lru0 lru ∧ pc_call op p lru0 lru.

(** What a statement is to the call it belongs to: [lru.mu.Lock()], the
    first statement of [Get] and of [Put], starts the call; the deferred
    [lru.mu.Unlock()] is its last statement, after which the call returns;
    the others lie in between. *)
Inductive Mark :=
  | Starts (op : Op)
  | Inside
  | Returns.

(** The mark of the statement goroutine [t] is about to execute. *)
Definition mark (t : Thread) : Mark :=
  match pc t with
  | Idle => match todo t with op :: _ => Starts op | [] => Inside end
  | GetUnlock _ | PutUnlock => Returns
  | _ => Inside
  end.

(** A run of the machine with its trace: for every step, in the order of
    the steps, the goroutine that made it and the mark of its statement. *)
Inductive run (m0 : Machine) : list (nat * Mark) → Machine → Prop :=
  | run_nil : run m0 [] m0
  | run_step tr m i t s' t' :
      run m0 tr m →
      threads m !! i = Some t →
      tstep (shared m) t = Next s' t' →
      run m0 (tr ++ [(i, mark t)]) (mkMachine s' (<[i := t']> (threads m))).

(** The trace of the machine under a schedule. *)
Definition sched_mark (i : nat) (m : Machine) : list (nat * Mark) :=
  match threads m !! i with
  | Some t =>
      match tstep (shared m) t with
      | Next _ _ => [(i, mark t)]
      | _ => []
      end
  | None => []
  end.

Fixpoint sched_trace (sched : list nat) (m : Machine) : list (nat * Mark) :=
  match sched with
  | [] => []
  | i :: sched' => sched_mark i m ++ sched_trace sched' (sched_step i m)
  end.

(** The calls started in a trace, each with its goroutine, in the order in
    which they took the mutex; and the number of calls that returned. *)
Definition start_of (e : nat * Mark) : option (nat * Op) :=
  match e.2 with Starts op => Some (e.1, op) | _ => None end.

Definition started (tr : list (nat * Mark)) : list (nat * Op) :=
  omap start_of tr.

Definition is_return (e : nat * Mark) : bool :=
  match e.2 with Returns => true | _ => false end.

Definition returned (tr : list (nat * Mark)) : nat :=
  length (List.filter is_return tr).

(** The calls that have returned are [hist], the calls started without the
    one that holds the mutex, if any; replayed from the new cache, in the
    order in which they took the mutex, they give the results the
    goroutines hold and the cache [base] the current call, if any, started
    from; each goroutine's program is its completed calls, the call it is
    making, and the calls it has left. The current call started at step
    [p0] of the trace. *)
Definition linearized (cap : Z) (progs : list (list Op))
    (tr : list (nat * Mark)) (m : Machine) : Prop :=
  ∃ hist rs base,
    replay hist (NewLRUCache cap) = Some (rs, base) ∧
    length hist = returned tr ∧
    if mu (shared m) then
      ∃ i0 t0 op p0,
        started tr = hist ++ [(i0, op)] ∧
        tr !! p0 = Some (i0, Starts op) ∧
        length (started (take p0 tr)) = length hist ∧
        threads m !! i0 = Some t0 ∧
        at_call op (pc t0) base (mem (shared m)) ∧
        progs !! i0 = Some (calls_of i0 hist ++ op :: todo t0) ∧
        rets t0 = rets_of i0 rs ∧
        ∀ j t, j ≠ i0 → threads m !! j = Some t →
          pc t = Idle ∧ progs !! j = Some (calls_of j hist ++ todo t) ∧
          rets t = rets_of j rs
    else
      started tr = hist ∧
      mem (shared m) = base ∧
      ∀ j t, threads m !! j = Some t →
        pc t = Idle ∧ progs !! j = Some (calls_of j hist ++ todo t) ∧
        rets t = rets_of j rs.

End Lin.

(** * Properties of the cache *)

Import LRU.

(** *** Lists of handles *)

Lemma elem_of_Remove e x l : x ∈ Remove e l ↔ x ≠ e ∧ x ∈ l.
Proof. unfold Remove. by rewrite list_elem_of_filter. Qed.

Lemma NoDup_Remove e l : NoDup l → NoDup (Remove e l).
Proof. unfold Remove. apply NoDup_filter. Qed.

Lemma Remove_notin e l : e ∉ l → Remove e l = l.
Proof.
  unfold Remove. induction l as [|x l IH]; intros Hn; [done|].
  apply not_elem_of_cons in Hn as [Hne Hn].
  rewrite filter_cons_True by congruence. by rewrite IH.
Qed.

Lemma Remove_snoc e l : e ∉ l → Remove e (l ++ [e]) = l.
Proof.
  intros Hn. unfold Remove. rewrite filter_app.
  fold (Remove e l). rewrite Remove_notin by done.
  rewrite filter_cons_False by (intros ?; congruence).
  by rewrite filter_nil, app_nil_r.
Qed.

Lemma length_Remove e l :
  NoDup l → e ∈ l → S (length (Remove e l)) = length l.
Proof.
  intros Hnd (l1 & l2 & ->)%list_elem_of_split.
  apply NoDup_app in Hnd as (_ & H1 & [H2 _]%NoDup_cons).
  unfold Remove. rewrite filter_app, filter_cons_False by (intros ?; congruence).
  fold (Remove e l1) (Remove e l2).
  rewrite !Remove_notin; [by rewrite !length_app; simpl; lia|done|].
  intros Hin. apply (H1 e Hin). by left.
Qed.

Lemma MoveToFront_perm e l : NoDup l → MoveToFront e l ≡ₚ l.
Proof.
  intros Hnd. unfold MoveToFront.
  destruct (decide (e ∈ l)) as [Hin|]; [|done].
  destruct (decide (head l = Some e)); [done|].
  apply NoDup_Permutation; [|done|].
  - apply NoDup_cons. split; [|by apply NoDup_Remove].
    rewrite elem_of_Remove. by intros [? _].
  - intros x. rewrite elem_of_cons, elem_of_Remove.
    destruct (decide (x = e)) as [->|]; tauto.
Qed.

(** What [MoveToFront] yields on a list without repetition: the element in
    front of the others, these in their former order. *)
Lemma MoveToFront_eq e l :
  NoDup l → e ∈ l → MoveToFront e l = e :: Remove e l.
Proof.
  intros Hnd Hin. unfold MoveToFront. rewrite decide_True by done.
  destruct (decide (head l = Some e)) as [Hh|]; [|done].
  apply head_Some in Hh as [l' ->].
  apply NoDup_cons in Hnd as [Hn _].
  unfold Remove. rewrite filter_cons_False by (intros ?; congruence).
  fold (Remove e l'). by rewrite Remove_notin.
Qed.

(** *** The operations keep a cache well formed *)

Lemma wf_New cap : wf (NewLRUCache cap).
Proof.
  split; simpl.
  - constructor.
  - intros k e. by rewrite lookup_empty.
  - intros e. by rewrite elem_of_nil.
  - by rewrite map_size_empty.
  - intros e. by rewrite elem_of_nil.
Qed.

(** Reordering the list and rewriting items without touching their keys. *)
Lemma wf_reorder lru l' items' :
  wf lru →
  l' ≡ₚ list_ lru →
  (∀ e, e ∈ list_ lru → key <$> items' !! e = key <$> items lru !! e) →
  wf {| capacity := capacity lru; cache := cache lru; list_ := l';
        items := items'; next := next lru |}.
Proof.
  intros [Hnd Hidx Hent Hsz Hfr] Hp Hk. split; simpl.
  - by rewrite Hp.
  - intros k e Hke. destruct (Hidx k e Hke) as [Hin [v Hv]].
    split; [by rewrite Hp|].
    specialize (Hk e Hin). rewrite Hv in Hk. simpl in Hk.
    destruct (items' !! e) as [[k' v']|]; simplify_eq/=. eauto.
  - intros e Hin. rewrite Hp in Hin.
    destruct (Hent e Hin) as (it & Hit & Hc).
    specialize (Hk e Hin). rewrite Hit in Hk. simpl in Hk.
    destruct (items' !! e) as [it'|]; simplify_eq/=.
    exists it'. split; [done|]. congruence.
  - by rewrite Hp.
  - intros e. rewrite Hp. apply Hfr.
Qed.

Lemma wf_insert_new k v lru :
  wf lru → cache lru !! k = None → wf (insert_new k v lru).
Proof.
  intros [Hnd Hidx Hent Hsz Hfr] Hk. unfold insert_new, PushFront.
  assert (Hnew : next lru ∉ list_ lru).
  { intros Hin. apply Hfr in Hin. lia. }
  split; simpl.
  - by apply NoDup_cons.
  - intros k' e. rewrite lookup_insert. case_decide as Hd.
    + intros [= <-]. subst k'. split; [by left|].
      exists v. by rewrite lookup_insert_eq.
    + intros Hke. destruct (Hidx k' e Hke) as [Hin [v' Hv']].
      split; [by right|]. exists v'.
      rewrite lookup_insert_ne; [done|]. by intros <-.
  - intros e [->|Hin]%elem_of_cons.
    + exists (mkItem k v). by rewrite !lookup_insert_eq.
    + destruct (Hent e Hin) as (it & Hit & Hc).
      exists it. rewrite lookup_insert_ne by (by intros <-).
      split; [done|]. rewrite lookup_insert_ne; [done|].
      intros Heq. congruence.
  - rewrite map_size_insert_None by done. by rewrite Hsz.
  - intros e [->|Hin]%elem_of_cons; [lia|]. apply Hfr in Hin. lia.
Qed.

(** The eviction block on a well-formed cache with a last element: the
    element leaves the list and its key leaves the map. *)
Lemma evict_wf lru l e :
  wf lru → list_ lru = l ++ [e] →
  ∃ it, items lru !! e = Some it ∧ cache lru !! key it = Some e ∧
    evict lru = Some {| capacity := capacity lru;
                        cache := delete (key it) (cache lru);
                        list_ := l; items := items lru; next := next lru |} ∧
    wf {| capacity := capacity lru; cache := delete (key it) (cache lru);
          list_ := l; items := items lru; next := next lru |}.
Proof.
  intros [Hnd Hidx Hent Hsz Hfr] Hl.
  rewrite Hl in Hnd. apply NoDup_app in Hnd as (Hnd & Hdis & _).
  assert (Hne : e ∉ l).
  { intros Hin. apply (Hdis e Hin). by left. }
  assert (Hine : e ∈ list_ lru).
  { rewrite Hl, elem_of_app. right. by left. }
  destruct (Hent e Hine) as (it & Hit & Hc).
  exists it. split; [done|]. split; [done|]. split.
  { unfold evict, Back. rewrite Hl, last_snoc. simpl. rewrite Hit. simpl.
    by rewrite Remove_snoc. }
  split; simpl.
  - done.
  - intros k e'. rewrite lookup_delete. case_decide as Hd; [done|].
    intros Hke. destruct (Hidx k e' Hke) as [Hin Hv].
    split; [|done]. rewrite Hl, elem_of_app, list_elem_of_singleton in Hin.
    destruct Hin as [Hin| ->]; [done|].
    destruct Hv as [v Hv]. rewrite Hit in Hv. by simplify_eq/=.
  - intros e' Hin.
    assert (Hin' : e' ∈ list_ lru) by (rewrite Hl, elem_of_app; by left).
    destruct (Hent e' Hin') as (it' & Hit' & Hc').
    exists it'. split; [done|]. rewrite lookup_delete_ne; [done|].
    intros Heq. rewrite Heq in Hc. rewrite Hc' in Hc.
    injection Hc as ->. done.
  - rewrite map_size_delete_Some by eauto.
    rewrite Hsz, Hl, length_app. simpl. lia.
  - intros e' Hin. apply Hfr. rewrite Hl, elem_of_app. by left.
Qed.

(** *** What [Get] and [Put] do, case by case *)

Lemma Get_miss k lru :
  cache lru !! k = None → Get k lru = Some (([], false), lru).
Proof. intros Hk. unfold Get. by rewrite Hk. Qed.

Lemma Get_hit k e lru :
  wf lru → cache lru !! k = Some e →
  ∃ v, items lru !! e = Some (mkItem k v) ∧
       Get k lru = Some ((v, true),
                         {| capacity := capacity lru; cache := cache lru;
                            list_ := e :: Remove e (list_ lru);
                            items := items lru; next := next lru |}).
Proof.
  intros Hwf Hk. destruct (wf_index _ Hwf k e Hk) as [Hin [v Hv]].
  exists v. split; [done|]. unfold Get. rewrite Hk. simpl. rewrite Hv. simpl.
  by rewrite MoveToFront_eq by (done || apply Hwf).
Qed.

Lemma Put_hit k v e lru :
  wf lru → cache lru !! k = Some e →
  Put k v lru = Some {| capacity := capacity lru; cache := cache lru;
                        list_ := e :: Remove e (list_ lru);
                        items := <[e := mkItem k v]> (items lru);
                        next := next lru |}.
Proof.
  intros Hwf Hk. destruct (wf_index _ Hwf k e Hk) as [Hin [v' Hv']].
  unfold Put. rewrite Hk, Hv'. simpl.
  by rewrite MoveToFront_eq by (done || apply Hwf).
Qed.

Lemma Put_miss_room k v lru :
  cache lru !! k = None → len (cache lru) < capacity lru →
  Put k v lru = Some (insert_new k v lru).
Proof.
  intros Hk Hlt. unfold Put. rewrite Hk.
  rewrite bool_decide_eq_false_2 by lia. done.
Qed.

Lemma Put_miss_full k v lru l e :
  wf lru → cache lru !! k = None → len (cache lru) >= capacity lru →
  list_ lru = l ++ [e] →
  ∃ it, items lru !! e = Some it ∧ cache lru !! key it = Some e ∧
    Put k v lru =
      Some (insert_new k v
              {| capacity := capacity lru; cache := delete (key it) (cache lru);
                 list_ := l; items := items lru; next := next lru |}).
Proof.
  intros Hwf Hk Hge Hl.
  destruct (evict_wf lru l e Hwf Hl) as (it & Hit & Hc & Hev & _).
  exists it. split; [done|]. split; [done|].
  unfold Put. rewrite Hk. rewrite bool_decide_eq_true_2 by done.
  by rewrite Hev.
Qed.

(** With nothing in the list the eviction block does nothing: [Back]
    returns nil. *)
Lemma Put_miss_empty k v lru :
  cache lru !! k = None → list_ lru = [] →
  Put k v lru = Some (insert_new k v lru).
Proof.
  intros Hk Hl. unfold Put. rewrite Hk.
  case_bool_decide; [|done]. unfold evict. by rewrite Hl.
Qed.

Lemma wf_touch e lru :
  wf lru → e ∈ list_ lru →
  wf {| capacity := capacity lru; cache := cache lru;
        list_ := e :: Remove e (list_ lru);
        items := items lru; next := next lru |}.
Proof.
  intros Hwf Hin. apply wf_reorder; [done| |done].
  rewrite <-MoveToFront_eq by (done || apply Hwf).
  apply MoveToFront_perm, Hwf.
Qed.

Lemma Get_wf k lru :
  wf lru →
  ∃ r lru', Get k lru = Some (r, lru') ∧ wf lru' ∧
            cache lru' = cache lru ∧ capacity lru' = capacity lru.
Proof.
  intros Hwf. destruct (cache lru !! k) as [e|] eqn:Hk.
  - destruct (Get_hit k e lru Hwf Hk) as (v & _ & ->).
    eexists _, _. split; [done|]. split; [|done].
    apply wf_touch; [done|]. by apply (wf_index _ Hwf k).
  - rewrite Get_miss by done. by eexists _, _.
Qed.

Lemma Put_wf k v lru :
  wf lru →
  ∃ lru', Put k v lru = Some lru' ∧ wf lru' ∧ capacity lru' = capacity lru ∧
          (0 < capacity lru → len (cache lru) <= capacity lru →
           len (cache lru') <= capacity lru).
Proof.
  intros Hwf. destruct (cache lru !! k) as [e|] eqn:Hk.
  - rewrite (Put_hit k v e) by done. eexists. split; [done|].
    destruct (wf_index _ Hwf k e Hk) as [Hin [v' Hv']].
    split; [|by split].
    rewrite <-MoveToFront_eq by (done || apply Hwf).
    apply wf_reorder; [done|by apply MoveToFront_perm, Hwf|].
    intros e' _. rewrite lookup_insert. case_decide; [subst e'|done].
    by rewrite Hv'.
  - destruct (decide (len (cache lru) < capacity lru)) as [Hlt|Hge].
    { rewrite Put_miss_room by done. eexists. split; [done|].
      split; [by apply wf_insert_new|]. split; [done|]. intros _ _.
      unfold len in *. simpl. rewrite map_size_insert_None by done. lia. }
    destruct (list_ lru) as [|x l0] eqn:Hl using rev_ind.
    { rewrite Put_miss_empty by done. eexists. split; [done|].
      split; [by apply wf_insert_new|]. split; [done|]. intros Hpos _.
      unfold len in *. simpl. rewrite map_size_insert_None by done.
      rewrite (wf_size _ Hwf), Hl in *. simpl in *. lia. }
    clear IHl0.
    destruct (Put_miss_full k v lru l0 x Hwf Hk ltac:(lia) Hl)
      as (it & Hit & Hc & ->).
    destruct (evict_wf lru l0 x Hwf Hl) as (it' & Hit' & _ & _ & Hwf').
    assert (it' = it) as -> by congruence.
    eexists. split; [done|]. split.
    { apply wf_insert_new; [done|]. simpl. rewrite lookup_delete_ne; [done|].
      intros Heq. congruence. }
    split; [done|]. intros _ Hle. unfold len in *. simpl.
    rewrite map_size_insert_None.
    2:{ rewrite lookup_delete_ne; [done|]. intros Heq. congruence. }
    rewrite map_size_delete_Some by eauto.
    assert (size (cache lru) ≠ 0%nat); [|lia].
    rewrite (wf_size _ Hwf), Hl, length_app. simpl. lia.
Qed.

Lemma step_inv op lru :
  0 < capacity lru → inv lru →
  ∃ lru', step op lru = Some lru' ∧ inv lru' ∧ capacity lru' = capacity lru.
Proof.
  intros Hpos [Hwf Hle]. destruct op as [k|k v]; simpl.
  - destruct (Get_wf k lru Hwf) as (r & lru' & -> & Hwf' & Hc & Hcap).
    exists lru'. split; [done|]. split; [|done].
    split; [done|]. by rewrite Hc, Hcap.
  - destruct (Put_wf k v lru Hwf) as (lru' & -> & Hwf' & Hcap & Hle').
    exists lru'. split; [done|]. split; [|done].
    split; [done|]. rewrite Hcap. auto.
Qed.

Lemma exec_app ops1 ops2 lru :
  exec (ops1 ++ ops2) lru = exec ops1 lru ≫= exec ops2.
Proof.
  revert lru. induction ops1 as [|op ops1 IH]; intros lru; simpl; [done|].
  destruct (step op lru); simpl; [apply IH|done].
Qed.

Lemma exec_inv ops lru :
  0 < capacity lru → inv lru →
  ∃ lru', exec ops lru = Some lru' ∧ inv lru' ∧ capacity lru' = capacity lru.
Proof.
  revert lru. induction ops as [|op ops IH]; intros lru Hpos Hinv; simpl.
  - by exists lru.
  - destruct (step_inv op lru Hpos Hinv) as (lru1 & -> & Hinv1 & Hcap1). simpl.
    destruct (IH lru1) as (lru' & He & Hinv' & Hcap'); [lia|done|].
    exists lru'. split; [done|]. split; [done|]. lia.
Qed.

Lemma inv_New cap : 0 < cap → inv (NewLRUCache cap).
Proof.
  intros Hpos. split; [apply wf_New|].
  unfold len. simpl. rewrite map_size_empty. simpl. lia.
Qed.

(** After [Put k v] the key is registered, on the element in front of the
    list, with the value [v]. *)
Lemma Put_lookup k v lru lru' :
  wf lru → Put k v lru = Some lru' →
  ∃ e, cache lru' !! k = Some e ∧ items lru' !! e = Some (mkItem k v) ∧
       head (list_ lru') = Some e.
Proof.
  intros Hwf HP. destruct (cache lru !! k) as [e|] eqn:Hk.
  - rewrite (Put_hit k v e) in HP by done. injection HP as <-. simpl.
    exists e. by rewrite lookup_insert_eq.
  - unfold Put in HP. rewrite Hk in HP.
    destruct (if bool_decide (len (cache lru) >= capacity lru)
              then evict lru else Some lru) as [lru1|]; [|done].
    simpl in HP. injection HP as <-. simpl.
    exists (next lru1). by rewrite !lookup_insert_eq.
Qed.

Lemma peek_Some k v lru :
  wf lru →
  peek k lru = Some v ↔ ∃ e, cache lru !! k = Some e ∧
                             items lru !! e = Some (mkItem k v).
Proof.
  intros Hwf. unfold peek. split.
  - destruct (cache lru !! k) as [e|] eqn:Hk; [|done]. simpl.
    destruct (wf_index _ Hwf k e Hk) as [_ [v' Hv']]. rewrite Hv'. simpl.
    intros [= <-]. eauto.
  - intros (e & -> & Hit). simpl. by rewrite Hit.
Qed.

(** [Get] returns what [peek] observes. *)
Lemma Get_peek k lru :
  wf lru →
  ∃ lru', Get k lru = Some (match peek k lru with
                            | Some v => (v, true)
                            | None => ([], false)
                            end, lru') ∧
          ∀ k', peek k' lru' = peek k' lru.
Proof.
  intros Hwf. unfold peek. destruct (cache lru !! k) as [e|] eqn:Hk; simpl.
  - destruct (Get_hit k e lru Hwf Hk) as (v & Hv & ->). rewrite Hv. simpl.
    by eexists.
  - rewrite Get_miss by done. by eexists.
Qed.

(** ** The invariant of the data model *)

(** C1: from a new cache of positive capacity, every sequence of [Get] and
    [Put] runs to its end without a failure, and in the cache it leaves the
    map and the list have the same size, that size is at most the capacity,
    and every key of the map points to an element that occurs exactly once
    in the list and carries that key; a further [Get] or [Put] cannot fail
    either. As [ops] is any sequence, this holds after each operation. *)
Theorem cache_invariant (cap : Z) (ops : list Op) :
  0 < cap →
  ∃ lru, exec ops (NewLRUCache cap) = Some lru ∧
    size (cache lru) = length (list_ lru) ∧
    Z.of_nat (length (list_ lru)) <= cap ∧
    (∀ k e, cache lru !! k = Some e →
       ∃ l1 l2 v, list_ lru = l1 ++ e :: l2 ∧ (e ∉ l1) ∧ (e ∉ l2) ∧
                  items lru !! e = Some (mkItem k v)) ∧
    (∀ k, is_Some (Get k lru)) ∧
    (∀ k v, is_Some (Put k v lru)).
Proof.
  intros Hpos.
  destruct (exec_inv ops (NewLRUCache cap) Hpos (inv_New cap Hpos))
    as (lru & He & [Hwf Hle] & Hcap).
  exists lru. split; [done|]. split; [apply Hwf|].
  split. { rewrite <-(wf_size _ Hwf). simpl in Hcap. unfold len in Hle. lia. }
  split.
  { intros k e Hk. destruct (wf_index _ Hwf k e Hk) as [Hin [v Hv]].
    apply list_elem_of_split in Hin as (l1 & l2 & Hl).
    exists l1, l2, v. split; [done|].
    pose proof (wf_nodup _ Hwf) as Hnd. rewrite Hl in Hnd.
    apply NoDup_app in Hnd as (_ & H1 & [H2 _]%NoDup_cons).
    split; [|done]. intros Hin. apply (H1 e Hin). by left. }
  split.
  - intros k. destruct (Get_wf k lru Hwf) as (r & lru' & -> & _). eauto.
  - intros k v. destruct (Put_wf k v lru Hwf) as (lru' & -> & _). eauto.
Qed.

Lemma cache_invariant_witness :
  0 < 2 ∧
  ∃ lru, exec [OpPut "a" [x01]; OpPut "b" [x02]; OpGet "a"; OpPut "c" [x03]]
              (NewLRUCache 2) = Some lru ∧
    size (cache lru) = length (list_ lru) ∧
    Z.of_nat (length (list_ lru)) <= 2 ∧
    (∀ k e, cache lru !! k = Some e →
       ∃ l1 l2 v, list_ lru = l1 ++ e :: l2 ∧ (e ∉ l1) ∧ (e ∉ l2) ∧
                  items lru !! e = Some (mkItem k v)) ∧
    (∀ k, is_Some (Get k lru)) ∧
    (∀ k v, is_Some (Put k v lru)).
Proof. split; [lia | apply cache_invariant; lia]. Defined.

(** ** A miss has no effect *)

(** C4: [Get] of a key that is not in the cache returns [found = false] and
    leaves the cache as it was: the map, the list and the items. *)
Theorem Get_absent_unchanged (k : string) (lru : LRUCache) :
  cache lru !! k = None →
  Get k lru = Some (([], false), lru).
Proof. apply Get_miss. Qed.

Lemma Get_absent_unchanged_witness :
  cache (insert_new "a" [x01] (NewLRUCache 2)) !! "b" = None ∧
  Get "b" (insert_new "a" [x01] (NewLRUCache 2))
  = Some (([], false), insert_new "a" [x01] (NewLRUCache 2)).
Proof.
  assert (H : cache (insert_new "a" [x01] (NewLRUCache 2)) !! "b" = None)
    by (vm_compute; reflexivity).
  split; [exact H | exact (Get_absent_unchanged "b" _ H)].
Defined.

(** ** A value put is the value got *)

(** C5: on a well-formed cache of any capacity, [Get k] right after
    [Put k v] finds the key and returns exactly the bytes [v]. *)
Theorem Put_Get_roundtrip (k : string) (v : list byte) (lru : LRUCache) :
  wf lru →
  ∃ lru1 lru2, Put k v lru = Some lru1 ∧ Get k lru1 = Some ((v, true), lru2).
Proof.
  intros Hwf. destruct (Put_wf k v lru Hwf) as (lru1 & HP & Hwf1 & _).
  destruct (Put_lookup k v lru lru1 Hwf HP) as (e & Hk & Hit & _).
  destruct (Get_hit k e lru1 Hwf1 Hk) as (v' & Hv' & HG).
  assert (v' = v) as -> by congruence.
  eauto.
Qed.

Lemma Put_Get_roundtrip_witness :
  wf (NewLRUCache 0) ∧
  ∃ lru1 lru2, Put "a" [x00; xff] (NewLRUCache 0) = Some lru1 ∧
               Get "a" lru1 = Some (([x00; xff], true), lru2).
Proof. split; [apply wf_New | apply Put_Get_roundtrip, wf_New]. Defined.

(** ** An update in place *)

(** C3: [Put] of a key that is present keeps the map as it is (the key
    stays on its element, the size does not change), rewrites the value of
    that element's item, moves the element to the head of the list and
    leaves the others in their order; so after [Put k v0; Put k v] the size
    is the size after the first [Put] and [Get k] returns [v]. *)
Theorem Put_present_in_place (k : string) (v : list byte) (lru : LRUCache) :
  wf lru →
  (∀ e, cache lru !! k = Some e →
     ∃ lru', Put k v lru = Some lru' ∧
       cache lru' = cache lru ∧
       list_ lru' = e :: Remove e (list_ lru) ∧
       length (list_ lru') = length (list_ lru) ∧
       items lru' = <[e := mkItem k v]> (items lru) ∧
       Get k lru' = Some ((v, true), lru')) ∧
  (∀ v0, ∃ lru1 lru2 lru3,
     Put k v0 lru = Some lru1 ∧ Put k v lru1 = Some lru2 ∧
     size (cache lru2) = size (cache lru1) ∧
     length (list_ lru2) = length (list_ lru1) ∧
     Get k lru2 = Some ((v, true), lru3)).
Proof.
  intros Hwf.
  assert (Hpresent : ∀ lru e, wf lru → cache lru !! k = Some e →
     ∃ lru', Put k v lru = Some lru' ∧
       cache lru' = cache lru ∧
       list_ lru' = e :: Remove e (list_ lru) ∧
       length (list_ lru') = length (list_ lru) ∧
       items lru' = <[e := mkItem k v]> (items lru) ∧
       Get k lru' = Some ((v, true), lru')).
  { clear lru Hwf. intros lru e Hwf Hk.
    destruct (wf_index _ Hwf k e Hk) as [Hin _].
    rewrite (Put_hit k v e) by done. eexists. split; [done|]. simpl.
    split; [done|]. split; [done|].
    split; [by rewrite length_Remove by (done || apply Hwf)|].
    split; [done|].
    unfold Get. simpl. rewrite Hk. simpl. rewrite lookup_insert_eq. simpl.
    unfold MoveToFront. rewrite decide_True by (by left).
    by rewrite decide_True. }
  split; [intros e; by apply Hpresent|].
  intros v0. destruct (Put_wf k v0 lru Hwf) as (lru1 & HP1 & Hwf1 & _).
  destruct (Put_lookup k v0 lru lru1 Hwf HP1) as (e & Hk & _).
  destruct (Hpresent lru1 e Hwf1 Hk) as (lru2 & HP2 & Hc & _ & Hlen & _ & HG).
  exists lru1, lru2, lru2. by rewrite Hc.
Qed.

Lemma Put_present_in_place_witness :
  wf (NewLRUCache 2) ∧
  ∀ v0, ∃ lru1 lru2 lru3,
     Put "a" v0 (NewLRUCache 2) = Some lru1 ∧ Put "a" [x02] lru1 = Some lru2 ∧
     size (cache lru2) = size (cache lru1) ∧
     length (list_ lru2) = length (list_ lru1) ∧
     Get "a" lru2 = Some (([x02], true), lru3).
Proof.
  split; [apply wf_New|].
  exact (proj2 (Put_present_in_place "a" [x02] (NewLRUCache 2) (wf_New 2))).
Defined.

(** ** The order of the list is the order of the touches *)

Lemma last_touch_from_snoc i k log t :
  last_touch_from i k (log ++ [t])
  = if decide (t = Some k) then Some (i + length log)%nat
    else last_touch_from i k log.
Proof.
  revert i. induction log as [|t0 log IH]; intros i; simpl.
  - rewrite Nat.add_0_r. done.
  - rewrite IH. case_decide; [|done]. f_equal. lia.
Qed.

Lemma last_touch_from_bound i k log t :
  last_touch_from i k log = Some t → (i ≤ t < i + length log)%nat.
Proof.
  revert i. induction log as [|t0 log IH]; intros i; simpl; [done|].
  destruct (last_touch_from (S i) k log) as [j|] eqn:Hj.
  - intros [= <-]. apply IH in Hj. lia.
  - case_decide; [|done]. intros [= <-]. lia.
Qed.

Lemma touch_log_snoc ops op lru0 lru :
  exec ops lru0 = Some lru →
  touch_log (ops ++ [op]) lru0 = touch_log ops lru0 ++ [touches op lru].
Proof.
  revert lru0. induction ops as [|o ops IH]; intros lru0; simpl.
  - intros [= ->]. by destruct (step op lru).
  - destruct (step o lru0) as [lru1|]; simpl; [|done].
    intros He. by rewrite (IH lru1 He).
Qed.

Lemma step_wf op lru :
  wf lru → ∃ lru', step op lru = Some lru' ∧ wf lru'.
Proof.
  intros Hwf. destruct op as [k|k v]; simpl.
  - destruct (Get_wf k lru Hwf) as (r & lru' & -> & Hwf' & _). eauto.
  - destruct (Put_wf k v lru Hwf) as (lru' & -> & Hwf' & _). eauto.
Qed.

Lemma exec_wf ops lru lru' :
  wf lru → exec ops lru = Some lru' → wf lru'.
Proof.
  revert lru. induction ops as [|op ops IH]; intros lru Hwf; simpl.
  - by intros [= <-].
  - destruct (step_wf op lru Hwf) as (lru1 & -> & Hwf1). simpl. by apply IH.
Qed.

Lemma StronglySorted_Remove (R : relation Elem) e l :
  StronglySorted R l → StronglySorted R (Remove e l).
Proof.
  unfold Remove. induction 1 as [|x l Hs IH Hall]; [constructor|].
  rewrite filter_cons. case_decide; [|done].
  constructor; [done|]. apply Forall_forall. intros y Hy.
  apply list_elem_of_filter in Hy as [_ Hy].
  by apply (proj1 (Forall_forall _ _) Hall).
Qed.

Lemma StronglySorted_weaken (R R' : relation Elem) l :
  (∀ x y, x ∈ l → y ∈ l → R x y → R' x y) →
  StronglySorted R l → StronglySorted R' l.
Proof.
  intros HR Hs. induction Hs as [|x l Hs IH Hall]; [constructor|].
  constructor.
  - apply IH. intros a b Ha Hb. apply HR; by right.
  - apply Forall_forall. intros y Hy. apply HR; [by left|by right|].
    by apply (proj1 (Forall_forall _ _) Hall).
Qed.

(** A touch of [k] puts its element in front of elements of other keys
    that were in order. *)
Lemma recency_touch log its its' k v e l' :
  StronglySorted (touched_after log its) l' →
  (∀ e', e' ∈ l' → ∃ t, stamp log its e' = Some t ∧ (t < length log)%nat) →
  (∀ e', e' ∈ l' →
     ∃ it, its !! e' = Some it ∧ its' !! e' = Some it ∧ key it ≠ k) →
  its' !! e = Some (mkItem k v) →
  StronglySorted (touched_after (log ++ [Some k]) its') (e :: l') ∧
  ∀ e', e' ∈ e :: l' →
    ∃ t, stamp (log ++ [Some k]) its' e' = Some t ∧
         (t < length (log ++ [Some k]))%nat.
Proof.
  intros Hs Hst Hit He.
  assert (Hnew : stamp (log ++ [Some k]) its' e = Some (length log)).
  { unfold stamp, last_touch. rewrite He. simpl.
    rewrite last_touch_from_snoc. by rewrite decide_True. }
  assert (Hold : ∀ e', e' ∈ l' →
            stamp (log ++ [Some k]) its' e' = stamp log its e').
  { intros e' Hin. destruct (Hit e' Hin) as (it & H1 & H2 & Hne).
    unfold stamp, last_touch. rewrite H1, H2. simpl.
    rewrite last_touch_from_snoc. rewrite decide_False; [done|].
    intros [= Heq]. done. }
  split.
  - constructor.
    + eapply StronglySorted_weaken; [|exact Hs].
      intros x y Hx Hy (t1 & t2 & H1 & H2 & Hlt).
      exists t1, t2. by rewrite (Hold x Hx), (Hold y Hy).
    + apply Forall_forall. intros y Hy.
      destruct (Hst y Hy) as (t & Ht & Hlt).
      exists (length log), t. by rewrite (Hold y Hy).
  - intros e' [->|Hin]%elem_of_cons; rewrite length_app; simpl.
    + exists (length log). split; [done|lia].
    + destruct (Hst e' Hin) as (t & Ht & Hlt). exists t.
      rewrite Hold by done. split; [done|lia].
Qed.

(** An operation that touches nothing leaves the stamps as they are. *)
Lemma recency_no_touch log lru :
  recency_sorted log lru → recency_sorted (log ++ [None]) lru.
Proof.
  assert (Hsame : ∀ e, stamp (log ++ [None]) (items lru) e
                       = stamp log (items lru) e).
  { intros e. unfold stamp, last_touch. destruct (items lru !! e); [|done].
    simpl. rewrite last_touch_from_snoc. by rewrite decide_False. }
  intros [Hs Hst]. split.
  - eapply StronglySorted_weaken; [|exact Hs].
    intros x y _ _ (t1 & t2 & H1 & H2 & Hlt). exists t1, t2.
    by rewrite !Hsame.
  - intros e Hin. destruct (Hst e Hin) as (t & Ht & Hlt). exists t.
    rewrite Hsame, length_app. simpl. split; [done|lia].
Qed.

(** A new item in front of elements that were in the list, in order. *)
Lemma recency_insert_new log lru k v c' l' :
  wf lru → recency_sorted log lru → cache lru !! k = None →
  StronglySorted (touched_after log (items lru)) l' →
  (∀ e, e ∈ l' → e ∈ list_ lru) →
  recency_sorted (log ++ [Some k])
    (insert_new k v {| capacity := capacity lru; cache := c'; list_ := l';
                       items := items lru; next := next lru |}).
Proof.
  intros Hwf [_ Hst] Hk Hs Hsub. unfold recency_sorted, insert_new, PushFront.
  simpl. apply (recency_touch log (items lru) _ k v).
  - done.
  - intros e Hin. apply Hst, Hsub, Hin.
  - intros e Hin. apply Hsub in Hin.
    destruct (wf_entry _ Hwf e Hin) as (it & Hit & Hc).
    exists it. split; [done|]. split.
    + rewrite lookup_insert_ne; [done|].
      intros Heq. apply (wf_fresh _ Hwf) in Hin. lia.
    + intros Heq. congruence.
  - by rewrite lookup_insert_eq.
Qed.

Lemma recency_step op log lru lru' :
  wf lru → recency_sorted log lru → step op lru = Some lru' →
  recency_sorted (log ++ [touches op lru]) lru'.
Proof.
  intros Hwf Hrs Hstep. pose proof Hrs as [Hs Hst].
  assert (Hmove : ∀ k e its' v,
    cache lru !! k = Some e →
    (∀ e', e' ≠ e → its' !! e' = items lru !! e') →
    its' !! e = Some (mkItem k v) →
    recency_sorted (log ++ [Some k])
      {| capacity := capacity lru; cache := cache lru;
         list_ := e :: Remove e (list_ lru); items := its';
         next := next lru |}).
  { intros k e its' v Hk Hsame He. unfold recency_sorted. simpl.
    apply (recency_touch log (items lru) _ k v).
    - by apply StronglySorted_Remove.
    - intros e' [_ Hin]%elem_of_Remove. by apply Hst.
    - intros e' [Hne Hin]%elem_of_Remove.
      destruct (wf_entry _ Hwf e' Hin) as (it & Hit & Hc).
      exists it. split; [done|]. split; [by rewrite Hsame|].
      intros Heq. congruence.
    - done. }
  destruct op as [k|k v]; simpl in *.
  - destruct (cache lru !! k) as [e|] eqn:Hk.
    + destruct (Get_hit k e lru Hwf Hk) as (v & Hv & HG).
      rewrite HG in Hstep. simpl in Hstep. injection Hstep as <-.
      by apply (Hmove k e (items lru) v).
    + rewrite Get_miss in Hstep by done. simpl in Hstep.
      injection Hstep as <-. by apply recency_no_touch.
  - destruct (cache lru !! k) as [e|] eqn:Hk.
    + rewrite (Put_hit k v e) in Hstep by done. injection Hstep as <-.
      apply (Hmove k e _ v); [done| |by rewrite lookup_insert_eq].
      intros e' Hne. by rewrite lookup_insert_ne.
    + destruct (decide (len (cache lru) < capacity lru)) as [Hlt|Hge].
      { rewrite Put_miss_room in Hstep by done. injection Hstep as <-.
        destruct lru as [cap c l its n]. simpl in *.
        by apply (recency_insert_new log (mkLRU cap c l its n) k v c l). }
      destruct (list_ lru) as [|x l0] eqn:Hl using rev_ind.
      { rewrite Put_miss_empty in Hstep by done. injection Hstep as <-.
        destruct lru as [cap c l its n]. simpl in *. subst l.
        by apply (recency_insert_new log (mkLRU cap c [] its n) k v c []). }
      clear IHl0.
      destruct (Put_miss_full k v lru l0 x Hwf Hk ltac:(lia) Hl)
        as (it & Hit & Hc & HP).
      rewrite HP in Hstep. injection Hstep as <-.
      apply recency_insert_new; [done|done|done| |].
      * by apply StronglySorted_app_1_l in Hs.
      * intros e Hin. rewrite ?Hl, elem_of_app. by left.
Qed.

Lemma recency_exec ops lru0 lru :
  wf lru0 → list_ lru0 = [] → exec ops lru0 = Some lru →
  recency_sorted (touch_log ops lru0) lru.
Proof.
  intros Hwf0 Hl0. revert lru.
  induction ops as [|op ops IH] using rev_ind; intros lru He.
  - simpl in *. injection He as <-. split; rewrite Hl0; [constructor|].
    intros e. by rewrite elem_of_nil.
  - rewrite exec_app in He.
    destruct (exec ops lru0) as [lru1|] eqn:He1; [|done].
    simpl in He. destruct (step op lru1) as [lru2|] eqn:Hst; [|done].
    simpl in He. injection He as <-.
    rewrite (touch_log_snoc ops op lru0 lru1 He1).
    apply (recency_step op _ lru1); [|by apply IH|done].
    by apply (exec_wf ops lru0).
Qed.

(** ** Eviction *)

(** C2: in a cache reached from a new one of positive capacity and now
    full, [Put] of a key that is not present removes one key, the victim,
    adds the new key with its value and leaves every other key with its
    value; the victim is the key whose last touch (a [Put] of it or a [Get]
    that found it) is older than the last touch of every other key present.
    With capacity 2, [Put a; Put b; Put c] loses [a] and keeps [b] and [c],
    and [Put a; Put b; Get a; Put c] loses [b] and keeps [a]. *)
Theorem Put_full_evicts_least_recent :
  (∀ cap ops lru k v,
     0 < cap → exec ops (NewLRUCache cap) = Some lru →
     len (cache lru) >= capacity lru → cache lru !! k = None →
     ∃ victim lru',
       Put k v lru = Some lru' ∧
       is_Some (peek victim lru) ∧ peek victim lru' = None ∧
       peek k lru' = Some v ∧
       (∀ k', k' ≠ victim → k' ≠ k → peek k' lru' = peek k' lru) ∧
       (∀ k', k' ≠ victim → is_Some (peek k' lru) →
          ∃ t t', last_touch victim (touch_log ops (NewLRUCache cap)) = Some t ∧
                  last_touch k' (touch_log ops (NewLRUCache cap)) = Some t' ∧
                  (t < t')%nat)) ∧
  (∀ v1 v2 v3,
     observe [OpPut "a" v1; OpPut "b" v2; OpPut "c" v3;
              OpGet "a"; OpGet "b"; OpGet "c"] (NewLRUCache 2)
     = Some [([], false); (v2, true); (v3, true)]) ∧
  (∀ v1 v2 v3,
     observe [OpPut "a" v1; OpPut "b" v2; OpGet "a"; OpPut "c" v3;
              OpGet "b"; OpGet "a"] (NewLRUCache 2)
     = Some [(v1, true); ([], false); (v1, true)]).
Proof.
  split; [|split; intros v1 v2 v3; vm_compute; reflexivity].
  intros cap ops lru k v Hpos He Hfull Hk.
  destruct (exec_inv ops (NewLRUCache cap) Hpos (inv_New cap Hpos))
    as (lru_ & He' & [Hwf Hle] & Hcap).
  rewrite He in He'. injection He' as <-. simpl in Hcap.
  pose proof (recency_exec ops (NewLRUCache cap) lru (wf_New cap) eq_refl He)
    as [Hs Hst].
  set (log := touch_log ops (NewLRUCache cap)) in *.
  destruct (list_ lru) as [|x l0] eqn:Hl using rev_ind.
  { pose proof (wf_size _ Hwf) as Hsz. rewrite Hl in Hsz.
    unfold len in Hfull. simpl in Hsz. lia. }
  clear IHl0.
  destruct (Put_miss_full k v lru l0 x Hwf Hk Hfull Hl) as (it & Hit & Hc & HP).
  assert (Hvk : key it ≠ k) by (intros Heq; congruence).
  assert (Hfresh : ∀ k' e, cache lru !! k' = Some e → e ≠ next lru).
  { intros k' e Hke. destruct (wf_index _ Hwf k' e Hke) as [Hin _].
    apply (wf_fresh _ Hwf) in Hin. lia. }
  exists (key it). eexists. split; [exact HP|].
  split; [|split; [|split; [|split]]].
  - unfold peek. rewrite Hc. simpl. rewrite Hit. by eexists.
  - unfold peek. simpl. rewrite lookup_insert_ne by done.
    by rewrite lookup_delete_eq.
  - unfold peek. simpl. rewrite lookup_insert_eq. simpl.
    by rewrite lookup_insert_eq.
  - intros k' Hne1 Hne2. unfold peek. simpl.
    rewrite lookup_insert_ne by done. rewrite lookup_delete_ne by done.
    destruct (cache lru !! k') as [e|] eqn:Hk'; [|done]. simpl.
    rewrite lookup_insert_ne; [done|]. intros Heq. by apply (Hfresh k' e).
  - intros k' Hne [v' Hv']. apply (peek_Some k' v' lru Hwf) in Hv'.
    destruct Hv' as (e & Hk' & Hit').
    destruct (wf_index _ Hwf k' e Hk') as [Hin _].
    rewrite ?Hl in Hin. apply elem_of_app in Hin as [Hin|Hin].
    2:{ apply list_elem_of_singleton in Hin. subst e.
        rewrite Hit in Hit'. injection Hit' as ->. done. }
    assert (Hx : x ∈ [x]) by (by left).
    destruct (StronglySorted_app_1_elem_of _ _ _ _ _ Hs Hin Hx)
      as (t1 & t2 & H1 & H2 & Hlt).
    unfold stamp in H1, H2. rewrite Hit' in H1. rewrite Hit in H2.
    simpl in H1, H2. exists t2, t1. done.
Qed.

Lemma Put_full_evicts_least_recent_witness :
  ∃ victim lru',
    Put "c" [x03]
      (default (NewLRUCache 2)
         (exec [OpPut "a" [x01]; OpPut "b" [x02]; OpGet "a"] (NewLRUCache 2)))
    = Some lru' ∧
    is_Some (peek victim
      (default (NewLRUCache 2)
         (exec [OpPut "a" [x01]; OpPut "b" [x02]; OpGet "a"] (NewLRUCache 2)))) ∧
    peek victim lru' = None ∧
    peek "c" lru' = Some [x03] ∧
    (∀ k', k' ≠ victim → k' ≠ "c" →
       peek k' lru' =
       peek k' (default (NewLRUCache 2)
         (exec [OpPut "a" [x01]; OpPut "b" [x02]; OpGet "a"] (NewLRUCache 2)))) ∧
    (∀ k', k' ≠ victim →
       is_Some (peek k'
         (default (NewLRUCache 2)
           (exec [OpPut "a" [x01]; OpPut "b" [x02]; OpGet "a"] (NewLRUCache 2)))) →
       ∃ t t',
         last_touch victim
           (touch_log [OpPut "a" [x01]; OpPut "b" [x02]; OpGet "a"]
                      (NewLRUCache 2)) = Some t ∧
         last_touch k'
           (touch_log [OpPut "a" [x01]; OpPut "b" [x02]; OpGet "a"]
                      (NewLRUCache 2)) = Some t' ∧
         (t < t')%nat).
Proof.
  apply (proj1 Put_full_evicts_least_recent 2
           [OpPut "a" [x01]; OpPut "b" [x02]; OpGet "a"]).
  - lia.
  - vm_compute. reflexivity.
  - vm_compute. discriminate.
  - vm_compute. reflexivity.
Defined.

(** * Properties of the handlers *)

Import Net.

Lemma substring_all s : String.substring 0 (String.length s) s = s.
Proof. induction s as [|c s IH]; simpl; [done|]. by rewrite IH. Qed.

(** [TrimPrefix] takes one leading separator away, and only one. *)
Lemma TrimPrefix_slash s : TrimPrefix (String "/" s) "/" = s.
Proof.
  unfold TrimPrefix, HasPrefix. simpl.
  destruct s; simpl; rewrite ?Nat.sub_0_r; [done|].
  f_equal. apply substring_all.
Qed.

(** ** The handler that takes the target from the path *)

Lemma QueryUnescape_other c s :
  c ≠ "%"%char → c ≠ "+"%char →
  QueryUnescape (String c s) = String c <$> QueryUnescape s.
Proof.
  intros H1 H2.
  destruct c as [[] [] [] [] [] [] [] []]; try done.
Qed.








(** ** The handler that caches under the request's own URL *)

(** On a hit the handler does one thing: it writes the stored bytes. *)
Lemma handleRequest_hit (clientGet : string → FetchResult)
    (url : string) (body : list byte) (c : LRUCache) :
  wf c → peek url c = Some body →
  ∃ c', SelfURL.handleRequest clientGet url c = Some ([EvWrite body], c') ∧
        (∀ k, peek k c' = peek k c).
Proof.
  intros Hwf Hp. unfold SelfURL.handleRequest.
  destruct (Get_peek url c Hwf) as (c' & -> & Hsame). rewrite Hp. simpl.
  by exists c'.
Qed.

(** C7: when the key of the request is not in the cache, the handler issues
    the fetch and then writes exactly one response, and nothing else. The
    response is 502 "Failed to fetch from target" exactly when the fetch
    fails, and 500 "Failed to read response" exactly when the fetch
    succeeds and reading the body fails; after either the handler is done:
    nothing is stored in the cache. *)
Theorem selfurl_miss_failures (clientGet : string → FetchResult)
    (url : string) (c : LRUCache) :
  wf c → LRU.cache c !! url = None →
  ∃ r c', SelfURL.handleRequest clientGet url c = Some ([EvGet url; r], c') ∧
    (r = EvError "Failed to fetch from target" 502 ↔ clientGet url = FetchError) ∧
    (r = EvError "Failed to read response" 500 ↔
       ∃ resp, clientGet url = FetchOK resp ∧ BodyErr resp = true) ∧
    ((∃ msg code, r = EvError msg code) → c' = c) ∧
    ((∃ msg code, r = EvError msg code) ∨ (∃ body, r = EvWrite body)).
Proof.
  intros Hwf Hmiss. unfold SelfURL.handleRequest.
  rewrite (Get_miss url c Hmiss). simpl.
  destruct (clientGet url) as [|resp] eqn:Hf.
  - eexists _, _. split; [done|]. split; [done|]. split.
    + split; [done|]. by intros (resp & ? & _).
    + split; [done|]. left. eauto.
  - destruct (BodyErr resp) eqn:Hb.
    + eexists _, _. split; [done|]. split; [done|]. split.
      * split; [eauto|done].
      * split; [done|]. left. eauto.
    + destruct (Put_wf url (Body resp) c Hwf) as (c' & -> & _). simpl.
      eexists _, _. split; [done|]. split; [done|]. split.
      * split; [done|]. intros (resp' & [= <-] & Hb'). congruence.
      * split; [by intros (msg & code & ?)|]. right. eauto.
Qed.

Lemma selfurl_miss_failures_witness :
  wf SelfURL.cache ∧ LRU.cache SelfURL.cache !! "http://example.com/" = None ∧
  ∃ r c', SelfURL.handleRequest (λ _, FetchError) "http://example.com/"
            SelfURL.cache
          = Some ([EvGet "http://example.com/"; r], c') ∧
    (r = EvError "Failed to fetch from target" 502 ↔
       (λ _ : string, FetchError) "http://example.com/" = FetchError) ∧
    (r = EvError "Failed to read response" 500 ↔
       ∃ resp, (λ _ : string, FetchError) "http://example.com/" = FetchOK resp ∧
               BodyErr resp = true) ∧
    ((∃ msg code, r = EvError msg code) → c' = SelfURL.cache) ∧
    ((∃ msg code, r = EvError msg code) ∨ (∃ body, r = EvWrite body)).
Proof.
  split; [apply wf_New|]. split; [reflexivity|].
  apply selfurl_miss_failures; [apply wf_New|reflexivity].
Defined.

(** C8: when the key of the request is in the cache, the handler writes the
    stored bytes as the body and that is all it does: no fetch is issued,
    whatever the fetch would answer, and no status code or header is
    written; the stored entries are as before. *)
Theorem selfurl_hit_writes_body (clientGet : string → FetchResult)
    (url : string) (body : list byte) (c : LRUCache) :
  wf c → peek url c = Some body →
  ∃ c', SelfURL.handleRequest clientGet url c = Some ([EvWrite body], c') ∧
        (∀ k, peek k c' = peek k c).
Proof. apply handleRequest_hit. Qed.

Lemma selfurl_hit_writes_body_witness :
  wf (insert_new "/a" [x68; x69] SelfURL.cache) ∧
  peek "/a" (insert_new "/a" [x68; x69] SelfURL.cache) = Some [x68; x69] ∧
  ∃ c', SelfURL.handleRequest (λ _, FetchError) "/a"
          (insert_new "/a" [x68; x69] SelfURL.cache)
        = Some ([EvWrite [x68; x69]], c') ∧
        (∀ k, peek k c' = peek k (insert_new "/a" [x68; x69] SelfURL.cache)).
Proof.
  assert (Hwf : wf (insert_new "/a" [x68; x69] SelfURL.cache))
    by (apply wf_insert_new; [apply wf_New|reflexivity]).
  assert (Hp : peek "/a" (insert_new "/a" [x68; x69] SelfURL.cache)
               = Some [x68; x69]) by (vm_compute; reflexivity).
  split; [exact Hwf|]. split; [exact Hp|].
  exact (selfurl_hit_writes_body _ _ _ _ Hwf Hp).
Defined.

(** C10: on a miss, when the fetch answers and the body is read to its
    end, the body is stored under the key whatever the status code of the
    answer, only the body is written, and the next request for the same URL
    is served these bytes without a fetch. *)
Theorem selfurl_caches_any_status (clientGet : string → FetchResult)
    (url : string) (resp : Response) (c : LRUCache) :
  wf c → LRU.cache c !! url = None →
  clientGet url = FetchOK resp → BodyErr resp = false →
  ∃ c', SelfURL.handleRequest clientGet url c
        = Some ([EvGet url; EvWrite (Body resp)], c') ∧
    Put url (Body resp) c = Some c' ∧
    peek url c' = Some (Body resp) ∧
    (∀ clientGet', ∃ c'',
       SelfURL.handleRequest clientGet' url c'
       = Some ([EvWrite (Body resp)], c'')) ∧
    ∃ c'', SelfURL.serve clientGet [url; url] c
           = Some ([[EvGet url; EvWrite (Body resp)]; [EvWrite (Body resp)]],
                   c'').
Proof.
  intros Hwf Hmiss Hf Hb.
  destruct (Put_wf url (Body resp) c Hwf) as (c' & HP & Hwf' & _).
  assert (H1 : SelfURL.handleRequest clientGet url c
               = Some ([EvGet url; EvWrite (Body resp)], c')).
  { unfold SelfURL.handleRequest. rewrite (Get_miss url c Hmiss). simpl.
    by rewrite Hf, Hb, HP. }
  destruct (Put_lookup url (Body resp) c c' Hwf HP) as (e & Hk & Hit & _).
  assert (Hp : peek url c' = Some (Body resp)).
  { apply peek_Some; eauto. }
  exists c'. do 3 (split; [done|]). split.
  - intros clientGet'.
    destruct (handleRequest_hit clientGet' url (Body resp) c' Hwf' Hp)
      as (c'' & HH & _).
    eauto.
  - destruct (handleRequest_hit clientGet url (Body resp) c' Hwf' Hp)
      as (c'' & HH & _).
    exists c''. unfold SelfURL.serve. rewrite H1. simpl. by rewrite HH.
Qed.

Lemma selfurl_caches_any_status_witness :
  wf SelfURL.cache ∧ LRU.cache SelfURL.cache !! "/gone" = None ∧
  ∃ c', SelfURL.handleRequest
          (λ _, FetchOK (mkResponse 404 [("Content-Type", ["text/html"])]
                           [x34; x30; x34] false))
          "/gone" SelfURL.cache
        = Some ([EvGet "/gone"; EvWrite [x34; x30; x34]], c') ∧
    Put "/gone" [x34; x30; x34] SelfURL.cache = Some c' ∧
    peek "/gone" c' = Some [x34; x30; x34] ∧
    (∀ clientGet', ∃ c'',
       SelfURL.handleRequest clientGet' "/gone" c'
       = Some ([EvWrite [x34; x30; x34]], c'')) ∧
    ∃ c'', SelfURL.serve
             (λ _, FetchOK (mkResponse 404 [("Content-Type", ["text/html"])]
                              [x34; x30; x34] false))
             ["/gone"; "/gone"] SelfURL.cache
           = Some ([[EvGet "/gone"; EvWrite [x34; x30; x34]];
                    [EvWrite [x34; x30; x34]]], c'').
Proof.
  split; [apply wf_New|]. split; [reflexivity|].
  apply (selfurl_caches_any_status
           (λ _, FetchOK (mkResponse 404 [("Content-Type", ["text/html"])]
                            [x34; x30; x34] false))
           "/gone"
           (mkResponse 404 [("Content-Type", ["text/html"])]
              [x34; x30; x34] false));
    [apply wf_New|reflexivity|reflexivity|reflexivity].
Defined.

(** * Properties of the cache shared by goroutines *)

Import Conc.

(** A goroutine between two calls can only take the mutex, and only when
    it is free; the cache is not touched. *)
Lemma tstep_idle s t s' t' :
  pc t = Idle → tstep s t = Next s' t' →
  mu s = false ∧ mu s' = true ∧ mem s' = mem s ∧
  ∃ op, pc t' = enter op.
Proof.
  intros Hpc. unfold tstep. rewrite Hpc.
  destruct (todo t) as [|op rest]; [done|].
  destruct (mu s) eqn:Hmu; [done|].
  intros [= <- <-]. simpl. eauto.
Qed.

Lemma tstep_idle_no_panic s t : pc t = Idle → tstep s t ≠ Panic.
Proof.
  intros Hpc. unfold tstep. rewrite Hpc.
  destruct (todo t); [done|]. by destruct (mu s).
Qed.

Lemma at_pc_enter op base : at_pc (enter op) base base.
Proof. by destruct op. Qed.

(** A statement inside a call either stays inside the call, one statement
    further, or is the unlock, and then the call as a whole has had the
    effect of the sequential [Get] or [Put] on the cache it started from. *)
Lemma tstep_at_pc base s t s' t' :
  mu s = true → at_pc (pc t) base (mem s) → tstep s t = Next s' t' →
  (mu s' = true ∧ at_pc (pc t') base (mem s')) ∨
  (mu s' = false ∧ pc t' = Idle ∧ ∃ op, step op base = Some (mem s')).
Proof.
  destruct s as [m lru], t as [td p rs]. simpl. intros -> Hat.
  unfold tstep, goto, store. simpl.
  destruct p; simpl in Hat.
  - done.
  - subst lru. destruct (cache base !! k) as [e|] eqn:Hk;
      intros [= <- <-]; left; simpl; (split; [done|]).
    + done.
    + exists k. by apply Get_miss.
  - destruct Hat as [-> Hk]. intros [= <- <-]. left. done.
  - destruct Hat as [Hk ->]. simpl.
    destruct (items base !! elem) as [it|] eqn:Hit; [|done].
    intros [= <- <-]. left. simpl. split; [done|]. exists k.
    unfold Get. rewrite Hk. simpl. by rewrite Hit.
  - destruct Hat as [k HG]. intros [= <- <-]. right. simpl.
    split; [done|]. split; [done|]. exists (OpGet k). simpl. by rewrite HG.
  - subst lru. destruct (cache base !! k) as [e|] eqn:Hk;
      intros [= <- <-]; left; done.
  - destruct Hat as [-> Hk]. intros [= <- <-]. left. done.
  - destruct Hat as [Hk ->]. simpl.
    destruct (items base !! elem) as [it|] eqn:Hit; [|done].
    intros [= <- <-]. left. simpl. split; [done|]. exists k, v.
    unfold Put. rewrite Hk. by rewrite Hit.
  - destruct Hat as [-> Hk].
    case_bool_decide as Hge; intros [= <- <-]; left; simpl; (split; [done|]).
    + done.
    + split; [done|]. by rewrite bool_decide_eq_false_2.
  - destruct Hat as (-> & Hk & Hge).
    destruct (Back (list_ base)) as [e|] eqn:Hb;
      intros [= <- <-]; left; simpl; (split; [done|]).
    + done.
    + split; [done|]. rewrite bool_decide_eq_true_2 by done.
      unfold evict. by rewrite Hb.
  - destruct Hat as (-> & Hk & Hge & Hb).
    destruct (items base !! lastElem) as [it|] eqn:Hit; [|done].
    intros [= <- <-]. left. simpl. split; [done|].
    do 3 (split; [done|]). by exists it.
  - destruct Hat as (Hk & Hge & Hb & it & Hit & ->). simpl.
    intros [= <- <-]. left. simpl. split; [done|]. split; [done|].
    rewrite bool_decide_eq_true_2 by done.
    unfold evict. rewrite Hb. simpl. by rewrite Hit.
  - destruct Hat as (Hk & Hev). intros [= <- <-]. left. simpl.
    split; [done|]. split; [done|]. by exists lru.
  - destruct Hat as (Hk & lru1 & Hev & -> & ->). simpl.
    intros [= <- <-]. left. simpl. split; [done|]. exists k, v.
    unfold Put. rewrite Hk, Hev. done.
  - destruct Hat as (k & v & HP). intros [= <- <-]. right. simpl.
    split; [done|]. split; [done|]. by exists (OpPut k v).
Qed.

(** Inside a call that started from a well-formed cache no statement
    panics. *)
Lemma tstep_at_pc_no_panic base s t :
  wf base → mu s = true → at_pc (pc t) base (mem s) → tstep s t ≠ Panic.
Proof.
  destruct s as [m lru], t as [td p rs]. simpl. intros Hwf -> Hat.
  unfold tstep, goto, store. simpl.
  destruct p; simpl in Hat; try done.
  - by destruct (cache lru !! k).
  - destruct Hat as [Hk ->]. simpl.
    destruct (wf_index _ Hwf k elem Hk) as [_ [v Hv]]. by rewrite Hv.
  - by destruct (cache lru !! k).
  - destruct Hat as [Hk ->]. simpl.
    destruct (wf_index _ Hwf k elem Hk) as [_ [v' Hv]]. by rewrite Hv.
  - by case_bool_decide.
  - by destruct (Back (list_ lru)).
  - destruct Hat as (-> & Hk & Hge & Hb).
    apply last_Some_elem_of in Hb.
    destruct (wf_entry _ Hwf lastElem Hb) as (it & Hit & _). by rewrite Hit.
Qed.

Lemma serialized_init cap progs : serialized cap (init cap progs).
Proof.
  exists [], (NewLRUCache cap). split; [done|]. simpl. split; [done|].
  intros j t' Hj. rewrite list_lookup_fmap in Hj.
  destruct (progs !! j); simplify_eq/=. done.
Qed.

Lemma serialized_step cap m m' :
  serialized cap m → mstep m m' → serialized cap m'.
Proof.
  intros (hist & base & He & Hm) Hstep.
  destruct Hstep as [m i t s' t' Hi Hts].
  pose proof (lookup_lt_Some _ _ _ Hi) as Hlt.
  destruct (mu (shared m)) eqn:Hmu.
  - destruct Hm as (i0 & t0 & Hi0 & Hat & Hothers).
    destruct (decide (i = i0)) as [->|Hne].
    2:{ pose proof (Hothers i t Hne Hi) as Hidle.
        destruct (tstep_idle _ _ _ _ Hidle Hts) as (Hf & _). congruence. }
    assert (t0 = t) as -> by congruence.
    destruct (tstep_at_pc base _ _ _ _ Hmu Hat Hts)
      as [[Hmu' Hat']|(Hmu' & Hpc' & op & Hop)].
    + exists hist, base. split; [done|]. simpl. rewrite Hmu'.
      exists i0, t'. split; [by apply list_lookup_insert_eq|].
      split; [done|]. intros j tj Hj.
      rewrite list_lookup_insert_ne by done. by apply Hothers.
    + exists (hist ++ [op]), (mem s'). split.
      { rewrite exec_app, He. simpl. by rewrite Hop. }
      simpl. rewrite Hmu'. split; [done|]. intros j tj.
      destruct (decide (j = i0)) as [->|Hj].
      * rewrite list_lookup_insert_eq by done. by intros [= <-].
      * rewrite list_lookup_insert_ne by done. by apply Hothers.
  - destruct Hm as [Hbase Hidle].
    destruct (tstep_idle _ _ _ _ (Hidle i t Hi) Hts) as (_ & Hmu' & Hmem & op & Hop).
    exists hist, base. split; [done|]. simpl. rewrite Hmu'.
    exists i, t'. split; [by apply list_lookup_insert_eq|]. split.
    + rewrite Hop, Hmem, Hbase. apply at_pc_enter.
    + intros j tj Hj. rewrite list_lookup_insert_ne by done. apply Hidle.
Qed.

Lemma serialized_reachable cap progs m :
  rtc mstep (init cap progs) m → serialized cap m.
Proof.
  intros Hreach.
  apply (rtc_ind_r (R := mstep) (serialized cap) (init cap progs));
    [apply serialized_init| |exact Hreach].
  intros m1 m2 _ Hstep IH. by apply (serialized_step cap m1).
Qed.

Lemma run_sched_reachable sched m : rtc mstep m (run_sched sched m).
Proof.
  revert m. induction sched as [|i sched IH]; intros m; simpl; [done|].
  unfold sched_step. destruct (threads m !! i) as [t|] eqn:Hi; [|apply IH].
  destruct (tstep (shared m) t) as [| | |s' t'] eqn:Hts; try apply IH.
  eapply rtc_l; [by apply (mstep_thread m i t)|apply IH].
Qed.

(** The states in the middle of a call are states of the machine: after
    the first four statements of [Put] on an empty cache the new element is
    in the list and its key is not yet in the map. *)
Example half_updated_state_exists :
  rtc mstep (init 1 [[OpPut "a" [x01]]; [OpGet "a"]])
    (run_sched [0; 0; 0; 0]%nat (init 1 [[OpPut "a" [x01]]; [OpGet "a"]])) ∧
  mu (shared (run_sched [0; 0; 0; 0]%nat
                (init 1 [[OpPut "a" [x01]]; [OpGet "a"]]))) = true ∧
  size (cache (mem (shared (run_sched [0; 0; 0; 0]%nat
                              (init 1 [[OpPut "a" [x01]]; [OpGet "a"]])))))
  ≠ length (list_ (mem (shared (run_sched [0; 0; 0; 0]%nat
                                  (init 1 [[OpPut "a" [x01]]; [OpGet "a"]]))))).
Proof.
  split; [apply run_sched_reachable|].
  split; [reflexivity|]. vm_compute. discriminate.
Qed.

(** C9: in every state the goroutines can reach by interleaving the
    statements of their calls, a goroutine inside [Get] or [Put] holds the
    mutex and no other goroutine is inside a call or can make a step; the
    goroutine that takes the mutex finds a cache on which the invariant
    holds and that is the result of the completed calls run one after the
    other; whenever the mutex is free, so after each call, the map and the
    list have the same size, at most the capacity, and the cache is well
    formed; and no statement panics. *)
Theorem mutex_serializes_calls (cap : Z) (progs : list (list Op)) (m : Machine) :
  0 < cap → rtc mstep (init cap progs) m →
  (∀ i t, threads m !! i = Some t → pc t ≠ Idle →
     mu (shared m) = true ∧
     ∀ j t', j ≠ i → threads m !! j = Some t' →
       pc t' = Idle ∧ ∀ s'' t'', tstep (shared m) t' ≠ Next s'' t'') ∧
  (∀ i t s' t', threads m !! i = Some t → pc t = Idle →
     tstep (shared m) t = Next s' t' →
     mu (shared m) = false ∧ mu s' = true ∧ mem s' = mem (shared m)) ∧
  (mu (shared m) = false →
     (∀ i t, threads m !! i = Some t → pc t = Idle) ∧
     (∃ hist, exec hist (NewLRUCache cap) = Some (mem (shared m))) ∧
     wf (mem (shared m)) ∧
     size (cache (mem (shared m))) = length (list_ (mem (shared m))) ∧
     Z.of_nat (length (list_ (mem (shared m)))) <= cap) ∧
  ¬ panics m.
Proof.
  intros Hpos Hreach.
  destruct (serialized_reachable cap progs m Hreach) as (hist & base & He & Hm).
  destruct (exec_inv hist (NewLRUCache cap) Hpos (inv_New cap Hpos))
    as (base_ & He' & [Hwf Hle] & Hcap).
  rewrite He in He'. injection He' as <-. simpl in Hcap.
  split; [|split; [|split]].
  - intros i t Hi Hpc. destruct (mu (shared m)) eqn:Hmu.
    2:{ destruct Hm as [_ Hidle]. by specialize (Hidle i t Hi). }
    split; [done|]. destruct Hm as (i0 & t0 & Hi0 & Hat & Hothers).
    assert (i = i0) as ->.
    { destruct (decide (i = i0)) as [|Hne]; [done|].
      by specialize (Hothers i t Hne Hi). }
    intros j t' Hj Hjt. pose proof (Hothers j t' Hj Hjt) as Hidle.
    split; [done|]. intros s'' t'' Hts.
    destruct (tstep_idle _ _ _ _ Hidle Hts) as (Hf & _). congruence.
  - intros i t s' t' Hi Hpc Hts.
    destruct (tstep_idle _ _ _ _ Hpc Hts) as (H1 & H2 & H3 & _). done.
  - intros Hmu. rewrite Hmu in Hm. destruct Hm as [-> Hidle].
    split; [done|]. split; [by exists hist|]. split; [done|].
    split; [apply Hwf|].
    rewrite <-(wf_size _ Hwf). unfold len in Hle. lia.
  - intros (i & t & Hi & Hp).
    destruct (mu (shared m)) eqn:Hmu.
    + destruct Hm as (i0 & t0 & Hi0 & Hat & Hothers).
      destruct (decide (i = i0)) as [->|Hne].
      * assert (t0 = t) as -> by congruence.
        by apply (tstep_at_pc_no_panic base (shared m) t).
      * by apply (tstep_idle_no_panic (shared m) t (Hothers i t Hne Hi)).
    + destruct Hm as [_ Hidle].
      by apply (tstep_idle_no_panic (shared m) t (Hidle i t Hi)).
Qed.

Lemma mutex_serializes_calls_witness :
  0 < 1 ∧
  rtc mstep (init 1 [[OpPut "a" [x01]]; [OpGet "a"]])
    (run_sched [0; 1; 0; 1; 0; 0]%nat
       (init 1 [[OpPut "a" [x01]]; [OpGet "a"]])) ∧
  ¬ panics (run_sched [0; 1; 0; 1; 0; 0]%nat
              (init 1 [[OpPut "a" [x01]]; [OpGet "a"]])) ∧
  ∀ i t,
    threads (run_sched [0; 1; 0; 1; 0; 0]%nat
               (init 1 [[OpPut "a" [x01]]; [OpGet "a"]])) !! i = Some t →
    pc t ≠ Idle →
    mu (shared (run_sched [0; 1; 0; 1; 0; 0]%nat
                  (init 1 [[OpPut "a" [x01]]; [OpGet "a"]]))) = true ∧
    ∀ j t', j ≠ i →
      threads (run_sched [0; 1; 0; 1; 0; 0]%nat
                 (init 1 [[OpPut "a" [x01]]; [OpGet "a"]])) !! j = Some t' →
      pc t' = Idle ∧
      ∀ s'' t'',
        tstep (shared (run_sched [0; 1; 0; 1; 0; 0]%nat
                         (init 1 [[OpPut "a" [x01]]; [OpGet "a"]]))) t'
        ≠ Next s'' t''.
Proof.
  split; [lia|]. split; [apply run_sched_reachable|].
  pose proof (mutex_serializes_calls 1 [[OpPut "a" [x01]]; [OpGet "a"]]
                (run_sched [0; 1; 0; 1; 0; 0]%nat
                   (init 1 [[OpPut "a" [x01]]; [OpGet "a"]]))
                ltac:(lia) (run_sched_reachable _ _)) as (H1 & _ & _ & H4).
  split; [exact H4|exact H1].
Defined.

(** * Further properties of the cache *)

Import Entries.

(** What [Put] does to the other keys: at most one of them goes, the key
    of the last element of the list, and only when the key put is new and
    the cache is full. *)
Lemma Put_frame k v lru :
  wf lru →
  ∃ lru' lost,
    Put k v lru = Some lru' ∧ wf lru' ∧ peek k lru' = Some v ∧
    (∀ k', k' ≠ k →
       peek k' lru' = if decide (lost = Some k') then None else peek k' lru) ∧
    (lost = None ∧
       (is_Some (cache lru !! k) ∨ len (cache lru) < capacity lru ∨
        list_ lru = []) ∨
     ∃ l x it, lost = Some (key it) ∧ cache lru !! k = None ∧
               len (cache lru) >= capacity lru ∧
               list_ lru = l ++ [x] ∧ items lru !! x = Some it).
Proof.
  intros Hwf.
  destruct (Put_wf k v lru Hwf) as (lru' & HP & Hwf' & _).
  destruct (Put_lookup k v lru lru' Hwf HP) as (e0 & Hk0 & Hit0 & _).
  assert (Hpk : peek k lru' = Some v) by (apply peek_Some; eauto).
  assert (Hfresh : ∀ k' e, cache lru !! k' = Some e → e ≠ next lru).
  { intros k' e Hke. destruct (wf_index _ Hwf k' e Hke) as [Hin _].
    apply (wf_fresh _ Hwf) in Hin. lia. }
  assert (Hnew : ∀ c0 l0, (∀ k' e, c0 !! k' = Some e → cache lru !! k' = Some e) →
            ∀ k', k' ≠ k →
              peek k' (insert_new k v (mkLRU (capacity lru) c0 l0 (items lru) (next lru)))
              = peek k' (mkLRU (capacity lru) c0 l0 (items lru) (next lru))).
  { intros c0 l0 Hsub k' Hne. unfold peek. simpl.
    rewrite lookup_insert_ne by done.
    destruct (c0 !! k') as [e|] eqn:Hk'; [|done]. simpl.
    rewrite lookup_insert_ne; [done|]. intros Heq.
    by apply (Hfresh k' e); [apply Hsub|]. }
  exists lru'.
  destruct (cache lru !! k) as [e|] eqn:Hk.
  - exists None. split; [done|]. split; [done|]. split; [done|].
    split; [|left; split; [done|left; eauto]]. intros k' Hne. rewrite decide_False by done.
    rewrite (Put_hit k v e) in HP by done. injection HP as <-.
    unfold peek. simpl. destruct (cache lru !! k') as [e'|] eqn:Hk'; [|done].
    simpl. rewrite lookup_insert_ne; [done|]. intros <-.
    destruct (wf_index _ Hwf k e Hk) as [_ [v1 H1]].
    destruct (wf_index _ Hwf k' e Hk') as [_ [v2 H2]]. congruence.
  - destruct (decide (len (cache lru) < capacity lru)) as [Hlt|Hge].
    { exists None. split; [done|]. split; [done|]. split; [done|].
      split; [|left; split; [done|right; by left]].
      intros k' Hne. rewrite decide_False by done.
      rewrite Put_miss_room in HP by done. injection HP as <-.
      destruct lru as [cap c l its n]. by apply (Hnew c l). }
    destruct (list_ lru) as [|x l0] eqn:Hl using rev_ind.
    { exists None. split; [done|]. split; [done|]. split; [done|].
      split; [|left; split; [done|right; by right]].
      intros k' Hne. rewrite decide_False by done.
      rewrite Put_miss_empty in HP by done. injection HP as <-.
      destruct lru as [cap c l its n]. by apply (Hnew c l). }
    clear IHl0.
    destruct (Put_miss_full k v lru l0 x Hwf Hk ltac:(lia) Hl)
      as (it & Hit & Hc & HP').
    rewrite HP' in HP. injection HP as <-.
    exists (Some (key it)). split; [done|]. split; [done|]. split; [done|].
    split.
    + intros k' Hne. rewrite Hnew; [| |done].
      2:{ intros k1 e1. rewrite lookup_delete. case_decide; [done|]. done. }
      unfold peek. simpl. case_decide as Hd.
      * injection Hd as ->. by rewrite lookup_delete_eq.
      * rewrite lookup_delete_ne; [done|]. intros Heq. by subst.
    + right. exists l0, x, it. split; [done|]. split; [done|].
      split; [lia|]. by split.
Qed.

Lemma exec_total ops lru :
  wf lru → ∃ lru', exec ops lru = Some lru' ∧ wf lru'.
Proof.
  revert lru. induction ops as [|op ops IH]; intros lru Hwf; simpl.
  - eauto.
  - destruct (step_wf op lru Hwf) as (lru1 & -> & Hwf1). simpl. by apply IH.
Qed.

Lemma NoDup_two_elems (e e' : Elem) l :
  NoDup l → e ∈ l → e' ∈ l → e ≠ e' → (2 ≤ length l)%nat.
Proof.
  intros Hnd He He' Hne. destruct l as [|a [|b l]]; simpl; [| |lia].
  - by apply elem_of_nil in He.
  - apply list_elem_of_singleton in He, He'. congruence.
Qed.

(** Two keys that are present are on two elements of the list. *)
Lemma two_keys_size k k' e e' lru :
  wf lru → k ≠ k' → cache lru !! k = Some e → cache lru !! k' = Some e' →
  (2 ≤ length (list_ lru))%nat.
Proof.
  intros Hwf Hne Hk Hk'.
  destruct (wf_index _ Hwf k e Hk) as [Hin [v Hv]].
  destruct (wf_index _ Hwf k' e' Hk') as [Hin' [v' Hv']].
  apply (NoDup_two_elems e e'); [apply Hwf|done|done|].
  intros <-. congruence.
Qed.

Lemma Put_len_bound k v lru lru' :
  wf lru → len (cache lru) <= Z.max 1 (capacity lru) →
  Put k v lru = Some lru' →
  len (cache lru') <= Z.max 1 (capacity lru) ∧ capacity lru' = capacity lru.
Proof.
  intros Hwf Hle HP. pose proof (wf_size _ Hwf) as Hsz.
  destruct (cache lru !! k) as [e|] eqn:Hk.
  - rewrite (Put_hit k v e) in HP by done. by injection HP as <-.
  - destruct (decide (len (cache lru) < capacity lru)) as [Hlt|Hge].
    { rewrite Put_miss_room in HP by done. injection HP as <-.
      unfold len in *. simpl. rewrite map_size_insert_None by done.
      split; [lia|done]. }
    destruct (list_ lru) as [|x l0] eqn:Hl using rev_ind.
    { rewrite Put_miss_empty in HP by done. injection HP as <-.
      unfold len in *. simpl. rewrite map_size_insert_None by done.
      simpl in Hsz. split; [lia|done]. }
    clear IHl0.
    destruct (Put_miss_full k v lru l0 x Hwf Hk ltac:(lia) Hl)
      as (it & Hit & Hc & HP').
    rewrite HP' in HP. injection HP as <-. unfold len in *. simpl.
    rewrite map_size_insert_None.
    2:{ rewrite lookup_delete_ne; [done|]. intros Heq. congruence. }
    rewrite map_size_delete_Some by eauto.
    rewrite length_app in Hsz. simpl in Hsz. split; [lia|done].
Qed.

Lemma exec_len_bound ops lru lru' :
  wf lru → len (cache lru) <= Z.max 1 (capacity lru) →
  exec ops lru = Some lru' →
  wf lru' ∧ len (cache lru') <= Z.max 1 (capacity lru) ∧
  capacity lru' = capacity lru.
Proof.
  revert lru. induction ops as [|op ops IH]; intros lru Hwf Hle; simpl.
  - by intros [= <-].
  - destruct (step op lru) as [lru1|] eqn:Hst; [|done]. simpl. intros He.
    assert (wf lru1 ∧ len (cache lru1) <= Z.max 1 (capacity lru) ∧
            capacity lru1 = capacity lru) as (Hwf1 & Hle1 & Hcap1).
    { destruct op as [k|k v]; simpl in Hst.
      - destruct (Get_wf k lru Hwf) as (r & lru2 & HG & Hwf2 & Hc & Hcap).
        rewrite HG in Hst. simpl in Hst. injection Hst as <-.
        by rewrite Hc.
      - destruct (Put_wf k v lru Hwf) as (lru2 & HP & Hwf2 & _).
        rewrite HP in Hst. injection Hst as <-.
        split; [done|]. by apply (Put_len_bound k v lru). }
    rewrite <-Hcap1 in Hle1.
    destruct (IH lru1 Hwf1 Hle1 He) as (H1 & H2 & H3).
    split; [done|]. rewrite <-Hcap1. split; [done|]. congruence.
Qed.

(** X1: whatever the capacity given to [NewLRUCache], zero and negative
    ones too, every sequence of operations runs, and the cache never holds
    more than the capacity or one entry, whichever is larger; with a
    capacity of zero or less a [Put] leaves exactly one entry, so the
    capacity is exceeded. *)
Theorem size_bound_any_capacity (cap : Z) (ops : list Op) :
  ∃ lru, exec ops (NewLRUCache cap) = Some lru ∧
    len (cache lru) <= Z.max 1 cap ∧
    Z.of_nat (length (list_ lru)) <= Z.max 1 cap ∧
    (cap <= 0 →
     ∀ k v, ∃ lru', Put k v lru = Some lru' ∧ len (cache lru') = 1).
Proof.
  destruct (exec_total ops (NewLRUCache cap) (wf_New cap)) as (lru & He & Hwf).
  assert (H0 : len (cache (NewLRUCache cap)) <= Z.max 1 (capacity (NewLRUCache cap))).
  { unfold len. simpl. rewrite map_size_empty. lia. }
  destruct (exec_len_bound ops _ lru (wf_New cap) H0 He) as (_ & Hle & Hcap).
  simpl in Hle, Hcap.
  exists lru. split; [done|]. split; [done|].
  split. { rewrite <-(wf_size _ Hwf). exact Hle. }
  intros Hneg k v.
  destruct (Put_wf k v lru Hwf) as (lru' & HP & Hwf' & _).
  exists lru'. split; [done|].
  assert (Hle' : len (cache lru') <= Z.max 1 (capacity lru)).
  { apply (Put_len_bound k v lru lru'); [done| |done]. by rewrite Hcap. }
  destruct (Put_lookup k v lru lru' Hwf HP) as (e & Hk & _).
  assert (size (cache lru') ≠ 0%nat).
  { intros H0'. apply map_size_empty_inv in H0'. rewrite H0' in Hk.
    by rewrite lookup_empty in Hk. }
  unfold len in *. lia.
Qed.

Lemma size_bound_any_capacity_witness :
  ∃ lru, exec [OpPut "a" [x01]; OpPut "b" [x02]] (NewLRUCache 0) = Some lru ∧
    len (cache lru) <= Z.max 1 0 ∧
    Z.of_nat (length (list_ lru)) <= Z.max 1 0 ∧
    (0 <= 0 →
     ∀ k v, ∃ lru', Put k v lru = Some lru' ∧ len (cache lru') = 1).
Proof. apply (size_bound_any_capacity 0). Defined.

(** X2: a cache of capacity one or less holds the last key put and no
    other: after [Put k v] every other key is absent. *)
Theorem small_capacity_keeps_last_key (cap : Z) (ops : list Op)
    (k : string) (v : list byte) :
  cap <= 1 →
  ∃ lru lru', exec ops (NewLRUCache cap) = Some lru ∧
    Put k v lru = Some lru' ∧ peek k lru' = Some v ∧
    ∀ k', k' ≠ k → peek k' lru' = None.
Proof.
  intros Hcap.
  destruct (exec_total ops (NewLRUCache cap) (wf_New cap)) as (lru & He & Hwf).
  assert (H0 : len (cache (NewLRUCache cap)) <= Z.max 1 (capacity (NewLRUCache cap))).
  { unfold len. simpl. rewrite map_size_empty. lia. }
  destruct (exec_len_bound ops _ lru (wf_New cap) H0 He) as (_ & Hle & Hc).
  simpl in Hle, Hc. pose proof (wf_size _ Hwf) as Hsz.
  destruct (Put_frame k v lru Hwf) as (lru' & lost & HP & _ & Hpk & Hfr & Hlost).
  exists lru, lru'. do 3 (split; [done|]). intros k' Hne.
  rewrite (Hfr k' Hne). case_decide as Hd; [done|].
  destruct (peek k' lru) as [v'|] eqn:Hp; [exfalso|done].
  apply (peek_Some k' v' lru Hwf) in Hp as (e' & Hk' & Hit').
  destruct (wf_index _ Hwf k' e' Hk') as [Hin' _].
  unfold len in *.
  destruct Hlost as [[_ [[e Hk]|[Hlt|Hnil]]]|(l & x & it & Hl & _ & _ & Hlist & Hit)].
  - pose proof (two_keys_size k k' e e' lru Hwf ltac:(done) Hk Hk'). lia.
  - assert (size (cache lru) ≠ 0%nat); [|lia].
    intros Hz. apply map_size_empty_inv in Hz. rewrite Hz in Hk'.
    by rewrite lookup_empty in Hk'.
  - rewrite Hnil in Hin'. by apply elem_of_nil in Hin'.
  - rewrite Hlist, length_app in Hsz. simpl in Hsz.
    assert (l = []) as -> by (destruct l; [done|simpl in Hsz; lia]).
    rewrite Hlist in Hin'. apply list_elem_of_singleton in Hin'. subst x.
    rewrite Hit' in Hit. injection Hit as <-. simpl in Hl. congruence.
Qed.

Lemma small_capacity_keeps_last_key_witness :
  0 <= 1 ∧
  ∃ lru lru', exec [OpPut "a" [x01]; OpGet "a"] (NewLRUCache 0) = Some lru ∧
    Put "b" [x02] lru = Some lru' ∧ peek "b" lru' = Some [x02] ∧
    ∀ k', k' ≠ "b" → peek k' lru' = None.
Proof.
  split; [lia|]. apply (small_capacity_keeps_last_key 0). lia.
Defined.

(** X3: [Get] changes neither the map nor any item, so no key appears,
    disappears or changes its value, and it only reorders the list; a
    second [Get] of the same key returns the same result and changes
    nothing at all. *)
Theorem Get_only_reorders (k : string) (lru : LRUCache) :
  wf lru →
  ∃ r lru1, Get k lru = Some (r, lru1) ∧
    cache lru1 = cache lru ∧ items lru1 = items lru ∧
    list_ lru1 ≡ₚ list_ lru ∧
    (∀ k', peek k' lru1 = peek k' lru) ∧
    Get k lru1 = Some (r, lru1).
Proof.
  intros Hwf. destruct (cache lru !! k) as [e|] eqn:Hk.
  - destruct (Get_hit k e lru Hwf Hk) as (v & Hv & HG).
    destruct (wf_index _ Hwf k e Hk) as [Hin _].
    eexists _, _. split; [exact HG|]. simpl.
    split; [done|]. split; [done|]. split.
    { rewrite <-MoveToFront_eq by (done || apply Hwf).
      apply MoveToFront_perm, Hwf. }
    split; [done|].
    unfold Get. simpl. rewrite Hk. simpl. rewrite Hv. simpl.
    unfold MoveToFront. rewrite decide_True by (by left).
    by rewrite decide_True.
  - rewrite Get_miss by done. eexists _, _. split; [done|].
    by rewrite Get_miss.
Qed.

Lemma Get_only_reorders_witness :
  wf (insert_new "b" [x02] (insert_new "a" [x01] (NewLRUCache 2))) ∧
  ∃ r lru1,
    Get "a" (insert_new "b" [x02] (insert_new "a" [x01] (NewLRUCache 2)))
    = Some (r, lru1) ∧
    cache lru1
    = cache (insert_new "b" [x02] (insert_new "a" [x01] (NewLRUCache 2))) ∧
    items lru1
    = items (insert_new "b" [x02] (insert_new "a" [x01] (NewLRUCache 2))) ∧
    list_ lru1
    ≡ₚ list_ (insert_new "b" [x02] (insert_new "a" [x01] (NewLRUCache 2))) ∧
    (∀ k', peek k' lru1
           = peek k' (insert_new "b" [x02]
                        (insert_new "a" [x01] (NewLRUCache 2)))) ∧
    Get "a" lru1 = Some (r, lru1).
Proof.
  assert (Hwf : wf (insert_new "b" [x02] (insert_new "a" [x01] (NewLRUCache 2)))).
  { apply wf_insert_new; [apply wf_insert_new; [apply wf_New|reflexivity]|].
    vm_compute. reflexivity. }
  split; [exact Hwf|]. exact (Get_only_reorders "a" _ Hwf).
Defined.

(** X4: [Put k v] never changes the value of another key. When [k] is
    present, or the cache is below its capacity, every other key stays as
    it is; otherwise at most one other key goes and the rest stay. *)
Theorem Put_keeps_other_keys (k : string) (v : list byte) (lru : LRUCache) :
  wf lru →
  ∃ lru', Put k v lru = Some lru' ∧
    (∀ k', k' ≠ k → peek k' lru' = peek k' lru ∨ peek k' lru' = None) ∧
    (is_Some (cache lru !! k) ∨ len (cache lru) < capacity lru →
     ∀ k', k' ≠ k → peek k' lru' = peek k' lru) ∧
    (∀ k1 k2, k1 ≠ k → k2 ≠ k →
       peek k1 lru' ≠ peek k1 lru → peek k2 lru' ≠ peek k2 lru → k1 = k2).
Proof.
  intros Hwf.
  destruct (Put_frame k v lru Hwf) as (lru' & lost & HP & _ & _ & Hfr & Hlost).
  exists lru'. split; [done|]. split; [|split].
  - intros k' Hne. rewrite (Hfr k' Hne). case_decide; [by right|by left].
  - intros Hcase k' Hne. rewrite (Hfr k' Hne).
    destruct Hlost as [[-> _]|(l & x & it & _ & Hk & Hge & _)].
    + by rewrite decide_False.
    + destruct Hcase as [[e He]|Hlt]; [congruence|lia].
  - intros k1 k2 H1 H2. rewrite (Hfr k1 H1), (Hfr k2 H2).
    repeat case_decide; try done. congruence.
Qed.

Lemma Put_keeps_other_keys_witness :
  wf (insert_new "b" [x02] (insert_new "a" [x01] (NewLRUCache 2))) ∧
  ∃ lru',
    Put "c" [x03] (insert_new "b" [x02] (insert_new "a" [x01] (NewLRUCache 2)))
    = Some lru' ∧
    (∀ k', k' ≠ "c" →
       peek k' lru'
       = peek k' (insert_new "b" [x02] (insert_new "a" [x01] (NewLRUCache 2)))
       ∨ peek k' lru' = None) ∧
    (is_Some (cache (insert_new "b" [x02]
                       (insert_new "a" [x01] (NewLRUCache 2))) !! "c")
     ∨ len (cache (insert_new "b" [x02]
                     (insert_new "a" [x01] (NewLRUCache 2))))
       < capacity (insert_new "b" [x02]
                     (insert_new "a" [x01] (NewLRUCache 2))) →
     ∀ k', k' ≠ "c" →
       peek k' lru'
       = peek k' (insert_new "b" [x02]
                    (insert_new "a" [x01] (NewLRUCache 2)))) ∧
    (∀ k1 k2, k1 ≠ "c" → k2 ≠ "c" →
       peek k1 lru'
       ≠ peek k1 (insert_new "b" [x02] (insert_new "a" [x01] (NewLRUCache 2))) →
       peek k2 lru'
       ≠ peek k2 (insert_new "b" [x02] (insert_new "a" [x01] (NewLRUCache 2))) →
       k1 = k2).
Proof.
  assert (Hwf : wf (insert_new "b" [x02] (insert_new "a" [x01] (NewLRUCache 2)))).
  { apply wf_insert_new; [apply wf_insert_new; [apply wf_New|reflexivity]|].
    vm_compute. reflexivity. }
  split; [exact Hwf|]. exact (Put_keeps_other_keys "c" [x03] _ Hwf).
Defined.

(** The key on the element in front is not the one the next [Put] of
    another key pushes out, in a cache of capacity two or more. *)
Lemma front_key_survives k k' v v' e lru :
  wf lru → 2 <= capacity lru →
  head (list_ lru) = Some e → cache lru !! k = Some e →
  peek k lru = Some v → k' ≠ k →
  ∃ lru', Put k' v' lru = Some lru' ∧ peek k lru' = Some v.
Proof.
  intros Hwf Hcap Hhead Hk Hp Hne.
  destruct (Put_frame k' v' lru Hwf) as (lru' & lost & HP & _ & _ & Hfr & Hlost).
  exists lru'. split; [done|]. rewrite Hfr by done.
  rewrite decide_False; [done|]. intros ->.
  destruct Hlost as [[? _]|(l & x & it & Hl & _ & Hge & Hlist & Hit)]; [done|].
  injection Hl as Hl.
  assert (Hx : x ∈ list_ lru) by (rewrite Hlist, elem_of_app; right; by left).
  destruct (wf_entry _ Hwf x Hx) as (it' & Hit' & Hc').
  assert (it' = it) as -> by congruence.
  rewrite <-Hl, Hk in Hc'. injection Hc' as ->.
  pose proof (wf_nodup _ Hwf) as Hnd. pose proof (wf_size _ Hwf) as Hsz.
  rewrite Hlist in Hnd, Hhead, Hsz.
  destruct l as [|y l]; simpl in *.
  - unfold len in Hge. lia.
  - injection Hhead as ->. apply NoDup_cons in Hnd as [Hnd _].
    apply Hnd. rewrite elem_of_app. right. by left.
Qed.

(** X5: in a cache of capacity two or more, the key just used, by a [Put]
    or by a [Get] that found it, is still there with its value after a
    [Put] of another key. *)
Theorem used_key_survives_next_Put (k k' : string) (v' : list byte)
    (lru : LRUCache) :
  wf lru → 2 <= capacity lru → k' ≠ k →
  (∀ v, ∃ lru1 lru2,
     Put k v lru = Some lru1 ∧ Put k' v' lru1 = Some lru2 ∧
     peek k lru2 = Some v) ∧
  (∀ v lru1, Get k lru = Some ((v, true), lru1) →
     ∃ lru2, Put k' v' lru1 = Some lru2 ∧ peek k lru2 = Some v).
Proof.
  intros Hwf Hcap Hne. split.
  - intros v. destruct (Put_wf k v lru Hwf) as (lru1 & HP & Hwf1 & Hcap1 & _).
    destruct (Put_lookup k v lru lru1 Hwf HP) as (e & Hk & Hit & Hhead).
    assert (Hp : peek k lru1 = Some v) by (apply peek_Some; eauto).
    destruct (front_key_survives k k' v v' e lru1 Hwf1 ltac:(lia) Hhead Hk Hp Hne)
      as (lru2 & HP2 & Hp2).
    eauto.
  - intros v lru1 HG. destruct (cache lru !! k) as [e|] eqn:Hk.
    2:{ rewrite Get_miss in HG by done. by injection HG. }
    destruct (Get_hit k e lru Hwf Hk) as (v0 & Hv0 & HG').
    rewrite HG' in HG. injection HG as -> <-.
    destruct (wf_index _ Hwf k e Hk) as [Hin _].
    apply (front_key_survives k k' v v' e); try done.
    + by apply wf_touch.
    + apply peek_Some; [by apply wf_touch|]. eauto.
Qed.

Lemma used_key_survives_next_Put_witness :
  wf (insert_new "b" [x02] (insert_new "a" [x01] (NewLRUCache 2))) ∧
  2 <= capacity (insert_new "b" [x02] (insert_new "a" [x01] (NewLRUCache 2))) ∧
  "c" ≠ "a" ∧
  ∀ v lru1,
    Get "a" (insert_new "b" [x02] (insert_new "a" [x01] (NewLRUCache 2)))
    = Some ((v, true), lru1) →
    ∃ lru2, Put "c" [x03] lru1 = Some lru2 ∧ peek "a" lru2 = Some v.
Proof.
  assert (Hwf : wf (insert_new "b" [x02] (insert_new "a" [x01] (NewLRUCache 2)))).
  { apply wf_insert_new; [apply wf_insert_new; [apply wf_New|reflexivity]|].
    vm_compute. reflexivity. }
  assert (Hcap : 2 <= capacity (insert_new "b" [x02]
                                   (insert_new "a" [x01] (NewLRUCache 2))))
    by (simpl; lia).
  assert (Hne : "c" ≠ "a") by discriminate.
  split; [exact Hwf|]. split; [exact Hcap|]. split; [exact Hne|].
  exact (proj2 (used_key_survives_next_Put "a" "c" [x03] _ Hwf Hcap Hne)).
Defined.

Lemma last_put_snoc k ops op :
  last_put k (ops ++ [op])
  = match op with
    | OpPut k' v => if decide (k' = k) then Some v else last_put k ops
    | OpGet _ => last_put k ops
    end.
Proof.
  induction ops as [|o ops IH]; simpl.
  - destruct op as [|k' v]; [done|]. by case_decide.
  - rewrite IH. destruct op as [|k' v]; [done|].
    case_decide; [done|]. done.
Qed.

(** The values in the cache are the values of the last [Put]s. *)
Lemma exec_last_put ops lru0 lru :
  wf lru0 → (∀ k, peek k lru0 = None) → exec ops lru0 = Some lru →
  ∀ k v, peek k lru = Some v → last_put k ops = Some v.
Proof.
  intros Hwf0 Hempty. revert lru.
  induction ops as [|op ops IH] using rev_ind; intros lru He k v Hp.
  - simpl in He. injection He as <-. by rewrite Hempty in Hp.
  - rewrite exec_app in He.
    destruct (exec ops lru0) as [lru1|] eqn:He1; [|done].
    simpl in He. destruct (step op lru1) as [lru2|] eqn:Hst; [|done].
    simpl in He. injection He as <-.
    pose proof (exec_wf ops lru0 lru1 Hwf0 He1) as Hwf1.
    rewrite last_put_snoc. destruct op as [k0|k0 v0]; simpl in Hst.
    + destruct (Get_peek k0 lru1 Hwf1) as (lru' & HG & Hsame).
      rewrite HG in Hst. simpl in Hst. injection Hst as <-.
      rewrite Hsame in Hp. by apply (IH lru1).
    + destruct (Put_frame k0 v0 lru1 Hwf1)
        as (lru' & lost & HP & _ & Hpk & Hfr & _).
      rewrite HP in Hst. injection Hst as <-.
      case_decide as Hd.
      * subst k0. congruence.
      * rewrite Hfr in Hp by done. case_decide; [done|]. by apply (IH lru1).
Qed.

(** X6: a [Get] that finds its key returns the value of the last [Put] of
    that key in the history of the cache, never an older one. *)
Theorem Get_returns_last_Put (cap : Z) (ops : list Op) (k : string) :
  ∃ lru r lru', exec ops (NewLRUCache cap) = Some lru ∧
    Get k lru = Some (r, lru') ∧
    (r.2 = true → last_put k ops = Some r.1).
Proof.
  destruct (exec_total ops (NewLRUCache cap) (wf_New cap)) as (lru & He & Hwf).
  destruct (Get_peek k lru Hwf) as (lru' & HG & _).
  exists lru. eexists _, lru'. split; [done|]. split; [exact HG|].
  destruct (peek k lru) as [v|] eqn:Hp; simpl; [|done].
  intros _. by apply (exec_last_put ops (NewLRUCache cap) lru (wf_New cap)).
Qed.

Lemma Get_returns_last_Put_witness :
  ∃ lru r lru',
    exec [OpPut "a" [x01]; OpPut "b" [x02]; OpPut "a" [x03]] (NewLRUCache 2)
    = Some lru ∧
    Get "a" lru = Some (r, lru') ∧
    (r.2 = true →
     last_put "a" [OpPut "a" [x01]; OpPut "b" [x02]; OpPut "a" [x03]]
     = Some r.1).
Proof. apply (Get_returns_last_Put 2). Defined.

(** ** The cache seen as its list of entries *)

Lemma omap_items_ext (its its' : gmap Elem CacheItem) (l : list Elem) :
  (∀ e, e ∈ l → its' !! e = its !! e) →
  omap (λ e, (λ it, (key it, value it)) <$> its' !! e) l
  = omap (λ e, (λ it, (key it, value it)) <$> its !! e) l.
Proof.
  induction l as [|x l IH]; intros Hext; csimpl; [done|].
  rewrite (Hext x) by (by left).
  rewrite IH; [done|]. intros e He. apply Hext. by right.
Qed.

Lemma length_omap_items (its : gmap Elem CacheItem) (l : list Elem) :
  (∀ e, e ∈ l → is_Some (its !! e)) →
  length (omap (λ e, (λ it, (key it, value it)) <$> its !! e) l) = length l.
Proof.
  induction l as [|x l IH]; intros Hres; csimpl; [done|].
  destruct (Hres x) as [it Hit]; [by left|]. rewrite Hit. csimpl.
  rewrite IH; [done|]. intros e He. apply Hres. by right.
Qed.

Lemma assoc_omap_absent (its : gmap Elem CacheItem) (l : list Elem) k :
  (∀ e it, e ∈ l → its !! e = Some it → key it ≠ k) →
  assoc k (omap (λ e, (λ it, (key it, value it)) <$> its !! e) l) = None.
Proof.
  induction l as [|x l IH]; intros Hne; csimpl; [done|].
  assert (IH' : assoc k (omap (λ e, (λ it, (key it, value it)) <$> its !! e) l)
                = None).
  { apply IH. intros e it He. apply Hne. by right. }
  destruct (its !! x) as [it|] eqn:Hit; csimpl; [|done].
  rewrite decide_False; [done|]. apply (Hne x it); [by left|done].
Qed.

Lemma assoc_omap_present (its : gmap Elem CacheItem) (l : list Elem) k v e :
  e ∈ l → its !! e = Some (mkItem k v) →
  (∀ e' it, e' ∈ l → its !! e' = Some it → key it = k → e' = e) →
  assoc k (omap (λ e, (λ it, (key it, value it)) <$> its !! e) l) = Some v.
Proof.
  induction l as [|x l IH]; intros Hin Hit Huniq; csimpl.
  - by apply elem_of_nil in Hin.
  - destruct (its !! x) as [it|] eqn:Hx; csimpl.
    + case_decide as Hd.
      * assert (x = e) as -> by (apply (Huniq x it); [by left|done|done]).
        rewrite Hit in Hx. by injection Hx as <-.
      * apply IH; [|done|].
        -- apply elem_of_cons in Hin as [->|Hin]; [|done].
           rewrite Hit in Hx. injection Hx as <-. done.
        -- intros e' it' He'. apply Huniq. by right.
    + apply IH; [|done|].
      * apply elem_of_cons in Hin as [->|Hin]; [congruence|done].
      * intros e' it' He'. apply Huniq. by right.
Qed.

Lemma without_omap (its : gmap Elem CacheItem) (l : list Elem) k e :
  (∀ e', e' ∈ l → ∃ it, its !! e' = Some it ∧ (key it = k ↔ e' = e)) →
  omap (λ e, (λ it, (key it, value it)) <$> its !! e) (Remove e l)
  = without k (omap (λ e, (λ it, (key it, value it)) <$> its !! e) l).
Proof.
  unfold Remove, without.
  induction l as [|x l IH]; intros Hl; csimpl; [done|].
  destruct (Hl x) as (it & Hit & Hiff); [by left|].
  assert (IH' : omap (λ e, (λ it, (key it, value it)) <$> its !! e)
                  (filter (λ x, x ≠ e) l)
                = filter (λ p, p.1 ≠ k)
                    (omap (λ e, (λ it, (key it, value it)) <$> its !! e) l)).
  { apply IH. intros e' He'. apply Hl. by right. }
  rewrite filter_cons. rewrite Hit. csimpl. rewrite filter_cons. csimpl.
  destruct (decide (x = e)) as [->|Hne].
  - rewrite decide_False by (intros ?; done).
    rewrite decide_False; [done|]. intros Hk. apply Hk. by apply Hiff.
  - rewrite decide_True by done. csimpl. rewrite Hit. csimpl.
    rewrite decide_True; [by rewrite IH'|]. intros Hk. by apply Hne, Hiff.
Qed.

(** In a well-formed cache an element carries the key [k] exactly when it
    is the element the map gives for [k]. *)
Lemma wf_key_elem lru k e :
  wf lru → cache lru !! k = Some e →
  ∀ e', e' ∈ list_ lru →
    ∃ it, items lru !! e' = Some it ∧ (key it = k ↔ e' = e).
Proof.
  intros Hwf Hk e' Hin. destruct (wf_entry _ Hwf e' Hin) as (it & Hit & Hc).
  exists it. split; [done|]. split.
  - intros Heq. rewrite Heq in Hc. congruence.
  - intros ->. destruct (wf_index _ Hwf k e Hk) as [_ [v Hv]].
    rewrite Hv in Hit. by injection Hit as <-.
Qed.

Lemma assoc_entries k lru : wf lru → assoc k (entries lru) = peek k lru.
Proof.
  intros Hwf. unfold entries, peek.
  destruct (cache lru !! k) as [e|] eqn:Hk; simpl.
  - destruct (wf_index _ Hwf k e Hk) as [Hin [v Hv]]. rewrite Hv. simpl.
    apply (assoc_omap_present _ _ k v e); [done|done|].
    intros e' it He' Hit' Hkey.
    destruct (wf_key_elem lru k e Hwf Hk e' He') as (it2 & Hit2 & Hiff).
    apply Hiff. congruence.
  - apply assoc_omap_absent. intros e it He Hit Hkey.
    destruct (wf_entry _ Hwf e He) as (it2 & Hit2 & Hc). congruence.
Qed.

Lemma entries_touch k e (its' : gmap Elem CacheItem) lru :
  wf lru → cache lru !! k = Some e →
  (∀ e', e' ≠ e → its' !! e' = items lru !! e') →
  omap (λ e, (λ it, (key it, value it)) <$> its' !! e) (Remove e (list_ lru))
  = without k (entries lru).
Proof.
  intros Hwf Hk Hsame. unfold entries.
  rewrite <-(without_omap (items lru) (list_ lru) k e)
    by (by apply wf_key_elem).
  apply omap_items_ext. intros e' [Hne _]%elem_of_Remove. by apply Hsame.
Qed.

Lemma Get_entries k lru :
  wf lru →
  ∃ lru', Get k lru = Some ((AGet k (entries lru)).1, lru') ∧
          entries lru' = (AGet k (entries lru)).2.
Proof.
  intros Hwf. unfold AGet. rewrite assoc_entries by done. unfold peek.
  destruct (cache lru !! k) as [e|] eqn:Hk; simpl.
  - destruct (Get_hit k e lru Hwf Hk) as (v & Hv & HG). rewrite Hv. simpl.
    eexists. split; [exact HG|]. unfold entries at 1. simpl. rewrite Hv. simpl.
    f_equal. by apply entries_touch.
  - rewrite Get_miss by done. by eexists.
Qed.

Lemma Put_entries k v lru :
  wf lru →
  ∃ lru', Put k v lru = Some lru' ∧
          entries lru' = APut (capacity lru) k v (entries lru).
Proof.
  intros Hwf. unfold APut. rewrite assoc_entries by done.
  assert (Hlen : Z.of_nat (length (entries lru)) = len (cache lru)).
  { unfold len. rewrite (wf_size _ Hwf). f_equal.
    apply length_omap_items. intros e He.
    destruct (wf_entry _ Hwf e He) as (it & -> & _). eauto. }
  assert (Hnew : ∀ c0 l0, (∀ e, e ∈ l0 → e ∈ list_ lru) →
    entries (insert_new k v (mkLRU (capacity lru) c0 l0 (items lru) (next lru)))
    = (k, v) :: omap (λ e, (λ it, (key it, value it)) <$> items lru !! e) l0).
  { intros c0 l0 Hsub. unfold entries, insert_new, PushFront. simpl.
    rewrite lookup_insert_eq. simpl. f_equal.
    apply omap_items_ext. intros e He. rewrite lookup_insert_ne; [done|].
    intros <-. apply Hsub, (wf_fresh _ Hwf) in He. lia. }
  unfold peek. destruct (cache lru !! k) as [e|] eqn:Hk; simpl.
  - destruct (wf_index _ Hwf k e Hk) as [Hin [v0 Hv0]]. rewrite Hv0. simpl.
    rewrite (Put_hit k v e) by done. eexists. split; [done|].
    unfold entries at 1. simpl. rewrite lookup_insert_eq. simpl. f_equal.
    apply entries_touch; [done|done|].
    intros e' Hne. by rewrite lookup_insert_ne.
  - rewrite Hlen.
    destruct (decide (len (cache lru) < capacity lru)) as [Hlt|Hge].
    { rewrite Put_miss_room by done. eexists. split; [done|].
      rewrite bool_decide_eq_false_2 by lia.
      destruct lru as [cap c l its n]. by apply (Hnew c l). }
    rewrite bool_decide_eq_true_2 by lia.
    destruct (list_ lru) as [|x l0] eqn:Hl using rev_ind.
    { rewrite Put_miss_empty by done. eexists. split; [done|].
      destruct lru as [cap c l its n]. simpl in *. subst l.
      rewrite (Hnew c []) by (intros e He; by apply elem_of_nil in He).
      done. }
    clear IHl0.
    destruct (Put_miss_full k v lru l0 x Hwf Hk ltac:(lia) Hl)
      as (it & Hit & Hc & ->).
    eexists. split; [done|].
    rewrite Hnew by (intros e He; rewrite ?Hl, elem_of_app; by left).
    f_equal. unfold entries. rewrite ?Hl, omap_app. simpl. rewrite Hit. simpl.
    rewrite length_app. simpl.
    replace (length (omap (λ e, (λ it0, (key it0, value it0)) <$> items lru !! e) l0)
             + 1 - 1)%nat
      with (length (omap (λ e, (λ it0, (key it0, value it0)) <$> items lru !! e) l0))
      by lia.
    by rewrite take_app_length.
Qed.

(** X7: seen through its entries (the keys with their values, the most
    recently used first) the cache is a list: a key's value is found in the
    list; [Get] returns it and moves the entry to the front; [Put] replaces
    the entry of a present key and moves it to the front, and for a new key
    drops the last entry when the list has reached the capacity and puts
    the new entry in front. *)
Theorem cache_is_its_entries (k : string) (v : list byte) (lru : LRUCache) :
  wf lru →
  assoc k (entries lru) = peek k lru ∧
  (∃ lru', Get k lru = Some ((AGet k (entries lru)).1, lru') ∧
           entries lru' = (AGet k (entries lru)).2) ∧
  (∃ lru', Put k v lru = Some lru' ∧
           entries lru' = APut (capacity lru) k v (entries lru)).
Proof.
  intros Hwf. split; [by apply assoc_entries|].
  split; [by apply Get_entries|by apply Put_entries].
Qed.

Lemma cache_is_its_entries_witness :
  wf (insert_new "b" [x02] (insert_new "a" [x01] (NewLRUCache 2))) ∧
  ∃ lru',
    Put "c" [x03] (insert_new "b" [x02] (insert_new "a" [x01] (NewLRUCache 2)))
    = Some lru' ∧
    entries lru'
    = APut (capacity (insert_new "b" [x02]
                        (insert_new "a" [x01] (NewLRUCache 2))))
        "c" [x03]
        (entries (insert_new "b" [x02] (insert_new "a" [x01] (NewLRUCache 2)))).
Proof.
  assert (Hwf : wf (insert_new "b" [x02] (insert_new "a" [x01] (NewLRUCache 2)))).
  { apply wf_insert_new; [apply wf_insert_new; [apply wf_New|reflexivity]|].
    vm_compute. reflexivity. }
  split; [exact Hwf|].
  exact (proj2 (proj2 (cache_is_its_entries "c" [x03] _ Hwf))).
Defined.

(** X8: whatever the capacity, the results of the [Get]s of a sequence of
    operations on a new cache are the results of the same operations on a
    list of entries that starts empty, where a present key moves to the
    front and a new key enters in front after the last entry has been
    dropped from a list that has reached the capacity. *)
Theorem observe_is_list_model (cap : Z) (ops : list Op) :
  observe ops (NewLRUCache cap) = Some (Aobserve cap ops []).
Proof.
  assert (Hgen : ∀ lru, wf lru →
    observe ops lru = Some (Aobserve (capacity lru) ops (entries lru))).
  { induction ops as [|op ops IH]; intros lru Hwf; simpl; [done|].
    destruct op as [k|k v].
    - destruct (Get_entries k lru Hwf) as (lru' & HG & He).
      destruct (Get_wf k lru Hwf) as (r & lru2 & HG2 & Hwf2 & _ & Hcap).
      rewrite HG in HG2. injection HG2 as <- <-.
      rewrite HG. simpl. rewrite (IH lru' Hwf2). simpl.
      by rewrite Hcap, He.
    - destruct (Put_entries k v lru Hwf) as (lru' & HP & He).
      destruct (Put_wf k v lru Hwf) as (lru2 & HP2 & Hwf2 & Hcap & _).
      rewrite HP in HP2. injection HP2 as <-.
      rewrite HP. simpl. rewrite (IH lru' Hwf2). by rewrite Hcap, He. }
  apply (Hgen (NewLRUCache cap)), wf_New.
Qed.

(** * Further properties of the handlers *)

Import Trace.

(** One request on a cache that satisfies the invariant: the handler
    returns, its trace holds one write of a response and at most one fetch,
    and the cache still satisfies the invariant. *)
Lemma handleRequest_inv clientGet url c :
  0 < capacity c → inv c →
  ∃ tr c', SelfURL.handleRequest clientGet url c = Some (tr, c') ∧
    inv c' ∧ capacity c' = capacity c ∧
    count is_response tr = 1%nat ∧ (count is_fetch tr ≤ 1)%nat.
Proof.
  intros Hpos [Hwf Hle]. unfold SelfURL.handleRequest.
  destruct (Get_wf url c Hwf) as ([body found] & c1 & -> & Hwf1 & Hc & Hcap).
  simpl. assert (Hinv1 : inv c1) by (split; [done|by rewrite Hc, Hcap]).
  destruct found.
  { eexists _, _. split; [done|]. split; [done|]. split; [done|].
    split; [done|]. unfold count. simpl. lia. }
  destruct (clientGet url) as [|resp].
  { eexists _, _. split; [done|]. split; [done|]. split; [done|].
    split; [done|]. unfold count. simpl. lia. }
  destruct (BodyErr resp).
  { eexists _, _. split; [done|]. split; [done|]. split; [done|].
    split; [done|]. unfold count. simpl. lia. }
  destruct (Put_wf url (Body resp) c1 Hwf1) as (c2 & -> & Hwf2 & Hcap2 & Hle2).
  simpl. eexists _, _. split; [done|]. split.
  { split; [done|]. rewrite Hcap2. apply Hle2; [lia|]. by rewrite Hc, Hcap. }
  split; [lia|]. split; [done|]. unfold count. simpl. lia.
Qed.

(** X9: from the global cache of capacity 10, any sequence of requests is
    served without a panic, whatever the fetches answer: each request gets
    exactly one write of a response and causes at most one fetch, and the
    cache stays well formed with at most 10 entries. *)
Theorem serve_every_request (clientGet : string → FetchResult)
    (urls : list string) :
  ∃ trs c', SelfURL.serve clientGet urls SelfURL.cache = Some (trs, c') ∧
    length trs = length urls ∧
    Forall (λ tr, count is_response tr = 1%nat ∧ (count is_fetch tr ≤ 1)%nat) trs ∧
    wf c' ∧ len (LRU.cache c') <= 10.
Proof.
  assert (Hgen : ∀ c, capacity c = 10 → inv c →
    ∃ trs c', SelfURL.serve clientGet urls c = Some (trs, c') ∧
      length trs = length urls ∧
      Forall (λ tr, count is_response tr = 1%nat ∧ (count is_fetch tr ≤ 1)%nat) trs ∧
      inv c' ∧ capacity c' = 10).
  { induction urls as [|url urls IH]; intros c Hcap Hinv; simpl.
    - exists [], c. split; [done|]. split; [done|]. split; [constructor|done].
    - destruct (handleRequest_inv clientGet url c ltac:(lia) Hinv)
        as (tr & c1 & -> & Hinv1 & Hcap1 & Hr & Hf).
      simpl. destruct (IH c1 ltac:(lia) Hinv1)
        as (trs & c' & -> & Hlen & Hall & Hinv' & Hcap').
      simpl. exists (tr :: trs), c'. split; [done|].
      split; [simpl; by rewrite Hlen|]. split; [by constructor|]. done. }
  destruct (Hgen SelfURL.cache eq_refl (inv_New 10 ltac:(lia)))
    as (trs & c' & He & Hlen & Hall & [Hwf Hle] & Hcap).
  exists trs, c'. rewrite Hcap in Hle. done.
Qed.

(** X10: a failure is not cached. When the key is absent and the fetch
    fails, or the body cannot be read, the request is answered with the
    error and the cache is left as it was, so that the same request made
    again, any number of times, fetches again each time. *)
Theorem failures_are_retried (clientGet : string → FetchResult)
    (url : string) (c : LRUCache) :
  LRU.cache c !! url = None →
  clientGet url = FetchError ∨
    (∃ resp, clientGet url = FetchOK resp ∧ BodyErr resp = true) →
  ∃ r, is_error r = true ∧
    ∀ n, SelfURL.serve clientGet (replicate n url) c
         = Some (replicate n [EvGet url; r], c).
Proof.
  intros Hmiss Hfail.
  assert (∃ r, is_error r = true ∧
               SelfURL.handleRequest clientGet url c = Some ([EvGet url; r], c))
    as (r & Hr & Hh).
  { unfold SelfURL.handleRequest. rewrite (Get_miss url c Hmiss). simpl.
    destruct Hfail as [->|(resp & -> & ->)];
      eexists; (split; [|reflexivity]); reflexivity. }
  exists r. split; [done|]. induction n as [|n IH]; simpl; [done|].
  rewrite Hh. simpl. by rewrite IH.
Qed.

Lemma failures_are_retried_witness :
  LRU.cache SelfURL.cache !! "/down" = None ∧
  ((λ _ : string, FetchError) "/down" = FetchError ∨
   (∃ resp, (λ _ : string, FetchError) "/down" = FetchOK resp ∧
            BodyErr resp = true)) ∧
  ∃ r, is_error r = true ∧
    ∀ n, SelfURL.serve (λ _, FetchError) (replicate n "/down") SelfURL.cache
         = Some (replicate n [EvGet "/down"; r], SelfURL.cache).
Proof.
  split; [reflexivity|]. split; [by left|].
  apply failures_are_retried; [reflexivity|by left].
Defined.

Lemma count_copyHeaders f h :
  (∀ k v, f (EvHeaderAdd k v) = false) →
  count f (Embedded.copyHeaders h) = 0%nat.
Proof.
  intros Hf. unfold count, Embedded.copyHeaders.
  induction h as [|[k vs] h IH]; [done|]. csimpl.
  rewrite List.filter_app, length_app, IH.
  induction vs as [|v vs IHv]; [done|]. csimpl. by rewrite Hf.
Qed.

Lemma elem_of_copyHeaders ev h :
  ev ∈ Embedded.copyHeaders h → ∃ k v, ev = EvHeaderAdd k v.
Proof.
  unfold Embedded.copyHeaders. intros Hin.
  apply list_elem_of_bind in Hin as ([k vs] & Hin & _).
  apply list_elem_of_fmap in Hin as (v & -> & _). eauto.
Qed.

(** What follows the copy of the headers. *)
Lemma elem_of_relay ev resp :
  ev ∈ Embedded.relay resp →
  (validStatus (StatusCode resp) = true ∧
   (ev = EvWriteHeader (StatusCode resp) ∨ ev = EvWrite (Body resp))) ∨
  (validStatus (StatusCode resp) = false ∧ ev = EvPanic).
Proof.
  unfold Embedded.relay. destruct (validStatus _).
  - intros [->|Hin]%elem_of_cons; [left; eauto|].
    apply list_elem_of_singleton in Hin as ->. left; eauto.
  - intros ->%list_elem_of_singleton. by right.
Qed.

(** The four shapes of a trace of the handler that decodes the path. *)
Lemma embedded_trace_cases httpGet path :
  (QueryUnescape (TrimPrefix path "/") = None ∧
   Embedded.handleRequest httpGet path = [EvError "Invalid URL encoding" 400]) ∨
  (∃ u, QueryUnescape (TrimPrefix path "/") = Some u ∧
        HasPrefix u "http://" = false ∧ HasPrefix u "https://" = false ∧
        Embedded.handleRequest httpGet path
        = [EvError "Invalid target URL" 400]) ∨
  (∃ u, QueryUnescape (TrimPrefix path "/") = Some u ∧
        (HasPrefix u "http://" = true ∨ HasPrefix u "https://" = true) ∧
        httpGet u = FetchError ∧
        Embedded.handleRequest httpGet path
        = [EvGet u; EvError "Failed to reach target server" 502]) ∨
  (∃ u resp, QueryUnescape (TrimPrefix path "/") = Some u ∧
        (HasPrefix u "http://" = true ∨ HasPrefix u "https://" = true) ∧
        httpGet u = FetchOK resp ∧
        Embedded.handleRequest httpGet path
        = EvGet u :: Embedded.copyHeaders (Header resp)
          ++ Embedded.relay resp).
Proof.
  unfold Embedded.handleRequest.
  destruct (QueryUnescape (TrimPrefix path "/")) as [u|]; [|by left].
  right.
  assert (Hfetch : HasPrefix u "http://" = true ∨ HasPrefix u "https://" = true →
    (∃ u0, Some u = Some u0 ∧
       (HasPrefix u0 "http://" = true ∨ HasPrefix u0 "https://" = true) ∧
       httpGet u0 = FetchError ∧
       EvGet u :: match httpGet u with
                  | FetchError =>
                      [EvError "Failed to reach target server" StatusBadGateway]
                  | FetchOK resp =>
                      Embedded.copyHeaders (Header resp) ++ Embedded.relay resp
                  end
       = [EvGet u0; EvError "Failed to reach target server" 502]) ∨
    (∃ u0 resp, Some u = Some u0 ∧
       (HasPrefix u0 "http://" = true ∨ HasPrefix u0 "https://" = true) ∧
       httpGet u0 = FetchOK resp ∧
       EvGet u :: match httpGet u with
                  | FetchError =>
                      [EvError "Failed to reach target server" StatusBadGateway]
                  | FetchOK resp =>
                      Embedded.copyHeaders (Header resp) ++ Embedded.relay resp
                  end
       = EvGet u0 :: Embedded.copyHeaders (Header resp)
         ++ Embedded.relay resp)).
  { intros Hp. destruct (httpGet u) as [|resp] eqn:Hf.
    - left. exists u. done.
    - right. exists u, resp. done. }
  destruct (HasPrefix u "http://") eqn:H1; simpl.
  { right. apply Hfetch. by left. }
  destruct (HasPrefix u "https://") eqn:H2; simpl.
  { right. apply Hfetch. by right. }
  left. exists u. done.
Qed.

(** The counts over a trace that relays a response of the target. *)
Lemma count_relayed f u resp :
  (∀ k v, f (EvHeaderAdd k v) = false) →
  count f (EvGet u :: Embedded.copyHeaders (Header resp)
           ++ Embedded.relay resp)
  = ((if f (EvGet u) then 1 else 0) + count f (Embedded.relay resp))%nat.
Proof.
  intros Hf. unfold count. cbn [List.filter].
  rewrite List.filter_app.
  destruct (f (EvGet u)); cbn [length]; rewrite length_app;
    fold (count f (Embedded.copyHeaders (Header resp)));
    rewrite count_copyHeaders by done; reflexivity.
Qed.

(** X11: the handler that takes the target from the path fetches at most
    once, and only a URL that starts with "http://" or "https://" and is
    the decoding of the path without its leading separator. It fixes the
    status of the response at most once, and exactly once unless it
    panics; it panics exactly when the target answers with a status code
    that [w.WriteHeader] refuses (one below 100 or above 999), and then it
    has fetched the target and nothing but headers has reached the
    response: no status, no body, and the panic ends the handler. *)
Theorem embedded_fetches_only_http (httpGet : string → FetchResult)
    (path : string) :
  (∀ u, EvGet u ∈ Embedded.handleRequest httpGet path →
     (HasPrefix u "http://" = true ∨ HasPrefix u "https://" = true) ∧
     QueryUnescape (TrimPrefix path "/") = Some u) ∧
  (count is_fetch (Embedded.handleRequest httpGet path) ≤ 1)%nat ∧
  (count is_status (Embedded.handleRequest httpGet path) ≤ 1)%nat ∧
  (EvPanic ∉ Embedded.handleRequest httpGet path →
   count is_status (Embedded.handleRequest httpGet path) = 1%nat) ∧
  (EvPanic ∈ Embedded.handleRequest httpGet path ↔
   ∃ u resp, QueryUnescape (TrimPrefix path "/") = Some u ∧
     (HasPrefix u "http://" = true ∨ HasPrefix u "https://" = true) ∧
     httpGet u = FetchOK resp ∧
     (StatusCode resp < 100 ∨ 999 < StatusCode resp)) ∧
  (EvPanic ∈ Embedded.handleRequest httpGet path →
   count is_status (Embedded.handleRequest httpGet path) = 0%nat ∧
   count is_response (Embedded.handleRequest httpGet path) = 0%nat ∧
   count is_fetch (Embedded.handleRequest httpGet path) = 1%nat ∧
   last (Embedded.handleRequest httpGet path) = Some EvPanic).
Proof.
  assert (Hvalid : ∀ code, validStatus code = false ↔ code < 100 ∨ 999 < code).
  { intros code. unfold validStatus.
    destruct (Z.ltb_spec code 100), (Z.gtb_spec code 999); simpl;
      split; intros; try done; lia. }
  destruct (embedded_trace_cases httpGet path)
    as [[Hq ->]|[(u & Hq & H1 & H2 & ->)|[(u & Hq & Hp & Hf & ->)
        |(u & resp & Hq & Hp & Hf & ->)]]].
  - split; [|split; [|split; [|split; [|split]]]].
    + intros u Hin. by apply list_elem_of_singleton in Hin.
    + unfold count. simpl. lia.
    + unfold count. simpl. lia.
    + done.
    + split; [|intros (u & resp & ? & _); congruence].
      intros Hin. by apply list_elem_of_singleton in Hin.
    + intros Hin. by apply list_elem_of_singleton in Hin.
  - split; [|split; [|split; [|split; [|split]]]].
    + intros u' Hin. by apply list_elem_of_singleton in Hin.
    + unfold count. simpl. lia.
    + unfold count. simpl. lia.
    + done.
    + split; [|intros (u' & resp & ? & [?|?] & _); congruence].
      intros Hin. by apply list_elem_of_singleton in Hin.
    + intros Hin. by apply list_elem_of_singleton in Hin.
  - split; [|split; [|split; [|split; [|split]]]].
    + intros u' [Hin|Hin]%elem_of_cons; [injection Hin as ->; eauto|].
      by apply list_elem_of_singleton in Hin.
    + unfold count. simpl. lia.
    + unfold count. simpl. lia.
    + done.
    + split; [|intros (u' & resp & ? & _ & ? & _); congruence].
      intros [Hin|Hin]%elem_of_cons; [done|].
      by apply list_elem_of_singleton in Hin.
    + intros [Hin|Hin]%elem_of_cons; [done|].
      by apply list_elem_of_singleton in Hin.
  - assert (Hin_panic :
      EvPanic ∈ EvGet u :: Embedded.copyHeaders (Header resp)
                ++ Embedded.relay resp
      ↔ validStatus (StatusCode resp) = false).
    { split.
      - intros [Hin|Hin]%elem_of_cons; [done|].
        apply elem_of_app in Hin as [Hin|Hin].
        + apply elem_of_copyHeaders in Hin as (k & v & ?). done.
        + apply elem_of_relay in Hin as [(_ & [?|?])|(? & _)]; done.
      - intros Hv. apply elem_of_cons. right. apply elem_of_app. right.
        unfold Embedded.relay. rewrite Hv. by left. }
    rewrite !count_relayed by done. cbn [is_fetch is_status is_response].
    split; [|split; [|split; [|split; [|split]]]].
    + intros u' [Hin|Hin]%elem_of_cons; [injection Hin as ->; eauto|].
      apply elem_of_app in Hin as [Hin|Hin].
      * apply elem_of_copyHeaders in Hin as (k & v & ?). done.
      * apply elem_of_relay in Hin as [(_ & [?|?])|(_ & ?)]; done.
    + unfold Embedded.relay, count.
      destruct (validStatus _); simpl; lia.
    + unfold Embedded.relay, count.
      destruct (validStatus _); simpl; lia.
    + rewrite Hin_panic. unfold Embedded.relay, count.
      destruct (validStatus _); [done|]. by intros [].
    + rewrite Hin_panic, Hvalid. split.
      * intros Hc. exists u, resp. done.
      * intros (u' & resp' & Hq' & _ & Hf' & Hc). congruence.
    + rewrite Hin_panic. intros Hv. unfold Embedded.relay, count.
      rewrite Hv. simpl. split; [done|]. split; [done|]. split; [done|].
      rewrite app_comm_cons. apply last_snoc.
Qed.

Lemma QueryUnescape_no_percent s :
  has_percent s = false → QueryUnescape s = Some (plus_to_space s).
Proof.
  induction s as [|c s IH]; [done|]. cbn [has_percent plus_to_space].
  destruct (Ascii.eqb_spec c "%") as [->|Hp]; [done|]. intros Hs.
  destruct (Ascii.eqb_spec c "+") as [->|Hq].
  - cbn [QueryUnescape]. by rewrite (IH Hs).
  - rewrite QueryUnescape_other by done. by rewrite (IH Hs).
Qed.

Lemma has_percent_TrimPrefix s :
  has_percent s = false → has_percent (TrimPrefix s "/") = false.
Proof.
  intros Hs. destruct s as [|c s']; [done|].
  destruct (Ascii.eqb_spec c "/") as [->|Hne].
  - rewrite TrimPrefix_slash. simpl in Hs. done.
  - unfold TrimPrefix, HasPrefix. cbn [String.prefix].
    destruct (ascii_dec "/" c) as [Heq|_]; [by subst|done].
Qed.

(** X12: a path without [%] is never answered "Invalid URL encoding"; it
    is decoded to itself, without the leading separator, with every [+]
    turned into a space, so a [+] of the target does not reach the server
    fetched. *)
Theorem path_without_percent_decodes (httpGet : string → FetchResult)
    (path : string) :
  has_percent path = false →
  QueryUnescape (TrimPrefix path "/")
  = Some (plus_to_space (TrimPrefix path "/")) ∧
  (∀ msg code, EvError msg code ∈ Embedded.handleRequest httpGet path →
     msg ≠ "Invalid URL encoding"%string) ∧
  (∀ u, EvGet u ∈ Embedded.handleRequest httpGet path →
     u = plus_to_space (TrimPrefix path "/")).
Proof.
  intros Hp.
  pose proof (QueryUnescape_no_percent _ (has_percent_TrimPrefix _ Hp)) as Hq.
  split; [done|].
  assert (Hh : ∀ ev, ev ∈ Embedded.handleRequest httpGet path →
     ev = EvError "Invalid target URL" 400 ∨
     ev = EvGet (plus_to_space (TrimPrefix path "/")) ∨
     ev = EvError "Failed to reach target server" 502 ∨
     (∃ k v, ev = EvHeaderAdd k v) ∨ (∃ n, ev = EvWriteHeader n) ∨
     (∃ b, ev = EvWrite b) ∨ ev = EvPanic).
  { unfold Embedded.handleRequest. rewrite Hq. intros ev.
    destruct (negb _ && negb _).
    { intros ->%list_elem_of_singleton. by left. }
    intros [->|Hin]%elem_of_cons; [right; by left|].
    destruct (httpGet _) as [|resp].
    { apply list_elem_of_singleton in Hin as ->. right; right; by left. }
    apply elem_of_app in Hin as [Hin|Hin].
    - apply elem_of_copyHeaders in Hin. right; right; right; by left.
    - apply elem_of_relay in Hin as [(_ & [-> | ->])|(_ & ->)].
      + do 4 right; left; eauto.
      + do 5 right; left; eauto.
      + do 6 right. done. }
  split.
  - intros msg code Hin.
    destruct (Hh _ Hin) as [H|[H|[H|[(?&?&H)|[(?&H)|[(?&H)|H]]]]]];
      try discriminate H; injection H as -> _; discriminate.
  - intros u Hin.
    destruct (Hh _ Hin) as [H|[H|[H|[(?&?&H)|[(?&H)|[(?&H)|H]]]]]];
      try discriminate H. by injection H.
Qed.

Lemma path_without_percent_decodes_witness :
  has_percent "/http://example.com/a+b" = false ∧
  QueryUnescape (TrimPrefix "/http://example.com/a+b" "/")
  = Some (plus_to_space (TrimPrefix "/http://example.com/a+b" "/")) ∧
  (∀ msg code,
     EvError msg code
     ∈ Embedded.handleRequest (λ _, FetchError) "/http://example.com/a+b" →
     msg ≠ "Invalid URL encoding"%string) ∧
  (∀ u, EvGet u
        ∈ Embedded.handleRequest (λ _, FetchError) "/http://example.com/a+b" →
     u = plus_to_space (TrimPrefix "/http://example.com/a+b" "/")).
Proof.
  split; [reflexivity|].
  apply (path_without_percent_decodes (λ _, FetchError)). reflexivity.
Defined.

(** * Further properties of the goroutines *)

Import Work.

(** Every statement brings its goroutine closer to the end of its calls. *)
Lemma tstep_left s t s' t' :
  tstep s t = Next s' t' → (thread_left t' < thread_left t)%nat.
Proof.
  destruct t as [td p rs]. unfold tstep, goto, store, thread_left. simpl.
  destruct p; simpl.
  - destruct td as [|op rest]; [done|]. destruct (mu s); [done|].
    intros [= <- <-]. simpl. destruct op; simpl; lia.
  - destruct (cache (mem s) !! k); intros [= <- <-]; simpl; lia.
  - intros [= <- <-]. simpl. lia.
  - destruct (items (mem s) !! elem); [|done]. intros [= <- <-]. simpl. lia.
  - destruct (mu s); [|done]. intros [= <- <-]. simpl. lia.
  - destruct (cache (mem s) !! k); intros [= <- <-]; simpl; lia.
  - intros [= <- <-]. simpl. lia.
  - destruct (items (mem s) !! elem); [|done]. intros [= <- <-]. simpl. lia.
  - case_bool_decide; intros [= <- <-]; simpl; lia.
  - destruct (Back (list_ (mem s))); intros [= <- <-]; simpl; lia.
  - destruct (items (mem s) !! lastElem); [|done].
    intros [= <- <-]. simpl. lia.
  - intros [= <- <-]. simpl. lia.
  - intros [= <- <-]. simpl. lia.
  - intros [= <- <-]. simpl. lia.
  - destruct (mu s); [|done]. intros [= <- <-]. simpl. lia.
Qed.

Lemma sum_list_insert_lt (f : Thread → nat) (l : list Thread) i t t' :
  l !! i = Some t → (f t' < f t)%nat →
  (sum_list (f <$> <[i := t']> l) < sum_list (f <$> l))%nat.
Proof.
  revert i. induction l as [|x l IH]; intros i Hi Hlt; [done|].
  destruct i as [|i]; csimpl in *.
  - injection Hi as ->. lia.
  - specialize (IH i Hi Hlt). lia.
Qed.

Lemma mstep_work m m' : mstep m m' → (work m' < work m)%nat.
Proof.
  intros [m0 i t s' t' Hi Hts]. unfold work. simpl.
  apply (sum_list_insert_lt thread_left _ i t t' Hi).
  by apply (tstep_left (shared m0) t s' t').
Qed.

(** Inside a call that started from a well-formed cache the goroutine that
    holds the mutex can make its next step. *)
Lemma tstep_holder_next base s t :
  wf base → mu s = true → at_pc (pc t) base (mem s) →
  ∃ s' t', tstep s t = Next s' t'.
Proof.
  intros Hwf Hmu Hat.
  pose proof (tstep_at_pc_no_panic base s t Hwf Hmu Hat) as Hnp.
  destruct s as [m lru], t as [td p rs]. simpl in *. subst m.
  unfold tstep, goto, store in *. simpl in *.
  destruct p; simpl in Hat; try done; eauto.
  - destruct (cache lru !! k); eauto.
  - destruct (items lru !! elem); [eauto|done].
  - destruct (cache lru !! k); eauto.
  - destruct (items lru !! elem); [eauto|done].
  - case_bool_decide; eauto.
  - destruct (Back (list_ lru)); eauto.
  - destruct (items lru !! lastElem); [eauto|done].
Qed.

(** X13: the goroutines cannot be stuck. In a state they can reach from a
    new cache, if no goroutine can make a step then every goroutine has
    made all its calls and the mutex is free: no call waits for a mutex
    that is never released. *)
Theorem no_deadlock (cap : Z) (progs : list (list Op)) (m : Machine) :
  rtc mstep (init cap progs) m →
  (∀ m', ¬ mstep m m') → finished m.
Proof.
  intros Hreach Hstuck.
  destruct (serialized_reachable cap progs m Hreach) as (hist & base & He & Hm).
  pose proof (exec_wf hist _ base (wf_New cap) He) as Hwf.
  destruct (mu (shared m)) eqn:Hmu.
  - destruct Hm as (i & t & Hi & Hat & _). exfalso.
    destruct (tstep_holder_next base (shared m) t Hwf Hmu Hat) as (s' & t' & Hts).
    apply (Hstuck (mkMachine s' (<[i := t']> (threads m)))).
    by apply (mstep_thread m i t).
  - destruct Hm as [_ Hidle]. split; [done|]. intros i t Hi.
    pose proof (Hidle i t Hi) as Hpc. split; [done|].
    destruct (todo t) as [|op rest] eqn:Htd; [done|]. exfalso.
    apply (Hstuck (mkMachine (mkShared true (mem (shared m)))
                     (<[i := mkThread rest (enter op) (rets t)]> (threads m)))).
    apply (mstep_thread m i t); [done|].
    unfold tstep. by rewrite Hpc, Htd, Hmu.
Qed.

Lemma no_deadlock_witness :
  rtc mstep (init 1 [[OpPut "a" [x01]]; []])
    (run_sched [0; 0; 0; 0; 0; 0]%nat (init 1 [[OpPut "a" [x01]]; []])) ∧
  (∀ m', ¬ mstep (run_sched [0; 0; 0; 0; 0; 0]%nat
                     (init 1 [[OpPut "a" [x01]]; []])) m') ∧
  finished (run_sched [0; 0; 0; 0; 0; 0]%nat (init 1 [[OpPut "a" [x01]]; []])).
Proof.
  assert (Hstuck : ∀ m', ¬ mstep (run_sched [0; 0; 0; 0; 0; 0]%nat
                                    (init 1 [[OpPut "a" [x01]]; []])) m').
  { intros m' Hst. inversion Hst as [m0 i t s' t' Hi Hts Heq]. subst m0.
    destruct i as [|[|i]]; vm_compute in Hi; [| |done];
      injection Hi as <-; vm_compute in Hts; done. }
  split; [apply run_sched_reachable|]. split; [exact Hstuck|].
  exact (no_deadlock 1 [[OpPut "a" [x01]]; []] _ (run_sched_reachable _ _) Hstuck).
Defined.

Lemma work_init cap progs :
  work (init cap progs) = (9 * sum_list (length <$> progs))%nat.
Proof.
  unfold work, init. simpl. rewrite <-list_fmap_compose.
  induction progs as [|p ps IH]; [done|]. csimpl in *.
  unfold thread_left at 1. simpl. lia.
Qed.

(** X14: every run is finite. Each step of the machine uses up the work
    left, so a run of [n] steps has [n] at most the work it started with,
    and from the start that is nine steps for each call. *)
Theorem runs_are_bounded (n : nat) (m0 m : Machine) :
  nsteps mstep n m0 m →
  (n + work m ≤ work m0)%nat ∧
  ∀ cap progs, m0 = init cap progs →
    (n ≤ 9 * sum_list (length <$> progs))%nat.
Proof.
  intros Hn.
  assert (Hb : (n + work m ≤ work m0)%nat).
  { induction Hn as [|n x y z Hxy Hyz IH]; [lia|].
    apply mstep_work in Hxy. lia. }
  split; [done|]. intros cap progs ->.
  rewrite work_init in Hb. lia.
Qed.

Lemma runs_are_bounded_witness :
  nsteps mstep 1 (init 1 [[OpPut "a" [x01]]; [OpGet "a"]])
                 (sched_step 0 (init 1 [[OpPut "a" [x01]]; [OpGet "a"]])) ∧
  (1 + work (sched_step 0 (init 1 [[OpPut "a" [x01]]; [OpGet "a"]]))
   ≤ work (init 1 [[OpPut "a" [x01]]; [OpGet "a"]]))%nat ∧
  (1 ≤ 9 * sum_list (length <$> [[OpPut "a" [x01]]; [OpGet "a"]]))%nat.
Proof.
  assert (H : nsteps mstep 1 (init 1 [[OpPut "a" [x01]]; [OpGet "a"]])
                (sched_step 0 (init 1 [[OpPut "a" [x01]]; [OpGet "a"]]))).
  { apply nsteps_once.
    apply (mstep_thread (init 1 [[OpPut "a" [x01]]; [OpGet "a"]]) 0%nat
             (mkThread [OpPut "a" [x01]] Idle [])); reflexivity. }
  split; [exact H|].
  destruct (runs_are_bounded 1 _ _ H) as [H1 H2].
  split; [exact H1|]. exact (H2 1 _ eq_refl).
Defined.

(** Inside a call a statement leaves the pending calls alone and brings
    the unlock closer. *)
Lemma tstep_pc_left s t s' t' :
  pc t ≠ Idle → tstep s t = Next s' t' →
  todo t' = todo t ∧ (pc_left (pc t') < pc_left (pc t))%nat.
Proof.
  destruct t as [td p rs]. unfold tstep, goto, store. simpl.
  destruct p; simpl; try done.
  - intros _. destruct (cache (mem s) !! k); intros [= <- <-]; simpl; split; (done || lia).
  - intros _ [= <- <-]. simpl. split; (done || lia).
  - intros _. destruct (items (mem s) !! elem); [|done].
    intros [= <- <-]. simpl. split; (done || lia).
  - intros _. destruct (mu s); [|done]. intros [= <- <-]. simpl. split; (done || lia).
  - intros _. destruct (cache (mem s) !! k); intros [= <- <-]; simpl; split; (done || lia).
  - intros _ [= <- <-]. simpl. split; (done || lia).
  - intros _. destruct (items (mem s) !! elem); [|done].
    intros [= <- <-]. simpl. split; (done || lia).
  - intros _. case_bool_decide; intros [= <- <-]; simpl; split; (done || lia).
  - intros _. destruct (Back (list_ (mem s))); intros [= <- <-]; simpl; split; (done || lia).
  - intros _. destruct (items (mem s) !! lastElem); [|done].
    intros [= <- <-]. simpl. split; (done || lia).
  - intros _ [= <- <-]. simpl. split; (done || lia).
  - intros _ [= <- <-]. simpl. split; (done || lia).
  - intros _ [= <- <-]. simpl. split; (done || lia).
  - intros _. destruct (mu s); [|done]. intros [= <- <-]. simpl. split; (done || lia).
Qed.

Lemma holder_unlocks base i :
  wf base →
  ∀ bound m t,
    threads m !! i = Some t → mu (shared m) = true →
    at_pc (pc t) base (mem (shared m)) → (pc_left (pc t) ≤ bound)%nat →
    ∃ n, (n ≤ bound)%nat ∧ mu (shared (run_sched (replicate n i) m)) = false.
Proof.
  intros Hwf. induction bound as [|bound IH]; intros m t Hi Hmu Hat Hle.
  { destruct (pc t); simpl in *; (done || lia). }
  assert (Hpc : pc t ≠ Idle) by (intros Heq; by rewrite Heq in Hat).
  destruct (tstep_holder_next base (shared m) t Hwf Hmu Hat) as (s' & t' & Hts).
  destruct (tstep_pc_left _ _ _ _ Hpc Hts) as [_ Hlt].
  assert (Hstep : sched_step i m = mkMachine s' (<[i := t']> (threads m))).
  { unfold sched_step. by rewrite Hi, Hts. }
  destruct (tstep_at_pc base _ _ _ _ Hmu Hat Hts) as [[Hmu' Hat']|(Hmu' & _)].
  - destruct (IH (mkMachine s' (<[i := t']> (threads m))) t')
      as (n & Hn & Hfree); simpl; [|done|done|lia|].
    { apply list_lookup_insert_eq. by apply (lookup_lt_Some _ _ t). }
    exists (S n). split; [lia|]. simpl. by rewrite Hstep.
  - exists 1%nat. split; [lia|]. simpl. by rewrite Hstep.
Qed.

(** X15: the mutex is never held for long. From any state the goroutines
    can reach in which the mutex is held, at most eight steps of the
    goroutine that holds it, and of no other, free the mutex. *)
Theorem mutex_released_soon (cap : Z) (progs : list (list Op)) (m : Machine) :
  rtc mstep (init cap progs) m → mu (shared m) = true →
  ∃ i n, (n ≤ 8)%nat ∧
         mu (shared (run_sched (replicate n i) m)) = false.
Proof.
  intros Hreach Hmu.
  destruct (serialized_reachable cap progs m Hreach) as (hist & base & He & Hm).
  pose proof (exec_wf hist _ base (wf_New cap) He) as Hwf.
  rewrite Hmu in Hm. destruct Hm as (i & t & Hi & Hat & _).
  exists i. apply (holder_unlocks base i Hwf 8 m t Hi Hmu Hat).
  destruct (pc t); simpl; lia.
Qed.

Lemma mutex_released_soon_witness :
  rtc mstep (init 1 [[OpPut "a" [x01]]; [OpPut "b" [x02]]])
    (run_sched [0; 0; 0; 1; 0]%nat
       (init 1 [[OpPut "a" [x01]]; [OpPut "b" [x02]]])) ∧
  mu (shared (run_sched [0; 0; 0; 1; 0]%nat
                (init 1 [[OpPut "a" [x01]]; [OpPut "b" [x02]]]))) = true ∧
  ∃ i n, (n ≤ 8)%nat ∧
    mu (shared (run_sched (replicate n i)
                  (run_sched [0; 0; 0; 1; 0]%nat
                     (init 1 [[OpPut "a" [x01]]; [OpPut "b" [x02]]]))))
    = false.
Proof.
  split; [apply run_sched_reachable|]. split; [reflexivity|].
  apply (mutex_released_soon 1 [[OpPut "a" [x01]]; [OpPut "b" [x02]]]);
    [apply run_sched_reachable|reflexivity].
Defined.

(** ** The calls take effect one at a time *)

Import Lin.

Lemma replay_snoc hist i op lru rs base :
  replay hist lru = Some (rs, base) →
  replay (hist ++ [(i, op)]) lru
  = match op with
    | OpGet k => '(r, lru') ← Get k base; Some (rs ++ [(i, r)], lru')
    | OpPut k v => lru' ← Put k v base; Some (rs, lru')
    end.
Proof.
  revert lru rs. induction hist as [|[j o] hist IH]; intros lru rs; simpl.
  - intros [= <- <-]. destruct op as [k|k v]; simpl.
    + destruct (Get k lru) as [[r lru']|]; done.
    + destruct (Put k v lru); done.
  - destruct o as [k0|k0 v0].
    + destruct (Get k0 lru) as [[r0 lru0]|]; [|done]. simpl.
      destruct (replay hist lru0) as [[rs0 lru1]|] eqn:Hr; [|done]. simpl.
      intros [= <- <-]. rewrite (IH lru0 rs0 Hr).
      destruct op as [k|k v]; simpl.
      * destruct (Get k lru1) as [[r lru']|]; done.
      * destruct (Put k v lru1); done.
    + destruct (Put k0 v0 lru) as [lru0|]; [|done]. simpl.
      intros Hr. by rewrite (IH lru0 rs Hr).
Qed.

Lemma calls_of_snoc j hist i op :
  calls_of j (hist ++ [(i, op)])
  = if decide (i = j) then calls_of j hist ++ [op] else calls_of j hist.
Proof.
  unfold calls_of. rewrite filter_app, fmap_app.
  rewrite filter_cons, filter_nil. simpl.
  case_decide; simpl; [done|by rewrite app_nil_r].
Qed.

Lemma rets_of_snoc j rs i (r : list byte * bool) :
  rets_of j (rs ++ [(i, r)])
  = if decide (i = j) then rets_of j rs ++ [r] else rets_of j rs.
Proof.
  unfold rets_of. rewrite filter_app, fmap_app.
  rewrite filter_cons, filter_nil. simpl.
  case_decide; simpl; [done|by rewrite app_nil_r].
Qed.

Lemma at_call_enter op base : at_call op (enter op) base base.
Proof. by destruct op. Qed.

(** A statement inside the call [op] stays inside it, or is its unlock, and
    then the cache is what [op] makes of the cache the call started from,
    and for a [Get] the goroutine has noted what [Get] returns. *)
Lemma tstep_at_call op base s t s' t' :
  mu s = true → at_call op (pc t) base (mem s) → tstep s t = Next s' t' →
  todo t' = todo t ∧
  ((mu s' = true ∧ at_call op (pc t') base (mem s') ∧ rets t' = rets t) ∨
   (mu s' = false ∧ pc t' = Idle ∧
    match op with
    | OpGet k => ∃ r, Get k base = Some (r, mem s') ∧ rets t' = rets t ++ [r]
    | OpPut k v => Put k v base = Some (mem s') ∧ rets t' = rets t
    end)).
Proof.
  destruct s as [m lru], t as [td p rs]. simpl. intros -> [Hat Hcall].
  unfold tstep, goto, store. simpl.
  destruct p; simpl in Hat, Hcall.
  - done.
  - subst lru op. destruct (cache base !! k) as [e|] eqn:Hk;
      intros [= <- <-]; simpl; (split; [done|]); left;
      (split; [done|]); (split; [|done]); split; simpl; try done.
    + exists k. by apply Get_miss.
    + exists k. split; [done|]. by apply Get_miss.
  - destruct Hat as [-> Hk]. subst op. intros [= <- <-]. simpl.
    split; [done|]. left. done.
  - destruct Hat as [Hk ->]. subst op. simpl.
    destruct (items base !! elem) as [it|] eqn:Hit; [|done].
    intros [= <- <-]. simpl. split; [done|]. left. split; [done|].
    assert (HG : Get k base
                 = Some ((value it, true),
                         set_list (MoveToFront elem (list_ base)) base)).
    { unfold Get. rewrite Hk. simpl. by rewrite Hit. }
    split; [|done]. split; simpl; eauto.
  - destruct Hcall as (k & -> & HG). intros [= <- <-]. simpl.
    split; [done|]. right. split; [done|]. split; [done|]. eauto.
  - subst lru op. destruct (cache base !! k) as [e|] eqn:Hk;
      intros [= <- <-]; simpl; (split; [done|]); left; done.
  - destruct Hat as [-> Hk]. subst op. intros [= <- <-]. simpl.
    split; [done|]. left. done.
  - destruct Hat as [Hk ->]. subst op. simpl.
    destruct (items base !! elem) as [it|] eqn:Hit; [|done].
    intros [= <- <-]. simpl. split; [done|]. left. split; [done|].
    assert (HP : Put k v base
                 = Some (set_items (<[elem := mkItem (key it) v]> (items base))
                           (set_list (MoveToFront elem (list_ base)) base))).
    { unfold Put. rewrite Hk. by rewrite Hit. }
    split; [|done]. split; simpl; eauto.
  - destruct Hat as [-> Hk]. subst op.
    case_bool_decide as Hge; intros [= <- <-]; simpl;
      (split; [done|]); left; (split; [done|]); (split; [|done]);
      split; simpl; try done.
    split; [done|]. by rewrite bool_decide_eq_false_2.
  - destruct Hat as (-> & Hk & Hge). subst op.
    destruct (Back (list_ base)) as [e|] eqn:Hb;
      intros [= <- <-]; simpl;
      (split; [done|]); left; (split; [done|]); (split; [|done]);
      split; simpl; try done.
    split; [done|]. rewrite bool_decide_eq_true_2 by done.
    unfold evict. by rewrite Hb.
  - destruct Hat as (-> & Hk & Hge & Hb). subst op.
    destruct (items base !! lastElem) as [it|] eqn:Hit; [|done].
    intros [= <- <-]. simpl. split; [done|]. left. split; [done|].
    split; [|done]. split; simpl; [|done].
    do 3 (split; [done|]). by exists it.
  - destruct Hat as (Hk & Hge & Hb & it & Hit & ->). subst op. simpl.
    intros [= <- <-]. simpl. split; [done|]. left. split; [done|].
    split; [|done]. split; simpl; [|done]. split; [done|].
    rewrite bool_decide_eq_true_2 by done.
    unfold evict. rewrite Hb. simpl. by rewrite Hit.
  - destruct Hat as (Hk & Hev). subst op. intros [= <- <-]. simpl.
    split; [done|]. left. split; [done|]. split; [|done].
    split; simpl; [|done]. split; [done|]. by exists lru.
  - destruct Hat as (Hk & lru1 & Hev & -> & ->). subst op. simpl.
    intros [= <- <-]. simpl. split; [done|]. left. split; [done|].
    assert (HP : Put k v base
                 = Some (set_cache (<[k := next lru1]> (cache (push_new k v lru1)))
                           (push_new k v lru1))).
    { unfold Put. rewrite Hk, Hev. done. }
    split; [|done]. split; simpl; eauto.
  - destruct Hcall as (k & v & -> & HP). intros [= <- <-]. simpl.
    split; [done|]. right. done.
Qed.

Lemma tstep_idle_call s t s' t' :
  pc t = Idle → tstep s t = Next s' t' →
  ∃ op, todo t = op :: todo t' ∧ pc t' = enter op ∧ rets t' = rets t ∧
        mu s = false ∧ mu s' = true ∧ mem s' = mem s.
Proof.
  intros Hpc. unfold tstep. rewrite Hpc.
  destruct (todo t) as [|op rest]; [done|].
  destruct (mu s) eqn:Hmu; [done|].
  intros [= <- <-]. simpl. by exists op.
Qed.

(** The mutex at a statement, by its mark. *)
Lemma tstep_mark s t s' t' :
  tstep s t = Next s' t' →
  match mark t with
  | Starts op => mu s = false ∧ mu s' = true ∧ pc t = Idle
  | Inside => mu s' = mu s ∧ pc t ≠ Idle
  | Returns => mu s = true ∧ mu s' = false ∧ pc t ≠ Idle
  end.
Proof.
  destruct s as [b lru], t as [td p rs].
  unfold tstep, mark, goto, store. simpl.
  destruct p; simpl;
    repeat match goal with
           | |- context [match ?x with _ => _ end] => destruct x eqn:?
           end;
    try discriminate; intros [= <- <-]; simpl; done.
Qed.

Lemma started_snoc tr e :
  started (tr ++ [e])
  = started tr ++ match start_of e with Some c => [c] | None => [] end.
Proof.
  unfold started. rewrite omap_app. csimpl.
  by destruct (start_of e).
Qed.

Lemma returned_app tr1 tr2 :
  returned (tr1 ++ tr2) = (returned tr1 + returned tr2)%nat.
Proof. unfold returned. by rewrite List.filter_app, length_app. Qed.

Lemma returned_snoc tr e :
  returned (tr ++ [e])
  = (returned tr + if is_return e then 1 else 0)%nat.
Proof.
  rewrite returned_app. f_equal. unfold returned. simpl.
  by destruct (is_return e).
Qed.

Lemma linearized_init cap progs : linearized cap progs [] (init cap progs).
Proof.
  exists [], [], (NewLRUCache cap). split; [done|]. split; [done|]. simpl.
  split; [done|]. split; [done|].
  intros j t Hj. rewrite list_lookup_fmap in Hj.
  destruct (progs !! j) as [ops|]; simplify_eq/=. done.
Qed.

Lemma linearized_step cap progs tr m i t s' t' :
  linearized cap progs tr m →
  threads m !! i = Some t →
  tstep (shared m) t = Next s' t' →
  linearized cap progs (tr ++ [(i, mark t)])
    (mkMachine s' (<[i := t']> (threads m))).
Proof.
  intros (hist & rs & base & Hrep & Hlen & Hm) Hi Hts.
  pose proof (lookup_lt_Some _ _ _ Hi) as Hlt.
  pose proof (tstep_mark _ _ _ _ Hts) as Hmark.
  destruct (mu (shared m)) eqn:Hmu.
  - destruct Hm as (i0 & t0 & op & p0 & Hst & Hp0 & Hp0' & Hi0 & Hat & Hprog
                    & Hrets & Hothers).
    destruct (decide (i = i0)) as [->|Hne].
    2:{ destruct (Hothers i t Hne Hi) as (Hidle & _).
        destruct (tstep_idle _ _ _ _ Hidle Hts) as (Hf & _). congruence. }
    assert (t0 = t) as -> by congruence.
    pose proof (lookup_lt_Some _ _ _ Hp0) as Hp0lt.
    destruct (tstep_at_call op base _ _ _ _ Hmu Hat Hts)
      as [Htodo [(Hmu' & Hat' & Hrets')|(Hmu' & Hpc' & Hdone)]].
    + assert (Hin : mark t = Inside).
      { destruct (mark t); [destruct Hmark; congruence|done|].
        destruct Hmark as (_ & ? & _). congruence. }
      exists hist, rs, base. split; [done|].
      rewrite returned_snoc, started_snoc.
      unfold is_return, start_of. simpl. rewrite Hin, Hmu'.
      split; [lia|].
      exists i0, t', op, p0. rewrite app_nil_r. split; [done|].
      split; [by rewrite lookup_app_l|].
      split; [by rewrite take_app_le by lia|].
      split; [by apply list_lookup_insert_eq|].
      split; [done|]. split; [by rewrite Htodo|].
      split; [by rewrite Hrets'|].
      intros j tj Hj. rewrite list_lookup_insert_ne by done. by apply Hothers.
    + assert (Hret : mark t = Returns).
      { destruct (mark t); [destruct Hmark; congruence| |done].
        destruct Hmark as (? & _). congruence. }
      assert (∃ rs', replay (hist ++ [(i0, op)]) (NewLRUCache cap)
                     = Some (rs', mem s') ∧
                     rets t' = rets_of i0 rs' ∧
                     ∀ j, j ≠ i0 → rets_of j rs' = rets_of j rs)
        as (rs' & Hrep' & Hr' & Hro).
      { rewrite (replay_snoc hist i0 op _ rs base Hrep).
        destruct op as [k|k v].
        - destruct Hdone as (r & -> & Hr). simpl.
          exists (rs ++ [(i0, r)]). split; [done|]. split.
          + rewrite rets_of_snoc, decide_True by done. by rewrite Hr, Hrets.
          + intros j Hj. rewrite rets_of_snoc. by rewrite decide_False.
        - destruct Hdone as (-> & Hr). simpl.
          exists rs. split; [done|]. split; [by rewrite Hr|done]. }
      exists (hist ++ [(i0, op)]), rs', (mem s'). split; [done|].
      rewrite returned_snoc, started_snoc.
      unfold is_return, start_of. simpl. rewrite Hret, Hmu'.
      split; [rewrite length_app; simpl; lia|].
      rewrite app_nil_r. split; [done|]. split; [done|]. intros j tj.
      destruct (decide (j = i0)) as [->|Hj].
      * rewrite list_lookup_insert_eq by done. intros [= <-].
        split; [done|]. split; [|done].
        rewrite calls_of_snoc, decide_True by done.
        by rewrite <-app_assoc, Htodo.
      * rewrite list_lookup_insert_ne by done. intros Htj.
        destruct (Hothers j tj Hj Htj) as (H1 & H2 & H3).
        split; [done|]. rewrite calls_of_snoc, decide_False by done.
        split; [done|]. by rewrite Hro.
  - destruct Hm as (Hst & Hbase & Hall).
    destruct (Hall i t Hi) as (Hidle & Hprog & Hrets).
    destruct (tstep_idle_call _ _ _ _ Hidle Hts)
      as (op & Htodo & Hpc' & Hrets' & _ & Hmu' & Hmem).
    assert (Hstart : mark t = Starts op).
    { unfold mark. by rewrite Hidle, Htodo. }
    exists hist, rs, base. split; [done|].
    rewrite returned_snoc, started_snoc.
    unfold is_return, start_of. simpl. rewrite Hstart, Hmu'.
    split; [lia|].
    exists i, t', op, (length tr). split; [by rewrite Hst|].
    split; [by rewrite list_lookup_middle|].
    split; [by rewrite take_app_length, Hst|].
    split; [by apply list_lookup_insert_eq|]. split.
    { rewrite Hpc', Hmem, Hbase. apply at_call_enter. }
    split; [by rewrite <-Htodo|]. split; [by rewrite Hrets'|].
    intros j tj Hj. rewrite list_lookup_insert_ne by done. apply Hall.
Qed.

Lemma run_linearized cap progs tr m :
  run (init cap progs) tr m → linearized cap progs tr m.
Proof.
  induction 1 as [|tr m i t s' t' _ IH Hi Hts].
  - apply linearized_init.
  - by apply linearized_step.
Qed.

(** A run visits the states the machine can reach, and every such state
    is at the end of a run. *)
Lemma run_reachable m0 tr m : run m0 tr m → rtc mstep m0 m.
Proof.
  induction 1 as [|tr m i t s' t' _ IH Hi Hts]; [done|].
  eapply rtc_r; [exact IH|]. by econstructor.
Qed.

Lemma reachable_run m0 m : rtc mstep m0 m → ∃ tr, run m0 tr m.
Proof.
  intros Hreach.
  apply (rtc_ind_r (R := mstep) (λ m, ∃ tr, run m0 tr m) m0);
    [exists []; constructor| |exact Hreach].
  intros m1 m2 _ Hstep [tr Hrun].
  destruct Hstep as [m1 i t s' t' Hi Hts].
  exists (tr ++ [(i, mark t)]). by econstructor.
Qed.

Lemma run_sched_run sched m0 tr m :
  run m0 tr m → run m0 (tr ++ sched_trace sched m) (run_sched sched m).
Proof.
  revert tr m. induction sched as [|i sched IH]; intros tr m Hrun; simpl.
  { by rewrite app_nil_r. }
  rewrite app_assoc. apply IH.
  unfold sched_mark, sched_step.
  destruct (threads m !! i) as [t|] eqn:Hi; [|by rewrite app_nil_r].
  destruct (tstep (shared m) t) as [| | |s' t'] eqn:Hts;
    try by rewrite app_nil_r.
  by econstructor.
Qed.

Lemma sched_trace_run sched m :
  run m (sched_trace sched m) (run_sched sched m).
Proof. apply (run_sched_run sched m [] m). constructor. Qed.

(** The state before a step of a run is at the end of a run too: of the
    trace up to that step. *)
Lemma run_lookup m0 tr m p i mk :
  run m0 tr m → tr !! p = Some (i, mk) →
  ∃ m1 t s' t', run m0 (take p tr) m1 ∧ threads m1 !! i = Some t ∧
    tstep (shared m1) t = Next s' t' ∧ mk = mark t.
Proof.
  induction 1 as [|tr m j t s' t' Hrun IH Hj Hts]; [done|].
  intros Hp. destruct (decide (p < length tr)%nat) as [Hlt|Hge].
  - rewrite lookup_app_l in Hp by done.
    rewrite take_app_le by lia. by apply IH.
  - pose proof (lookup_lt_Some _ _ _ Hp) as Hlen.
    rewrite length_app in Hlen. simpl in Hlen.
    assert (p = length tr) as -> by lia.
    rewrite list_lookup_middle in Hp by done. injection Hp as -> <-.
    rewrite take_app_length. by exists m, t, s', t'.
Qed.

Lemma started_lookup tr q j op :
  tr !! q = Some (j, Starts op) →
  started tr !! length (started (take q tr)) = Some (j, op).
Proof.
  intros Hq. pose proof (take_drop_middle tr q _ Hq) as Heq.
  set (n := length (started (take q tr))).
  rewrite <-Heq. unfold started. rewrite omap_app. csimpl.
  subst n. by rewrite list_lookup_middle.
Qed.

Lemma returned_take_lt tr p q e :
  tr !! p = Some e → is_return e = true → (p < q)%nat →
  (returned (take p tr) < returned (take q tr))%nat.
Proof.
  intros Hp He Hpq.
  assert (∃ n, q = (p + S n)%nat) as [n ->] by (exists (q - S p)%nat; lia).
  rewrite <-take_take_drop, (drop_S _ _ _ Hp). cbn [take].
  rewrite returned_app. unfold returned at 3. cbn [List.filter].
  rewrite He. cbn [length]. lia.
Qed.

(** X16: the calls of the goroutines are linearizable. Take any run of
    the machine and its trace. The order of the calls is the order in
    which they took the mutex. It places each call between its first and
    its last statement: the call whose [Lock] is step [q] of the run stands
    in it at the number of calls started before [q]; the call that returns
    at step [p] is the one that stands at the number of calls returned
    before [p], and its [Lock] is an earlier step of the same goroutine.
    So a call that returned before another started stands before it.
    When the mutex is free the calls started have all returned; run in
    that order on a new cache, one after the other, they give the cache as
    it is and, for every goroutine, its calls in the order in which it made
    them and the results its [Get]s have returned. When the mutex is held
    one call, the last in the order, has not returned, and the calls before
    it give the results the goroutines hold. *)
Theorem calls_are_linearizable (cap : Z) (progs : list (list Op))
    (tr : list (nat * Mark)) (m : Machine) :
  run (init cap progs) tr m →
  (∀ q j op, tr !! q = Some (j, Starts op) →
     started tr !! length (started (take q tr)) = Some (j, op)) ∧
  (∀ p i, tr !! p = Some (i, Returns) →
     ∃ q op, (q < p)%nat ∧ tr !! q = Some (i, Starts op) ∧
       length (started (take q tr)) = returned (take p tr) ∧
       started tr !! returned (take p tr) = Some (i, op)) ∧
  (∀ p q i j op,
     tr !! p = Some (i, Returns) → tr !! q = Some (j, Starts op) →
     (p < q)%nat →
     (returned (take p tr) < length (started (take q tr)))%nat) ∧
  (mu (shared m) = false →
   length (started tr) = returned tr ∧
   ∃ rs,
     replay (started tr) (NewLRUCache cap) = Some (rs, mem (shared m)) ∧
     ∀ i t, threads m !! i = Some t →
       progs !! i = Some (calls_of i (started tr) ++ todo t) ∧
       rets t = rets_of i rs) ∧
  (mu (shared m) = true →
   ∃ hist i op rs base,
     started tr = hist ++ [(i, op)] ∧ length hist = returned tr ∧
     replay hist (NewLRUCache cap) = Some (rs, base) ∧
     ∀ j t, threads m !! j = Some t →
       progs !! j
       = Some (calls_of j hist ++ (if decide (j = i) then [op] else [])
               ++ todo t) ∧
       rets t = rets_of j rs).
Proof.
  intros Hrun.
  split; [|split; [|split; [|split]]].
  - intros q j op. apply started_lookup.
  - intros p i Hp.
    destruct (run_lookup _ _ _ _ _ _ Hrun Hp)
      as (m1 & t & s' & t' & Hrun1 & Hi & Hts & Hmk).
    pose proof (tstep_mark _ _ _ _ Hts) as Hmark. rewrite <-Hmk in Hmark.
    destruct Hmark as (Hmu1 & _ & Hpc).
    destruct (run_linearized _ _ _ _ Hrun1)
      as (hist & rs & base & _ & Hlen & Hm).
    rewrite Hmu1 in Hm.
    destruct Hm as (i0 & t0 & op & p0 & Hst & Hp0 & Hp0' & Hi0 & _ & _ & _
                    & Hothers).
    assert (i = i0) as <-.
    { destruct (decide (i = i0)) as [|Hne]; [done|].
      destruct (Hothers i t Hne Hi) as (Hidle & _). done. }
    apply lookup_take_Some in Hp0 as [Hp0 Hlt].
    rewrite take_take, Nat.min_l in Hp0' by lia.
    exists p0, op. split; [done|]. split; [done|].
    split; [congruence|].
    rewrite <-Hlen, <-Hp0'. by apply started_lookup.
  - intros p q i j op Hp Hq Hpq.
    destruct (run_lookup _ _ _ _ _ _ Hrun Hq)
      as (m1 & t & s' & t' & Hrun1 & Hi & Hts & Hmk).
    pose proof (tstep_mark _ _ _ _ Hts) as Hmark. rewrite <-Hmk in Hmark.
    destruct Hmark as (Hmu1 & _).
    destruct (run_linearized _ _ _ _ Hrun1)
      as (hist & rs & base & _ & Hlen & Hm).
    rewrite Hmu1 in Hm. destruct Hm as (-> & _). rewrite Hlen.
    by apply (returned_take_lt tr p q (i, Returns)).
  - intros Hmu.
    destruct (run_linearized _ _ _ _ Hrun)
      as (hist & rs & base & Hrep & Hlen & Hm).
    rewrite Hmu in Hm. destruct Hm as (-> & -> & Hall).
    split; [done|]. exists rs. split; [done|]. intros i t Hi.
    destruct (Hall i t Hi) as (_ & H1 & H2). done.
  - intros Hmu.
    destruct (run_linearized _ _ _ _ Hrun)
      as (hist & rs & base & Hrep & Hlen & Hm).
    rewrite Hmu in Hm.
    destruct Hm as (i0 & t0 & op & p0 & Hst & _ & _ & Hi0 & _ & Hprog & Hrets
                    & Hothers).
    exists hist, i0, op, rs, base. split; [done|]. split; [done|].
    split; [done|]. intros j t Hj.
    destruct (decide (j = i0)) as [->|Hne].
    + assert (t = t0) as -> by congruence. done.
    + destruct (Hothers j t Hne Hj) as (_ & H1 & H2). done.
Qed.

Lemma calls_are_linearizable_witness :
  run (init 1 [[OpPut "a" [x01]]; [OpGet "a"]])
    (sched_trace [1; 0; 1; 1; 1; 0; 0; 0; 0; 0; 0]%nat
       (init 1 [[OpPut "a" [x01]]; [OpGet "a"]]))
    (run_sched [1; 0; 1; 1; 1; 0; 0; 0; 0; 0; 0]%nat
       (init 1 [[OpPut "a" [x01]]; [OpGet "a"]])) ∧
  mu (shared (run_sched [1; 0; 1; 1; 1; 0; 0; 0; 0; 0; 0]%nat
                (init 1 [[OpPut "a" [x01]]; [OpGet "a"]]))) = false ∧
  sched_trace [1; 0; 1; 1; 1; 0; 0; 0; 0; 0; 0]%nat
    (init 1 [[OpPut "a" [x01]]; [OpGet "a"]])
  = [(1, Starts (OpGet "a")); (1, Inside); (1, Returns);
     (0, Starts (OpPut "a" [x01])); (0, Inside); (0, Inside); (0, Inside);
     (0, Inside); (0, Returns)]%nat ∧
  started (sched_trace [1; 0; 1; 1; 1; 0; 0; 0; 0; 0; 0]%nat
             (init 1 [[OpPut "a" [x01]]; [OpGet "a"]]))
  = [(1%nat, OpGet "a"); (0%nat, OpPut "a" [x01])] ∧
  ∃ rs,
    replay [(1%nat, OpGet "a"); (0%nat, OpPut "a" [x01])] (NewLRUCache 1)
    = Some (rs, mem (shared (run_sched [1; 0; 1; 1; 1; 0; 0; 0; 0; 0; 0]%nat
                               (init 1 [[OpPut "a" [x01]]; [OpGet "a"]])))) ∧
    ∀ i t,
      threads (run_sched [1; 0; 1; 1; 1; 0; 0; 0; 0; 0; 0]%nat
                 (init 1 [[OpPut "a" [x01]]; [OpGet "a"]])) !! i = Some t →
      [[OpPut "a" [x01]]; [OpGet "a"]] !! i
      = Some (calls_of i [(1%nat, OpGet "a"); (0%nat, OpPut "a" [x01])]
              ++ todo t) ∧
      rets t = rets_of i rs.
Proof.
  assert (Hrun : run (init 1 [[OpPut "a" [x01]]; [OpGet "a"]])
    (sched_trace [1; 0; 1; 1; 1; 0; 0; 0; 0; 0; 0]%nat
       (init 1 [[OpPut "a" [x01]]; [OpGet "a"]]))
    (run_sched [1; 0; 1; 1; 1; 0; 0; 0; 0; 0; 0]%nat
       (init 1 [[OpPut "a" [x01]]; [OpGet "a"]]))).
  { apply sched_trace_run. }
  split; [exact Hrun|]. split; [vm_compute; reflexivity|].
  split; [vm_compute; reflexivity|]. split; [vm_compute; reflexivity|].
  destruct (calls_are_linearizable 1 [[OpPut "a" [x01]]; [OpGet "a"]]
              _ _ Hrun) as (_ & _ & _ & Hfree & _).
  exact (proj2 (Hfree eq_refl)).
Defined.

(** ** New keys only *)

Lemma assoc_not_in k (l : list (string * list byte)) :
  k ∉ l.*1 → assoc k l = None.
Proof.
  induction l as [|[k' v] l IH]; csimpl; [done|].
  intros [Hne Hin]%not_elem_of_cons. rewrite decide_False by done. by apply IH.
Qed.

(** X17: after [Put]s of keys that are all different, into a new cache of
    capacity at least one, the cache holds the last [capacity] of them and
    no other, the latest in front; so a [Put] of one more new key into a
    full cache pushes out the key put first among those present. *)
Theorem distinct_puts_keep_last (cap : Z) (kvs : list (string * list byte)) :
  1 <= cap → NoDup (kvs.*1) →
  ∃ lru, exec (puts kvs) (NewLRUCache cap) = Some lru ∧
    entries lru = take (Z.to_nat cap) (reverse kvs) ∧
    ∀ k, peek k lru = assoc k (take (Z.to_nat cap) (reverse kvs)).
Proof.
  intros Hcap Hnd.
  assert (Hgen : ∃ lru, exec (puts kvs) (NewLRUCache cap) = Some lru ∧
            wf lru ∧ capacity lru = cap ∧
            entries lru = take (Z.to_nat cap) (reverse kvs)).
  { induction kvs as [|[k v] kvs IH] using rev_ind.
    - exists (NewLRUCache cap). split; [done|]. split; [apply wf_New|].
      split; [done|]. by destruct (Z.to_nat cap).
    - rewrite fmap_app in Hnd. apply NoDup_app in Hnd as (Hnd & Hdis & _).
      destruct (IH Hnd) as (lru & He & Hwf & Hc & Hent).
      destruct (Put_entries k v lru Hwf) as (lru' & HP & Hent').
      destruct (Put_wf k v lru Hwf) as (lru2 & HP2 & Hwf2 & Hcap2 & _).
      rewrite HP in HP2. injection HP2 as <-.
      exists lru'. split.
      { unfold puts. rewrite fmap_app, exec_app. fold (puts kvs).
        rewrite He. simpl. by rewrite HP. }
      split; [done|]. split; [congruence|].
      rewrite Hent'. unfold APut.
      assert (Hk : k ∉ kvs.*1).
      { intros Hin. apply (Hdis k Hin). csimpl. by left. }
      rewrite assoc_not_in.
      2:{ rewrite Hent. intros Hin. apply Hk.
          apply list_elem_of_fmap in Hin as (p & -> & Hin).
          apply list_elem_of_fmap. exists p. split; [done|].
          apply elem_of_reverse. eapply subseteq_take. exact Hin. }
      rewrite Hent, Hc, reverse_snoc, length_take, length_reverse.
      destruct (Z.to_nat cap) as [|c] eqn:Hcn; [lia|]. cbn [take]. f_equal.
      case_bool_decide as Hge.
      + rewrite take_take. f_equal. lia.
      + rewrite (take_ge _ (S c)) by (rewrite length_reverse; lia).
        rewrite take_ge by (rewrite length_reverse; lia). done. }
  destruct Hgen as (lru & He & Hwf & _ & Hent).
  exists lru. split; [done|]. split; [done|].
  intros k. by rewrite <-Hent, assoc_entries.
Qed.

Lemma distinct_puts_keep_last_witness :
  1 <= 2 ∧ NoDup ([("a", [x01]); ("b", [x02]); ("c", [x03])].*1) ∧
  ∃ lru,
    exec (puts [("a", [x01]); ("b", [x02]); ("c", [x03])]) (NewLRUCache 2)
    = Some lru ∧
    entries lru
    = take (Z.to_nat 2) (reverse [("a", [x01]); ("b", [x02]); ("c", [x03])]) ∧
    ∀ k, peek k lru
         = assoc k (take (Z.to_nat 2)
                      (reverse [("a", [x01]); ("b", [x02]); ("c", [x03])])).
Proof.
  assert (Hnd : NoDup ([("a", [x01]); ("b", [x02]); ("c", [x03])].*1))
    by (csimpl; repeat (apply NoDup_cons; split);
        [(intros Hin;
          repeat (apply elem_of_cons in Hin as [Hin|Hin]; [discriminate|]);
          by apply elem_of_nil in Hin)..|apply NoDup_nil_2]).
  split; [lia|]. split; [exact Hnd|].
  apply distinct_puts_keep_last; [lia|exact Hnd].
Defined.

(** ** How long a key stays *)

Lemma assoc_None_not_in k (l : list (string * list byte)) :
  assoc k l = None → k ∉ l.*1.
Proof.
  induction l as [|[k' v] l IH]; csimpl; [intros _; apply not_elem_of_nil|].
  case_decide as Hd; [done|]. intros Ha.
  apply not_elem_of_cons. split; [done|by apply IH].
Qed.

Lemma assoc_app_not_in k (b l : list (string * list byte)) :
  k ∉ b.*1 → assoc k (b ++ l) = assoc k l.
Proof.
  induction b as [|[k' v] b IH]; csimpl; [done|].
  intros [Hne Hin]%not_elem_of_cons. rewrite decide_False by done. by apply IH.
Qed.

Lemma elem_of_without_keys x k (l : list (string * list byte)) :
  x ∈ (without k l).*1 → x ∈ l.*1.
Proof.
  unfold without. intros Hin.
  apply list_elem_of_fmap in Hin as (p & -> & Hin).
  apply list_elem_of_filter in Hin as [_ Hin].
  apply list_elem_of_fmap. eauto.
Qed.

(** The keys of the entries of a well-formed cache are all different. *)
Lemma NoDup_entries_keys lru : wf lru → NoDup (entries lru).*1.
Proof.
  intros Hwf. unfold entries.
  assert (Hgen : ∀ l, NoDup l → (∀ e, e ∈ l → e ∈ list_ lru) →
    NoDup (omap (λ e, (λ it, (key it, value it)) <$> items lru !! e) l).*1).
  { induction l as [|x l IH]; intros Hnd Hsub; csimpl; [constructor|].
    apply NoDup_cons in Hnd as [Hx Hnd].
    destruct (wf_entry _ Hwf x) as (it & Hit & Hc); [apply Hsub; by left|].
    rewrite Hit. csimpl. apply NoDup_cons. split.
    - intros Hin. apply list_elem_of_fmap in Hin as ([k' v'] & Hk & Hin).
      simpl in Hk. apply list_elem_of_omap in Hin as (e' & He' & Hf).
      destruct (wf_entry _ Hwf e') as (it' & Hit' & Hc');
        [apply Hsub; by right|].
      rewrite Hit' in Hf. simpl in Hf. injection Hf as <- _.
      rewrite <-Hk in Hc'. rewrite Hc in Hc'. injection Hc' as ->. done.
    - apply IH; [done|]. intros e He. apply Hsub. by right. }
  apply Hgen; [apply Hwf|done].
Qed.

Lemma NoDup_subset_size (l : list string) (S : gset string) :
  NoDup l → (∀ x, x ∈ l → x ∈ S) → (length l ≤ size S)%nat.
Proof.
  intros Hnd Hsub.
  assert (Hs : (list_to_set l : gset string) ⊆ S).
  { intros x Hx. apply elem_of_list_to_set in Hx. by apply Hsub. }
  apply subseteq_size in Hs. by rewrite size_list_to_set in Hs.
Qed.

(** One call on another key: the key [k] keeps its value, behind entries
    whose keys are among those of the calls made since [k] was used, as
    long as these keys are fewer than the capacity. *)
Lemma survive_step op lru lru' b a k v (S : gset string) :
  wf lru → step op lru = Some lru' → call_key op ≠ k →
  entries lru = b ++ (k, v) :: a → (∀ x, x ∈ b.*1 → x ∈ S) →
  Z.of_nat (size (S ∪ {[call_key op]})) < capacity lru →
  ∃ b' a', entries lru' = b' ++ (k, v) :: a' ∧
           (∀ x, x ∈ b'.*1 → x ∈ S ∪ {[call_key op]}).
Proof.
  intros Hwf Hstep Hne Hent Hsub Hsize.
  assert (Hmove : ∀ k' v', k' ≠ k →
    ∃ b' a', (k', v') :: without k' (b ++ (k, v) :: a) = b' ++ (k, v) :: a' ∧
             (∀ x, x ∈ b'.*1 → x ∈ S ∪ {[k']})).
  { intros k' v' Hk'. exists ((k', v') :: without k' b), (without k' a). split.
    - unfold without. rewrite filter_app, filter_cons. simpl.
      by rewrite decide_True by done.
    - intros x. csimpl. intros [->|Hin]%elem_of_cons; [set_solver|].
      apply elem_of_without_keys in Hin. apply Hsub in Hin. set_solver. }
  destruct op as [k'|k' v']; simpl in *.
  - destruct (Get_entries k' lru Hwf) as (lru2 & HG & He).
    rewrite HG in Hstep. simpl in Hstep. injection Hstep as <-.
    rewrite He, Hent. unfold AGet.
    destruct (assoc k' (b ++ (k, v) :: a)) as [v'|]; simpl.
    + by apply Hmove.
    + exists b, a. split; [done|]. intros x Hx. apply Hsub in Hx. set_solver.
  - destruct (Put_entries k' v' lru Hwf) as (lru2 & HP & He).
    rewrite HP in Hstep. injection Hstep as <-.
    rewrite He, Hent. unfold APut.
    destruct (assoc k' (b ++ (k, v) :: a)) as [v0|] eqn:Ha; [by apply Hmove|].
    case_bool_decide as Hfull.
    2:{ exists ((k', v') :: b), a. split; [done|].
        intros x. csimpl. intros [->|Hin]%elem_of_cons; [set_solver|].
        apply Hsub in Hin. set_solver. }
    destruct a as [|z a0] using rev_ind.
    { exfalso. apply assoc_None_not_in in Ha.
      rewrite fmap_app in Ha. apply not_elem_of_app in Ha as [Hkb _].
      pose proof (NoDup_entries_keys lru Hwf) as Hnd.
      rewrite Hent, fmap_app in Hnd. apply NoDup_app in Hnd as (Hndb & _).
      assert (Hl : (length (k' :: b.*1) ≤ size (S ∪ {[k']}))%nat).
      { apply NoDup_subset_size; [by apply NoDup_cons|].
        intros x [->|Hin]%elem_of_cons; [set_solver|].
        apply Hsub in Hin. set_solver. }
      simpl in Hl. rewrite length_fmap in Hl.
      rewrite length_app in Hfull. simpl in Hfull. lia. }
    clear IHa0. exists ((k', v') :: b), a0. split.
    + simpl. f_equal.
      replace (b ++ (k, v) :: a0 ++ [z]) with ((b ++ (k, v) :: a0) ++ [z])
        by (by rewrite <-app_assoc).
      rewrite length_app. simpl.
      replace (length (b ++ (k, v) :: a0) + 1 - 1)%nat
        with (length (b ++ (k, v) :: a0)) by lia.
      by rewrite take_app_length.
    + intros x. csimpl. intros [->|Hin]%elem_of_cons; [set_solver|].
      apply Hsub in Hin. set_solver.
Qed.

Lemma step_capacity op lru lru' :
  wf lru → step op lru = Some lru' → wf lru' ∧ capacity lru' = capacity lru.
Proof.
  intros Hwf Hst. destruct op as [k|k v]; simpl in Hst.
  - destruct (Get_wf k lru Hwf) as (r & lru2 & HG & Hwf2 & _ & Hcap).
    rewrite HG in Hst. simpl in Hst. by injection Hst as <-.
  - destruct (Put_wf k v lru Hwf) as (lru2 & HP & Hwf2 & Hcap & _).
    rewrite HP in Hst. by injection Hst as <-.
Qed.

(** The same over a sequence of calls. *)
Lemma survive_exec k v ops lru b a (S : gset string) :
  wf lru → entries lru = b ++ (k, v) :: a → (∀ x, x ∈ b.*1 → x ∈ S) →
  (∀ op, op ∈ ops → call_key op ≠ k) →
  Z.of_nat (size (S ∪ keys_touched ops)) < capacity lru →
  ∃ lru' b' a', exec ops lru = Some lru' ∧ wf lru' ∧
                entries lru' = b' ++ (k, v) :: a'.
Proof.
  revert lru b a S. induction ops as [|op ops IH];
    intros lru b a S Hwf Hent Hsub Hother Hsize; simpl.
  - exists lru, b, a. done.
  - destruct (step_wf op lru Hwf) as (lru1 & Hst & _).
    destruct (step_capacity op lru lru1 Hwf Hst) as [Hwf1 Hcap1].
    assert (Hsz1 : Z.of_nat (size (S ∪ {[call_key op]})) < capacity lru).
    { assert (Hs : S ∪ {[call_key op]} ⊆ S ∪ keys_touched (op :: ops)).
      { unfold keys_touched. csimpl. apply union_mono_l, union_subseteq_l. }
      apply subseteq_size in Hs. lia. }
    destruct (survive_step op lru lru1 b a k v S Hwf Hst
                (Hother op ltac:(by left)) Hent Hsub Hsz1)
      as (b1 & a1 & Hent1 & Hsub1).
    rewrite Hst. simpl.
    apply (IH lru1 b1 a1 (S ∪ {[call_key op]})); [done|done|done| |].
    + intros op' Hin. apply Hother. by right.
    + rewrite Hcap1.
      replace (S ∪ {[call_key op]} ∪ keys_touched ops)
        with (S ∪ keys_touched (op :: ops)); [done|].
      unfold keys_touched. csimpl. by rewrite (assoc_L (∪)).
Qed.

(** A key in front of the entries of a well-formed cache is found. *)
Lemma peek_behind k v b a lru :
  wf lru → entries lru = b ++ (k, v) :: a → peek k lru = Some v.
Proof.
  intros Hwf Hent. rewrite <-assoc_entries by done. rewrite Hent.
  pose proof (NoDup_entries_keys lru Hwf) as Hnd.
  rewrite Hent, fmap_app in Hnd. apply NoDup_app in Hnd as (_ & Hdis & _).
  rewrite assoc_app_not_in.
  - simpl. by rewrite decide_True.
  - intros Hin. apply (Hdis k Hin). csimpl. by left.
Qed.

(** X18: a key stays in the cache as long as fewer other keys than the
    capacity are used after it. When [k] is the most recently used key,
    with value [v], and the calls that follow are on other keys, fewer
    different ones than the capacity, then all these calls run and [k] is
    still there with [v]. *)
Theorem key_survives_few_other_keys (k : string) (v : list byte)
    (ops : list Op) (lru : LRUCache) :
  wf lru → head (entries lru) = Some (k, v) →
  (∀ op, op ∈ ops → call_key op ≠ k) →
  Z.of_nat (size (keys_touched ops)) < capacity lru →
  ∃ lru', exec ops lru = Some lru' ∧ peek k lru' = Some v.
Proof.
  intros Hwf Hhead Hother Hsize.
  destruct (entries lru) as [|p a] eqn:Hent; [done|]. injection Hhead as ->.
  destruct (survive_exec k v ops lru [] a ∅ Hwf Hent)
    as (lru' & b' & a' & He & Hwf' & Hent').
  { intros x Hx. by apply elem_of_nil in Hx. }
  { done. }
  { by rewrite union_empty_l_L. }
  exists lru'. split; [done|].
  rewrite <-assoc_entries by done. rewrite Hent'.
  pose proof (NoDup_entries_keys lru' Hwf') as Hnd.
  rewrite Hent', fmap_app in Hnd. apply NoDup_app in Hnd as (_ & Hdis & _).
  rewrite assoc_app_not_in.
  - simpl. by rewrite decide_True.
  - intros Hin. apply (Hdis k Hin). csimpl. by left.
Qed.

Lemma key_survives_few_other_keys_witness :
  wf (insert_new "b" [x02] (insert_new "a" [x01] (NewLRUCache 3))) ∧
  head (entries (insert_new "b" [x02] (insert_new "a" [x01] (NewLRUCache 3))))
  = Some ("b", [x02]) ∧
  (∀ op, op ∈ [OpPut "c" [x03]; OpGet "a"] → call_key op ≠ "b") ∧
  Z.of_nat (size (keys_touched [OpPut "c" [x03]; OpGet "a"]))
  < capacity (insert_new "b" [x02] (insert_new "a" [x01] (NewLRUCache 3))) ∧
  ∃ lru',
    exec [OpPut "c" [x03]; OpGet "a"]
         (insert_new "b" [x02] (insert_new "a" [x01] (NewLRUCache 3)))
    = Some lru' ∧
    peek "b" lru' = Some [x02].
Proof.
  assert (Hwf : wf (insert_new "b" [x02] (insert_new "a" [x01] (NewLRUCache 3)))).
  { apply wf_insert_new; [apply wf_insert_new; [apply wf_New|reflexivity]|].
    vm_compute. reflexivity. }
  assert (Hhead : head (entries (insert_new "b" [x02]
                                   (insert_new "a" [x01] (NewLRUCache 3))))
                  = Some ("b", [x02])) by (vm_compute; reflexivity).
  assert (Hother : ∀ op, op ∈ [OpPut "c" [x03]; OpGet "a"] →
                         call_key op ≠ "b").
  { intros op Hin.
    repeat (apply elem_of_cons in Hin as [->|Hin]; [discriminate|]).
    by apply elem_of_nil in Hin. }
  assert (Hsize : Z.of_nat (size (keys_touched [OpPut "c" [x03]; OpGet "a"]))
                  < capacity (insert_new "b" [x02]
                                (insert_new "a" [x01] (NewLRUCache 3))))
    by (vm_compute; reflexivity).
  split; [exact Hwf|]. split; [exact Hhead|]. split; [exact Hother|].
  split; [exact Hsize|].
  exact (key_survives_few_other_keys "b" [x02] _ _ Hwf Hhead Hother Hsize).
Defined.

(** ** How long a URL stays cached *)

(** What a request does to the cache is what a [Get], or a [Get] and a
    [Put], of its URL do. *)
Lemma handleRequest_as_calls clientGet url c tr c' :
  SelfURL.handleRequest clientGet url c = Some (tr, c') →
  ∃ ops, exec ops c = Some c' ∧ ∀ op, op ∈ ops → call_key op = url.
Proof.
  unfold SelfURL.handleRequest.
  destruct (Get url c) as [[[body found] c1]|] eqn:HG; [|done]. simpl.
  assert (Hone : exec [OpGet url] c = Some c1) by (simpl; by rewrite HG).
  assert (Hk1 : ∀ op, op ∈ [OpGet url] → call_key op = url).
  { intros op Hin. by apply list_elem_of_singleton in Hin as ->. }
  destruct found; [intros [= <- <-]; eauto|].
  destruct (clientGet url) as [|resp]; [intros [= <- <-]; eauto|].
  destruct (BodyErr resp); [intros [= <- <-]; eauto|].
  destruct (Put url (Body resp) c1) as [c2|] eqn:HP; [|done]. simpl.
  intros [= <- <-]. exists [OpGet url; OpPut url (Body resp)]. split.
  - simpl. rewrite HG. simpl. by rewrite HP.
  - intros op [->|Hin]%elem_of_cons; [done|].
    by apply list_elem_of_singleton in Hin as ->.
Qed.

Lemma serve_as_calls clientGet urls c trs c' :
  SelfURL.serve clientGet urls c = Some (trs, c') →
  ∃ ops, exec ops c = Some c' ∧ ∀ op, op ∈ ops → call_key op ∈ urls.
Proof.
  revert c trs. induction urls as [|url urls IH]; intros c trs; simpl.
  - intros [= <- <-]. exists []. split; [done|].
    intros op Hin. by apply elem_of_nil in Hin.
  - destruct (SelfURL.handleRequest clientGet url c) as [[tr c1]|] eqn:Hh;
      [|done]. simpl.
    destruct (SelfURL.serve clientGet urls c1) as [[trs1 c2]|] eqn:Hs;
      [|done]. simpl.
    intros [= <- <-].
    destruct (handleRequest_as_calls _ _ _ _ _ Hh) as (ops1 & He1 & Hk1).
    destruct (IH c1 trs1 Hs) as (ops2 & He2 & Hk2).
    exists (ops1 ++ ops2). split.
    + rewrite exec_app, He1. done.
    + intros op [Hin|Hin]%elem_of_app.
      * rewrite (Hk1 op Hin). by left.
      * right. by apply Hk2.
Qed.

Lemma serve_wf clientGet urls c :
  wf c → ∃ trs c', SelfURL.serve clientGet urls c = Some (trs, c').
Proof.
  revert c. induction urls as [|url urls IH]; intros c Hwf; simpl; [eauto|].
  assert (∃ tr c1, SelfURL.handleRequest clientGet url c = Some (tr, c1) ∧ wf c1)
    as (tr & c1 & -> & Hwf1).
  { unfold SelfURL.handleRequest.
    destruct (Get_wf url c Hwf) as ([body found] & c1 & -> & Hwf1 & _).
    simpl. destruct found; [eauto|].
    destruct (clientGet url) as [|resp]; [eauto|].
    destruct (BodyErr resp); [eauto|].
    destruct (Put_wf url (Body resp) c1 Hwf1) as (c2 & -> & Hwf2 & _).
    simpl. eauto. }
  simpl. destruct (IH c1 Hwf1) as (trs & c' & ->). simpl. eauto.
Qed.

(** After a request answered with a body the URL is the first entry. *)
Lemma handleRequest_front clientGet url c tr c' body :
  wf c → SelfURL.handleRequest clientGet url c = Some (tr, c') →
  EvWrite body ∈ tr →
  wf c' ∧ capacity c' = capacity c ∧ ∃ a, entries c' = (url, body) :: a.
Proof.
  intros Hwf. unfold SelfURL.handleRequest.
  destruct (Get_entries url c Hwf) as (c1 & HG & He1).
  destruct (Get_wf url c Hwf) as (r & c1' & HG' & Hwf1 & _ & Hcap1).
  rewrite HG in HG'. injection HG' as <- <-.
  rewrite HG. simpl. unfold AGet in *.
  destruct (assoc url (entries c)) as [v|] eqn:Ha; simpl in *.
  - intros [= <- <-] Hin. apply list_elem_of_singleton in Hin.
    injection Hin as <-. split; [done|]. split; [done|]. eauto.
  - destruct (clientGet url) as [|resp].
    { intros [= <- <-] [Hin|Hin]%elem_of_cons; [done|].
      by apply list_elem_of_singleton in Hin. }
    destruct (BodyErr resp).
    { intros [= <- <-] [Hin|Hin]%elem_of_cons; [done|].
      by apply list_elem_of_singleton in Hin. }
    destruct (Put_entries url (Body resp) c1 Hwf1) as (c2 & HP & He2).
    destruct (Put_wf url (Body resp) c1 Hwf1) as (c2' & HP' & Hwf2 & Hcap2 & _).
    rewrite HP in HP'. injection HP' as <-.
    rewrite HP. simpl. intros [= <- <-] [Hin|Hin]%elem_of_cons; [done|].
    apply list_elem_of_singleton in Hin. injection Hin as ->.
    split; [done|]. split; [congruence|].
    rewrite He2. unfold APut. destruct (assoc url (entries c1)); eauto.
Qed.

(** X19: a URL stays cached while fewer other URLs than the capacity are
    requested. After a request for [url] that was answered with a body,
    from the cache or from the fetch, any requests for other URLs, fewer
    different ones than the capacity, are served and leave [url] in the
    cache: the next request for it is answered with the same body and
    without a fetch. *)
Theorem url_stays_cached (g0 g : string → FetchResult) (url : string)
    (body : list byte) (urls : list string)
    (c0 c : LRUCache) (tr0 : list Event) :
  wf c0 → SelfURL.handleRequest g0 url c0 = Some (tr0, c) →
  EvWrite body ∈ tr0 → url ∉ urls →
  Z.of_nat (size (list_to_set urls : gset string)) < capacity c0 →
  ∃ trs c', SelfURL.serve g urls c = Some (trs, c') ∧
    ∀ g', ∃ c'',
      SelfURL.handleRequest g' url c' = Some ([EvWrite body], c'').
Proof.
  intros Hwf0 Hh0 Hbody Hnot Hsize.
  destruct (handleRequest_front g0 url c0 tr0 c body Hwf0 Hh0 Hbody)
    as (Hwf & Hcap & a & Hent).
  destruct (serve_wf g urls c Hwf) as (trs & c' & Hs).
  exists trs, c'. split; [done|].
  destruct (serve_as_calls g urls c trs c' Hs) as (ops & He & Hk).
  assert (Hsub : keys_touched ops ⊆ list_to_set urls).
  { intros x Hx. unfold keys_touched in Hx.
    apply elem_of_list_to_set, list_elem_of_fmap in Hx as (op & -> & Hin).
    apply elem_of_list_to_set. by apply Hk. }
  apply subseteq_size in Hsub.
  destruct (survive_exec url body ops c [] a ∅ Hwf Hent)
    as (c2 & b' & a' & He2 & Hwf2 & Hent2).
  { intros x Hx. by apply elem_of_nil in Hx. }
  { intros op Hin Heq. apply Hnot. rewrite <-Heq. by apply Hk. }
  { rewrite union_empty_l_L, Hcap. lia. }
  rewrite He in He2. injection He2 as <-.
  pose proof (peek_behind url body b' a' c' Hwf2 Hent2) as Hp.
  intros g'. destruct (handleRequest_hit g' url body c' Hwf2 Hp) as (c'' & HH & _).
  eauto.
Qed.

Lemma url_stays_cached_witness :
  wf SelfURL.cache ∧
  SelfURL.handleRequest
    (λ _, FetchOK (mkResponse 200 [] [x68; x69] false)) "/a" SelfURL.cache
  = Some ([EvGet "/a"; EvWrite [x68; x69]],
          insert_new "/a" [x68; x69] SelfURL.cache) ∧
  EvWrite [x68; x69] ∈ [EvGet "/a"; EvWrite [x68; x69]] ∧
  ("/a" ∉ ["/b"; "/c"; "/b"]) ∧
  Z.of_nat (size (list_to_set ["/b"; "/c"; "/b"] : gset string))
  < capacity SelfURL.cache ∧
  ∃ trs c',
    SelfURL.serve (λ _, FetchError) ["/b"; "/c"; "/b"]
      (insert_new "/a" [x68; x69] SelfURL.cache) = Some (trs, c') ∧
    ∀ g', ∃ c'',
      SelfURL.handleRequest g' "/a" c' = Some ([EvWrite [x68; x69]], c'').
Proof.
  assert (Hh : SelfURL.handleRequest
                 (λ _, FetchOK (mkResponse 200 [] [x68; x69] false)) "/a"
                 SelfURL.cache
               = Some ([EvGet "/a"; EvWrite [x68; x69]],
                       insert_new "/a" [x68; x69] SelfURL.cache))
    by (vm_compute; reflexivity).
  assert (Hin : EvWrite [x68; x69] ∈ [EvGet "/a"; EvWrite [x68; x69]])
    by (right; left).
  assert (Hnot : "/a" ∉ ["/b"; "/c"; "/b"]).
  { intros H.
    repeat (apply elem_of_cons in H as [H|H]; [discriminate|]).
    by apply elem_of_nil in H. }
  assert (Hsize : Z.of_nat (size (list_to_set ["/b"; "/c"; "/b"] : gset string))
                  < capacity SelfURL.cache) by (vm_compute; reflexivity).
  split; [apply wf_New|]. split; [exact Hh|]. split; [exact Hin|].
  split; [exact Hnot|]. split; [exact Hsize|].
  exact (url_stays_cached _ (λ _, FetchError) "/a" [x68; x69] _ _ _ _
           (wf_New 10) Hh Hin Hnot Hsize).
Defined.

(** ** Each error has one cause *)

(** X20: in the handler that decodes the path each error response has one
    cause and occurs only for it: "Invalid URL encoding" exactly when the
    decoding fails, "Invalid target URL" exactly when the decoded string
    starts with neither scheme, "Failed to reach target server" exactly
    when the fetch fails; a response of the target, whatever its status
    code, is never turned into an error. *)
Theorem embedded_errors_exact (httpGet : string → FetchResult)
    (path : string) :
  (EvError "Invalid URL encoding" 400 ∈ Embedded.handleRequest httpGet path ↔
   QueryUnescape (TrimPrefix path "/") = None) ∧
  (EvError "Invalid target URL" 400 ∈ Embedded.handleRequest httpGet path ↔
   ∃ u, QueryUnescape (TrimPrefix path "/") = Some u ∧
        HasPrefix u "http://" = false ∧ HasPrefix u "https://" = false) ∧
  (EvError "Failed to reach target server" 502
     ∈ Embedded.handleRequest httpGet path ↔
   ∃ u, QueryUnescape (TrimPrefix path "/") = Some u ∧
        (HasPrefix u "http://" = true ∨ HasPrefix u "https://" = true) ∧
        httpGet u = FetchError) ∧
  (∀ u resp, QueryUnescape (TrimPrefix path "/") = Some u →
     HasPrefix u "http://" = true ∨ HasPrefix u "https://" = true →
     httpGet u = FetchOK resp →
     ∀ msg code, EvError msg code ∉ Embedded.handleRequest httpGet path).
Proof.
  assert (Hok : ∀ msg code u resp,
            EvError msg code
            ∉ EvGet u :: Embedded.copyHeaders (Header resp)
              ++ Embedded.relay resp).
  { intros msg code u resp [Hin|Hin]%elem_of_cons; [done|].
    apply elem_of_app in Hin as [Hin|Hin].
    - apply elem_of_copyHeaders in Hin as (k & v & ?). done.
    - apply elem_of_relay in Hin as [(_ & [?|?])|(_ & ?)]; done. }
  destruct (embedded_trace_cases httpGet path)
    as [[Hq ->]|[(u & Hq & H1 & H2 & ->)|[(u & Hq & Hp & Hf & ->)
        |(u & resp & Hq & Hp & Hf & ->)]]].
  - split; [|split; [|split]].
    + split; [done|]. intros _. by left.
    + split; [|intros (u & Hu & _); congruence].
      intros Hin. by apply list_elem_of_singleton in Hin.
    + split; [|intros (u & Hu & _); congruence].
      intros Hin. by apply list_elem_of_singleton in Hin.
    + intros u resp Hu. congruence.
  - split; [|split; [|split]].
    + split; [|congruence].
      intros Hin. by apply list_elem_of_singleton in Hin.
    + split; [eauto|]. intros _. by left.
    + split; [|intros (u' & Hu & [Hp|Hp] & _); congruence].
      intros Hin. by apply list_elem_of_singleton in Hin.
    + intros u' resp Hu [Hp|Hp]; congruence.
  - split; [|split; [|split]].
    + split; [|congruence].
      intros [Hin|Hin]%elem_of_cons; [done|].
      by apply list_elem_of_singleton in Hin.
    + split; [|intros (u' & Hu & H1 & H2); destruct Hp; congruence].
      intros [Hin|Hin]%elem_of_cons; [done|].
      by apply list_elem_of_singleton in Hin.
    + split; [eauto|]. intros _. right. by left.
    + intros u' resp Hu _ Hf'. congruence.
  - split; [|split; [|split]].
    + split; [|congruence]. intros Hin. by apply Hok in Hin.
    + split; [|intros (u' & Hu & H1 & H2); destruct Hp; congruence].
      intros Hin. by apply Hok in Hin.
    + split; [|intros (u' & Hu & _ & Hf'); congruence].
      intros Hin. by apply Hok in Hin.
    + intros u' resp' _ _ _ msg code. apply Hok.
Qed.

(** ** The cache fills up and stays full *)

(** X21: no call makes the cache smaller, and a call adds at most one
    entry; a cache of positive capacity that is full stays full. Entries
    leave only to make room for a new one. *)
Theorem cache_never_shrinks (op : Op) (lru : LRUCache) :
  wf lru →
  ∃ lru', step op lru = Some lru' ∧
    (size (cache lru) ≤ size (cache lru') ≤ S (size (cache lru)))%nat ∧
    (0 < capacity lru → len (cache lru) = capacity lru →
     len (cache lru') = capacity lru).
Proof.
  intros Hwf. pose proof (wf_size _ Hwf) as Hsz.
  destruct op as [k|k v]; simpl.
  - destruct (Get_wf k lru Hwf) as (r & lru' & -> & _ & Hc & _).
    exists lru'. split; [done|]. rewrite Hc. split; [lia|done].
  - destruct (cache lru !! k) as [e|] eqn:Hk.
    { rewrite (Put_hit k v e) by done. eexists. split; [done|].
      simpl. split; [lia|done]. }
    destruct (decide (len (cache lru) < capacity lru)) as [Hlt|Hge].
    { rewrite Put_miss_room by done. eexists. split; [done|].
      simpl. rewrite map_size_insert_None by done. split; [lia|lia]. }
    destruct (list_ lru) as [|x l0] eqn:Hl using rev_ind.
    { rewrite Put_miss_empty by done. eexists. split; [done|].
      simpl. rewrite map_size_insert_None by done. split; [lia|].
      unfold len. simpl in Hsz. lia. }
    clear IHl0.
    destruct (Put_miss_full k v lru l0 x Hwf Hk ltac:(lia) Hl)
      as (it & Hit & Hc & ->).
    eexists. split; [done|]. unfold len. simpl.
    rewrite map_size_insert_None.
    2:{ rewrite lookup_delete_ne; [done|]. intros Heq. congruence. }
    rewrite map_size_delete_Some by eauto.
    rewrite length_app in Hsz. simpl in Hsz. split; [lia|]. unfold len. lia.
Qed.

Lemma cache_never_shrinks_witness :
  wf (insert_new "b" [x02] (insert_new "a" [x01] (NewLRUCache 2))) ∧
  ∃ lru',
    step (OpPut "c" [x03])
         (insert_new "b" [x02] (insert_new "a" [x01] (NewLRUCache 2)))
    = Some lru' ∧
    (size (cache (insert_new "b" [x02] (insert_new "a" [x01] (NewLRUCache 2))))
     ≤ size (cache lru')
     ≤ S (size (cache (insert_new "b" [x02]
                         (insert_new "a" [x01] (NewLRUCache 2))))))%nat ∧
    (0 < capacity (insert_new "b" [x02] (insert_new "a" [x01] (NewLRUCache 2))) →
     len (cache (insert_new "b" [x02] (insert_new "a" [x01] (NewLRUCache 2))))
     = capacity (insert_new "b" [x02] (insert_new "a" [x01] (NewLRUCache 2))) →
     len (cache lru')
     = capacity (insert_new "b" [x02] (insert_new "a" [x01] (NewLRUCache 2)))).
Proof.
  assert (Hwf : wf (insert_new "b" [x02] (insert_new "a" [x01] (NewLRUCache 2)))).
  { apply wf_insert_new; [apply wf_insert_new; [apply wf_New|reflexivity]|].
    vm_compute. reflexivity. }
  split; [exact Hwf|]. exact (cache_never_shrinks (OpPut "c" [x03]) _ Hwf).
Defined.
